(** * Echoes of Time: the realtime conversation view

    A shallow embedding of [src/components/ConversationView.tsx] and of the
    mouth-localisation step of the [App] component, with the properties of
    the playback scheduler, the interruption and turn-complete handling, the
    teardown paths, and the loudness-driven jaw animation.

    Modelling conventions.
    - A JavaScript [number] that carries a time, a loudness or a pixel
      length is a real number ([R]); rounding of IEEE 754 doubles is
      outside that model.  Where a property depends on the rounding (the
      convergence of the smoothed loudness) the code is modelled a second
      time on binary64 numbers, in the module [Binary64].  Counters are
      integers ([Z], [N], [nat]).
    - A JavaScript string is its sequence of UTF-16 code units.
    - React state ([useState]) and refs ([useRef]) are fields of one
      [State] record; a state setter takes effect at once, setters being
      applied in call order.
    - What the browser does on behalf of the component (sources started and
      stopped, sessions closed, tracks stopped, animation callbacks
      pending) is recorded in further fields of [State].
    - An asynchronous handler runs to completion on its message; the values
      it reads from the environment (output clock, decode result, analyser
      samples) are arguments. *)

From Stdlib Require Import Floats.
From Stdlib Require Import Reals Lra Lia ZArith NArith Bool List String Ascii QArith Qreals.
Import ListNotations.

(** ** JavaScript strings *)

Definition jsString : Type := list N.

(** An ASCII literal as a JavaScript string. *)
Definition js (s : string) : jsString :=
  map N_of_ascii (list_ascii_of_string s).

(** ECMAScript [WhiteSpace] and [LineTerminator] code units, the ones
    [String.prototype.trim] strips. *)
Definition isWhiteSpace (c : N) : bool :=
  ((9 <=? c) && (c <=? 13) || (c =? 32) || (c =? 160) || (c =? 5760)
   || (8192 <=? c) && (c <=? 8202) || (c =? 8232) || (c =? 8233)
   || (c =? 8239) || (c =? 8287) || (c =? 12288) || (c =? 65279))%N.

Fixpoint trimStart (s : jsString) : jsString :=
  match s with
  | c :: rest => if isWhiteSpace c then trimStart rest else s
  | [] => []
  end.

Definition trimEnd (s : jsString) : jsString := rev (trimStart (rev s)).

Definition trim (s : jsString) : jsString := trimEnd (trimStart s).

(** Truthiness of a string: non-empty. *)
Definition truthyString (s : jsString) : bool :=
  match s with [] => false | _ :: _ => true end.

(** ** Data model of the conversation view *)

Inductive Status : Type := idle | connecting | live | error.

Inductive Speaker : Type := user | model.

Record TranscriptEntry : Type := mkEntry {
  speaker : Speaker;
  text : jsString
}.

Record MouthCoordinates : Type := mkMouth {
  mouthX : R;
  mouthY : R;
  mouthWidth : R;
  mouthHeight : R
}.

(** Handles of browser and SDK objects. *)
Definition LiveSession : Type := nat.
Definition MediaStream : Type := nat.
Definition ScriptProcessorNode : Type := nat.
Definition MediaStreamAudioSourceNode : Type := nat.

Inductive AudioContextState : Type := running | suspended | closed.

Record AudioContext : Type := mkContext {
  sampleRate : Z;
  contextState : AudioContextState
}.

Record AnalyserNode : Type := mkAnalyser {
  fftSize : nat
}.

(** A buffer source: its identity, the time passed to [start] and the
    duration of its buffer. *)
Record AudioBufferSourceNode : Type := mkSource {
  nodeId : nat;
  startTime : R;
  bufferDuration : R
}.

(** Canvas drawing commands: [clearRect], and [drawImage] in its
    five-argument and nine-argument forms. *)
Inductive DrawCmd : Type :=
| ClearRect (x y w h : R)
| DrawImage (dx dy dw dh : R)
| DrawSlice (sx sy sw sh dx dy dw dh : R).

Record Canvas : Type := mkCanvas {
  canvasWidth : R;
  canvasHeight : R;
  hasContext2d : bool;
  drawn : list DrawCmd
}.

Record Image : Type := mkImage {
  imgWidth : R;
  imgHeight : R
}.

(** Audio configuration *)
Definition INPUT_SAMPLE_RATE : Z := 16000.
Definition OUTPUT_SAMPLE_RATE : Z := 24000.
Definition SCRIPT_PROCESSOR_BUFFER_SIZE : Z := 4096.
Definition ANALYSER_FFT_SIZE : nat := 256.

(** The component's state: [useState] values, refs, and the browser-side
    record of effects ([statusLog] lists every [setStatus] call, oldest
    first; [started] every [start] call, oldest first; [stopped] the
    sources on which [stop] was called; [pendingFrames] the animation
    callbacks requested and not yet run or cancelled). *)
Record State : Type := mkState {
  status : Status;
  statusLog : list Status;
  transcript : list TranscriptEntry;
  activeAudioSources : Z;
  sessionPromiseRef : option LiveSession;
  inputAudioContextRef : option AudioContext;
  outputAudioContextRef : option AudioContext;
  audioStreamRef : option MediaStream;
  scriptProcessorRef : option ScriptProcessorNode;
  mediaStreamSourceRef : option MediaStreamAudioSourceNode;
  nextStartTimeRef : R;
  audioSourcesRef : list AudioBufferSourceNode;
  analyserNodeRef : option AnalyserNode;
  animationFrameIdRef : option N;
  canvasRef : option Canvas;
  imageRef : option Image;
  smoothedVolumeRef : R;
  currentInputTranscriptionRef : jsString;
  currentOutputTranscriptionRef : jsString;
  started : list AudioBufferSourceNode;
  stopped : list nat;
  closedSessions : list LiveSession;
  stoppedStreams : list MediaStream;
  pendingFrames : list N;
  rafCounter : N;
  onEndCalls : nat
}.

Definition set_status (v : Status) (s : State) : State :=
  mkState v (statusLog s) (transcript s) (activeAudioSources s)
    (sessionPromiseRef s) (inputAudioContextRef s) (outputAudioContextRef s)
    (audioStreamRef s) (scriptProcessorRef s) (mediaStreamSourceRef s)
    (nextStartTimeRef s) (audioSourcesRef s) (analyserNodeRef s)
    (animationFrameIdRef s) (canvasRef s) (imageRef s) (smoothedVolumeRef s)
    (currentInputTranscriptionRef s) (currentOutputTranscriptionRef s)
    (started s) (stopped s) (closedSessions s) (stoppedStreams s)
    (pendingFrames s) (rafCounter s) (onEndCalls s).

Definition set_statusLog (v : list Status) (s : State) : State :=
  mkState (status s) v (transcript s) (activeAudioSources s)
    (sessionPromiseRef s) (inputAudioContextRef s) (outputAudioContextRef s)
    (audioStreamRef s) (scriptProcessorRef s) (mediaStreamSourceRef s)
    (nextStartTimeRef s) (audioSourcesRef s) (analyserNodeRef s)
    (animationFrameIdRef s) (canvasRef s) (imageRef s) (smoothedVolumeRef s)
    (currentInputTranscriptionRef s) (currentOutputTranscriptionRef s)
    (started s) (stopped s) (closedSessions s) (stoppedStreams s)
    (pendingFrames s) (rafCounter s) (onEndCalls s).

Definition set_transcript (v : list TranscriptEntry) (s : State) : State :=
  mkState (status s) (statusLog s) v (activeAudioSources s)
    (sessionPromiseRef s) (inputAudioContextRef s) (outputAudioContextRef s)
    (audioStreamRef s) (scriptProcessorRef s) (mediaStreamSourceRef s)
    (nextStartTimeRef s) (audioSourcesRef s) (analyserNodeRef s)
    (animationFrameIdRef s) (canvasRef s) (imageRef s) (smoothedVolumeRef s)
    (currentInputTranscriptionRef s) (currentOutputTranscriptionRef s)
    (started s) (stopped s) (closedSessions s) (stoppedStreams s)
    (pendingFrames s) (rafCounter s) (onEndCalls s).

Definition set_activeAudioSources (v : Z) (s : State) : State :=
  mkState (status s) (statusLog s) (transcript s) v (sessionPromiseRef s)
    (inputAudioContextRef s) (outputAudioContextRef s) (audioStreamRef s)
    (scriptProcessorRef s) (mediaStreamSourceRef s) (nextStartTimeRef s)
    (audioSourcesRef s) (analyserNodeRef s) (animationFrameIdRef s)
    (canvasRef s) (imageRef s) (smoothedVolumeRef s)
    (currentInputTranscriptionRef s) (currentOutputTranscriptionRef s)
    (started s) (stopped s) (closedSessions s) (stoppedStreams s)
    (pendingFrames s) (rafCounter s) (onEndCalls s).

Definition set_sessionPromiseRef (v : option LiveSession) (s : State) : State :=
  mkState (status s) (statusLog s) (transcript s) (activeAudioSources s) v
    (inputAudioContextRef s) (outputAudioContextRef s) (audioStreamRef s)
    (scriptProcessorRef s) (mediaStreamSourceRef s) (nextStartTimeRef s)
    (audioSourcesRef s) (analyserNodeRef s) (animationFrameIdRef s)
    (canvasRef s) (imageRef s) (smoothedVolumeRef s)
    (currentInputTranscriptionRef s) (currentOutputTranscriptionRef s)
    (started s) (stopped s) (closedSessions s) (stoppedStreams s)
    (pendingFrames s) (rafCounter s) (onEndCalls s).

Definition set_inputAudioContextRef (v : option AudioContext) (s : State) : State :=
  mkState (status s) (statusLog s) (transcript s) (activeAudioSources s)
    (sessionPromiseRef s) v (outputAudioContextRef s) (audioStreamRef s)
    (scriptProcessorRef s) (mediaStreamSourceRef s) (nextStartTimeRef s)
    (audioSourcesRef s) (analyserNodeRef s) (animationFrameIdRef s)
    (canvasRef s) (imageRef s) (smoothedVolumeRef s)
    (currentInputTranscriptionRef s) (currentOutputTranscriptionRef s)
    (started s) (stopped s) (closedSessions s) (stoppedStreams s)
    (pendingFrames s) (rafCounter s) (onEndCalls s).

Definition set_outputAudioContextRef (v : option AudioContext) (s : State) : State :=
  mkState (status s) (statusLog s) (transcript s) (activeAudioSources s)
    (sessionPromiseRef s) (inputAudioContextRef s) v (audioStreamRef s)
    (scriptProcessorRef s) (mediaStreamSourceRef s) (nextStartTimeRef s)
    (audioSourcesRef s) (analyserNodeRef s) (animationFrameIdRef s)
    (canvasRef s) (imageRef s) (smoothedVolumeRef s)
    (currentInputTranscriptionRef s) (currentOutputTranscriptionRef s)
    (started s) (stopped s) (closedSessions s) (stoppedStreams s)
    (pendingFrames s) (rafCounter s) (onEndCalls s).

Definition set_audioStreamRef (v : option MediaStream) (s : State) : State :=
  mkState (status s) (statusLog s) (transcript s) (activeAudioSources s)
    (sessionPromiseRef s) (inputAudioContextRef s) (outputAudioContextRef s)
    v (scriptProcessorRef s) (mediaStreamSourceRef s) (nextStartTimeRef s)
    (audioSourcesRef s) (analyserNodeRef s) (animationFrameIdRef s)
    (canvasRef s) (imageRef s) (smoothedVolumeRef s)
    (currentInputTranscriptionRef s) (currentOutputTranscriptionRef s)
    (started s) (stopped s) (closedSessions s) (stoppedStreams s)
    (pendingFrames s) (rafCounter s) (onEndCalls s).

Definition set_scriptProcessorRef (v : option ScriptProcessorNode) (s : State) : State :=
  mkState (status s) (statusLog s) (transcript s) (activeAudioSources s)
    (sessionPromiseRef s) (inputAudioContextRef s) (outputAudioContextRef s)
    (audioStreamRef s) v (mediaStreamSourceRef s) (nextStartTimeRef s)
    (audioSourcesRef s) (analyserNodeRef s) (animationFrameIdRef s)
    (canvasRef s) (imageRef s) (smoothedVolumeRef s)
    (currentInputTranscriptionRef s) (currentOutputTranscriptionRef s)
    (started s) (stopped s) (closedSessions s) (stoppedStreams s)
    (pendingFrames s) (rafCounter s) (onEndCalls s).

Definition set_mediaStreamSourceRef (v : option MediaStreamAudioSourceNode) (s : State) : State :=
  mkState (status s) (statusLog s) (transcript s) (activeAudioSources s)
    (sessionPromiseRef s) (inputAudioContextRef s) (outputAudioContextRef s)
    (audioStreamRef s) (scriptProcessorRef s) v (nextStartTimeRef s)
    (audioSourcesRef s) (analyserNodeRef s) (animationFrameIdRef s)
    (canvasRef s) (imageRef s) (smoothedVolumeRef s)
    (currentInputTranscriptionRef s) (currentOutputTranscriptionRef s)
    (started s) (stopped s) (closedSessions s) (stoppedStreams s)
    (pendingFrames s) (rafCounter s) (onEndCalls s).

Definition set_nextStartTimeRef (v : R) (s : State) : State :=
  mkState (status s) (statusLog s) (transcript s) (activeAudioSources s)
    (sessionPromiseRef s) (inputAudioContextRef s) (outputAudioContextRef s)
    (audioStreamRef s) (scriptProcessorRef s) (mediaStreamSourceRef s) v
    (audioSourcesRef s) (analyserNodeRef s) (animationFrameIdRef s)
    (canvasRef s) (imageRef s) (smoothedVolumeRef s)
    (currentInputTranscriptionRef s) (currentOutputTranscriptionRef s)
    (started s) (stopped s) (closedSessions s) (stoppedStreams s)
    (pendingFrames s) (rafCounter s) (onEndCalls s).

Definition set_audioSourcesRef (v : list AudioBufferSourceNode) (s : State) : State :=
  mkState (status s) (statusLog s) (transcript s) (activeAudioSources s)
    (sessionPromiseRef s) (inputAudioContextRef s) (outputAudioContextRef s)
    (audioStreamRef s) (scriptProcessorRef s) (mediaStreamSourceRef s)
    (nextStartTimeRef s) v (analyserNodeRef s) (animationFrameIdRef s)
    (canvasRef s) (imageRef s) (smoothedVolumeRef s)
    (currentInputTranscriptionRef s) (currentOutputTranscriptionRef s)
    (started s) (stopped s) (closedSessions s) (stoppedStreams s)
    (pendingFrames s) (rafCounter s) (onEndCalls s).

Definition set_analyserNodeRef (v : option AnalyserNode) (s : State) : State :=
  mkState (status s) (statusLog s) (transcript s) (activeAudioSources s)
    (sessionPromiseRef s) (inputAudioContextRef s) (outputAudioContextRef s)
    (audioStreamRef s) (scriptProcessorRef s) (mediaStreamSourceRef s)
    (nextStartTimeRef s) (audioSourcesRef s) v (animationFrameIdRef s)
    (canvasRef s) (imageRef s) (smoothedVolumeRef s)
    (currentInputTranscriptionRef s) (currentOutputTranscriptionRef s)
    (started s) (stopped s) (closedSessions s) (stoppedStreams s)
    (pendingFrames s) (rafCounter s) (onEndCalls s).

Definition set_animationFrameIdRef (v : option N) (s : State) : State :=
  mkState (status s) (statusLog s) (transcript s) (activeAudioSources s)
    (sessionPromiseRef s) (inputAudioContextRef s) (outputAudioContextRef s)
    (audioStreamRef s) (scriptProcessorRef s) (mediaStreamSourceRef s)
    (nextStartTimeRef s) (audioSourcesRef s) (analyserNodeRef s) v
    (canvasRef s) (imageRef s) (smoothedVolumeRef s)
    (currentInputTranscriptionRef s) (currentOutputTranscriptionRef s)
    (started s) (stopped s) (closedSessions s) (stoppedStreams s)
    (pendingFrames s) (rafCounter s) (onEndCalls s).

Definition set_canvasRef (v : option Canvas) (s : State) : State :=
  mkState (status s) (statusLog s) (transcript s) (activeAudioSources s)
    (sessionPromiseRef s) (inputAudioContextRef s) (outputAudioContextRef s)
    (audioStreamRef s) (scriptProcessorRef s) (mediaStreamSourceRef s)
    (nextStartTimeRef s) (audioSourcesRef s) (analyserNodeRef s)
    (animationFrameIdRef s) v (imageRef s) (smoothedVolumeRef s)
    (currentInputTranscriptionRef s) (currentOutputTranscriptionRef s)
    (started s) (stopped s) (closedSessions s) (stoppedStreams s)
    (pendingFrames s) (rafCounter s) (onEndCalls s).

Definition set_imageRef (v : option Image) (s : State) : State :=
  mkState (status s) (statusLog s) (transcript s) (activeAudioSources s)
    (sessionPromiseRef s) (inputAudioContextRef s) (outputAudioContextRef s)
    (audioStreamRef s) (scriptProcessorRef s) (mediaStreamSourceRef s)
    (nextStartTimeRef s) (audioSourcesRef s) (analyserNodeRef s)
    (animationFrameIdRef s) (canvasRef s) v (smoothedVolumeRef s)
    (currentInputTranscriptionRef s) (currentOutputTranscriptionRef s)
    (started s) (stopped s) (closedSessions s) (stoppedStreams s)
    (pendingFrames s) (rafCounter s) (onEndCalls s).

Definition set_smoothedVolumeRef (v : R) (s : State) : State :=
  mkState (status s) (statusLog s) (transcript s) (activeAudioSources s)
    (sessionPromiseRef s) (inputAudioContextRef s) (outputAudioContextRef s)
    (audioStreamRef s) (scriptProcessorRef s) (mediaStreamSourceRef s)
    (nextStartTimeRef s) (audioSourcesRef s) (analyserNodeRef s)
    (animationFrameIdRef s) (canvasRef s) (imageRef s) v
    (currentInputTranscriptionRef s) (currentOutputTranscriptionRef s)
    (started s) (stopped s) (closedSessions s) (stoppedStreams s)
    (pendingFrames s) (rafCounter s) (onEndCalls s).

Definition set_currentInputTranscriptionRef (v : jsString) (s : State) : State :=
  mkState (status s) (statusLog s) (transcript s) (activeAudioSources s)
    (sessionPromiseRef s) (inputAudioContextRef s) (outputAudioContextRef s)
    (audioStreamRef s) (scriptProcessorRef s) (mediaStreamSourceRef s)
    (nextStartTimeRef s) (audioSourcesRef s) (analyserNodeRef s)
    (animationFrameIdRef s) (canvasRef s) (imageRef s) (smoothedVolumeRef s)
    v (currentOutputTranscriptionRef s) (started s) (stopped s)
    (closedSessions s) (stoppedStreams s) (pendingFrames s) (rafCounter s)
    (onEndCalls s).

Definition set_currentOutputTranscriptionRef (v : jsString) (s : State) : State :=
  mkState (status s) (statusLog s) (transcript s) (activeAudioSources s)
    (sessionPromiseRef s) (inputAudioContextRef s) (outputAudioContextRef s)
    (audioStreamRef s) (scriptProcessorRef s) (mediaStreamSourceRef s)
    (nextStartTimeRef s) (audioSourcesRef s) (analyserNodeRef s)
    (animationFrameIdRef s) (canvasRef s) (imageRef s) (smoothedVolumeRef s)
    (currentInputTranscriptionRef s) v (started s) (stopped s)
    (closedSessions s) (stoppedStreams s) (pendingFrames s) (rafCounter s)
    (onEndCalls s).

Definition set_started (v : list AudioBufferSourceNode) (s : State) : State :=
  mkState (status s) (statusLog s) (transcript s) (activeAudioSources s)
    (sessionPromiseRef s) (inputAudioContextRef s) (outputAudioContextRef s)
    (audioStreamRef s) (scriptProcessorRef s) (mediaStreamSourceRef s)
    (nextStartTimeRef s) (audioSourcesRef s) (analyserNodeRef s)
    (animationFrameIdRef s) (canvasRef s) (imageRef s) (smoothedVolumeRef s)
    (currentInputTranscriptionRef s) (currentOutputTranscriptionRef s) v
    (stopped s) (closedSessions s) (stoppedStreams s) (pendingFrames s)
    (rafCounter s) (onEndCalls s).

Definition set_stopped (v : list nat) (s : State) : State :=
  mkState (status s) (statusLog s) (transcript s) (activeAudioSources s)
    (sessionPromiseRef s) (inputAudioContextRef s) (outputAudioContextRef s)
    (audioStreamRef s) (scriptProcessorRef s) (mediaStreamSourceRef s)
    (nextStartTimeRef s) (audioSourcesRef s) (analyserNodeRef s)
    (animationFrameIdRef s) (canvasRef s) (imageRef s) (smoothedVolumeRef s)
    (currentInputTranscriptionRef s) (currentOutputTranscriptionRef s)
    (started s) v (closedSessions s) (stoppedStreams s) (pendingFrames s)
    (rafCounter s) (onEndCalls s).

Definition set_closedSessions (v : list LiveSession) (s : State) : State :=
  mkState (status s) (statusLog s) (transcript s) (activeAudioSources s)
    (sessionPromiseRef s) (inputAudioContextRef s) (outputAudioContextRef s)
    (audioStreamRef s) (scriptProcessorRef s) (mediaStreamSourceRef s)
    (nextStartTimeRef s) (audioSourcesRef s) (analyserNodeRef s)
    (animationFrameIdRef s) (canvasRef s) (imageRef s) (smoothedVolumeRef s)
    (currentInputTranscriptionRef s) (currentOutputTranscriptionRef s)
    (started s) (stopped s) v (stoppedStreams s) (pendingFrames s)
    (rafCounter s) (onEndCalls s).

Definition set_stoppedStreams (v : list MediaStream) (s : State) : State :=
  mkState (status s) (statusLog s) (transcript s) (activeAudioSources s)
    (sessionPromiseRef s) (inputAudioContextRef s) (outputAudioContextRef s)
    (audioStreamRef s) (scriptProcessorRef s) (mediaStreamSourceRef s)
    (nextStartTimeRef s) (audioSourcesRef s) (analyserNodeRef s)
    (animationFrameIdRef s) (canvasRef s) (imageRef s) (smoothedVolumeRef s)
    (currentInputTranscriptionRef s) (currentOutputTranscriptionRef s)
    (started s) (stopped s) (closedSessions s) v (pendingFrames s)
    (rafCounter s) (onEndCalls s).

Definition set_pendingFrames (v : list N) (s : State) : State :=
  mkState (status s) (statusLog s) (transcript s) (activeAudioSources s)
    (sessionPromiseRef s) (inputAudioContextRef s) (outputAudioContextRef s)
    (audioStreamRef s) (scriptProcessorRef s) (mediaStreamSourceRef s)
    (nextStartTimeRef s) (audioSourcesRef s) (analyserNodeRef s)
    (animationFrameIdRef s) (canvasRef s) (imageRef s) (smoothedVolumeRef s)
    (currentInputTranscriptionRef s) (currentOutputTranscriptionRef s)
    (started s) (stopped s) (closedSessions s) (stoppedStreams s) v
    (rafCounter s) (onEndCalls s).

Definition set_rafCounter (v : N) (s : State) : State :=
  mkState (status s) (statusLog s) (transcript s) (activeAudioSources s)
    (sessionPromiseRef s) (inputAudioContextRef s) (outputAudioContextRef s)
    (audioStreamRef s) (scriptProcessorRef s) (mediaStreamSourceRef s)
    (nextStartTimeRef s) (audioSourcesRef s) (analyserNodeRef s)
    (animationFrameIdRef s) (canvasRef s) (imageRef s) (smoothedVolumeRef s)
    (currentInputTranscriptionRef s) (currentOutputTranscriptionRef s)
    (started s) (stopped s) (closedSessions s) (stoppedStreams s)
    (pendingFrames s) v (onEndCalls s).

Definition set_onEndCalls (v : nat) (s : State) : State :=
  mkState (status s) (statusLog s) (transcript s) (activeAudioSources s)
    (sessionPromiseRef s) (inputAudioContextRef s) (outputAudioContextRef s)
    (audioStreamRef s) (scriptProcessorRef s) (mediaStreamSourceRef s)
    (nextStartTimeRef s) (audioSourcesRef s) (analyserNodeRef s)
    (animationFrameIdRef s) (canvasRef s) (imageRef s) (smoothedVolumeRef s)
    (currentInputTranscriptionRef s) (currentOutputTranscriptionRef s)
    (started s) (stopped s) (closedSessions s) (stoppedStreams s)
    (pendingFrames s) (rafCounter s) v.

Local Open Scope R_scope.

Definition initialState : State :=
  mkState idle [] [] 0%Z None None None None None None 0 [] None None
    None None 0 [] [] [] [] [] [] [] 0%N 0%nat.

(** ** Server messages *)

Record Blob : Type := mkBlob {
  data : option jsString
}.

Record Part : Type := mkPart {
  inlineData : option Blob
}.

Record Content : Type := mkContent {
  parts : option (list Part)
}.

Record Transcription : Type := mkTranscription {
  transcriptionText : option jsString
}.

(** The optional flags [interrupted] and [turnComplete] are only tested
    for truthiness: [false] also stands for an absent flag. *)
Record LiveServerContent : Type := mkServerContent {
  modelTurn : option Content;
  interrupted : bool;
  inputTranscription : option Transcription;
  outputTranscription : option Transcription;
  turnComplete : bool
}.

Record LiveServerMessage : Type := mkMessage {
  serverContent : option LiveServerContent
}.

(** How a call, or an asynchronous handler, ends. *)
Inductive Completion : Type := Fulfilled | Rejected.

(** Modelled from the spec: [decode] and [decodeAudioData] of
    [utils/audio] are not among the sources.  The spec (4.1, 7) has them
    return a playable buffer or fail with a decode error on a malformed
    payload; of the buffer only its duration is used. *)
Inductive DecodeOutcome : Type :=
| Decoded (duration : R)
| DecodeError.

(** What a message handler reads from its environment: the output
    context's [currentTime], the outcome of decoding the chunk, and the
    analyser's time-domain samples (index to byte). *)
Record MessageEnv : Type := mkEnv {
  currentTime : R;
  decodeResult : DecodeOutcome;
  waveform : nat -> Byte.byte
}.

(** ** Browser primitives *)

Definition setStatus (v : Status) (s : State) : State :=
  set_statusLog (statusLog s ++ [v]) (set_status v s).

(** Truthiness of a frame id held in a ref ([null] and [0] are falsy). *)
Definition truthyFrameId (id : option N) : bool :=
  match id with
  | Some n => negb (n =? 0)%N
  | None => false
  end.

Definition requestAnimationFrame (s : State) : N * State :=
  let id := N.succ (rafCounter s) in
  (id, set_pendingFrames (pendingFrames s ++ [id]) (set_rafCounter id s)).

Definition cancelAnimationFrame (id : N) (s : State) : State :=
  set_pendingFrames (filter (fun i => negb (i =? id)%N) (pendingFrames s)) s.

(** [ctx.close()] guarded by [ctx && ctx.state !== 'closed']. *)
Definition closeContext (c : option AudioContext) : option AudioContext :=
  match c with
  | Some ctx =>
      match contextState ctx with
      | closed => Some ctx
      | _ => Some (mkContext (sampleRate ctx) closed)
      end
  | None => None
  end.

(** [for (const source of set.values()) source.stop()] *)
Definition stopAll (s : State) : State :=
  set_stopped (stopped s ++ map nodeId (audioSourcesRef s)) s.

Definition sameNode (a b : AudioBufferSourceNode) : bool :=
  Nat.eqb (nodeId a) (nodeId b).

(** [Set.prototype.add] and [Set.prototype.delete], in insertion order. *)
Definition setAdd (x : AudioBufferSourceNode) (l : list AudioBufferSourceNode)
  : list AudioBufferSourceNode :=
  if existsb (sameNode x) l then l else l ++ [x].

Definition setDelete (id : nat) (l : list AudioBufferSourceNode)
  : list AudioBufferSourceNode :=
  filter (fun y => negb (Nat.eqb (nodeId y) id)) l.

(** ** Teardown routines *)

Definition stopAudioProcessing (s : State) : State :=
  let s1 :=
    match scriptProcessorRef s, mediaStreamSourceRef s with
    | Some _, Some _ => set_mediaStreamSourceRef None (set_scriptProcessorRef None s)
    | _, _ => s
    end in
  let s2 :=
    match audioStreamRef s1 with
    | Some stream =>
        set_audioStreamRef None (set_stoppedStreams (stoppedStreams s1 ++ [stream]) s1)
    | None => s1
    end in
  let s3 := set_inputAudioContextRef (closeContext (inputAudioContextRef s2)) s2 in
  set_outputAudioContextRef (closeContext (outputAudioContextRef s3)) s3.

(** [sessionPromiseRef.current.then(session => session.close())]: the
    close is recorded when it is requested. *)
Definition closeSession (s : State) : State :=
  match sessionPromiseRef s with
  | Some session => set_closedSessions (closedSessions s ++ [session]) s
  | None => s
  end.

Definition cancelAnimationRef (s : State) : State :=
  if truthyFrameId (animationFrameIdRef s) then
    match animationFrameIdRef s with
    | Some id => set_animationFrameIdRef None (cancelAnimationFrame id s)
    | None => s
    end
  else s.

Definition endConversation (s : State) : State :=
  let s1 := setStatus idle s in
  let s2 :=
    match sessionPromiseRef s1 with
    | Some _ => set_sessionPromiseRef None (closeSession s1)
    | None => s1
    end in
  let s3 := stopAudioProcessing s2 in
  let s4 := cancelAnimationRef s3 in
  let s5 := stopAll s4 in
  let s6 := set_audioSourcesRef [] s5 in
  set_onEndCalls (S (onEndCalls s6)) s6.

(** The frame that shows the original, static image. *)
Definition staticFrame (canvas : Canvas) : list DrawCmd :=
  [ClearRect 0 0 (canvasWidth canvas) (canvasHeight canvas);
   DrawImage 0 0 (canvasWidth canvas) (canvasHeight canvas)].

Definition setDrawn (cmds : list DrawCmd) (canvas : Canvas) : Canvas :=
  mkCanvas (canvasWidth canvas) (canvasHeight canvas) (hasContext2d canvas) cmds.

Definition stopAnimation (s : State) : State :=
  let s1 := cancelAnimationRef s in
  match canvasRef s1, imageRef s1 with
  | Some canvas, Some _ =>
      if hasContext2d canvas
      then set_canvasRef (Some (setDrawn (staticFrame canvas) canvas)) s1
      else s1
  | _, _ => s1
  end.

(** ** Lip-sync animation loop *)

(** The byte at one index of the analyser's time-domain data. *)
Definition amplitudeOf (b : Byte.byte) : R := IZR (Z.of_N (Byte.to_N b)).

(** [analyser.getByteTimeDomainData(new Uint8Array(analyser.fftSize))] *)
Definition getByteTimeDomainData (analyser : AnalyserNode)
  (wave : nat -> Byte.byte) : list Byte.byte :=
  map wave (seq 0 (fftSize analyser)).

(** Values are 0-255 with 128 as the zero point: normalise to -1 .. 1. *)
Definition normSample (amplitude : R) : R := amplitude / 128 - 1.

Definition sumSquares (dataArray : list Byte.byte) : R :=
  fold_left
    (fun acc b => acc + normSample (amplitudeOf b) * normSample (amplitudeOf b))
    dataArray 0.

Definition rmsOf (dataArray : list Byte.byte) : R :=
  sqrt (sumSquares dataArray / INR (List.length dataArray)).

Definition volumeThreshold : R := 0.02.
Definition smoothingFactor : R := 0.25.

Definition effectiveVolume (rms : R) : R :=
  if Rlt_dec volumeThreshold rms then rms else 0.

(** Line 149 in exact arithmetic; [Binary64.smooth] below is the same
    line on binary64 numbers. *)
Definition smooth (smoothed effective : R) : R :=
  smoothed * (1 - smoothingFactor) + effective * smoothingFactor.

Definition dHeightOf (canvas : Canvas) (coords : MouthCoordinates) : R :=
  canvasHeight canvas * (mouthHeight coords / 100).

(** "The mouth can open up to 70% of its original height." *)
Definition maxOpennessOf (canvas : Canvas) (coords : MouthCoordinates) : R :=
  dHeightOf canvas coords * 0.7.

Definition mouthOpennessOf (canvas : Canvas) (coords : MouthCoordinates)
  (smoothed : R) : R :=
  smoothed * maxOpennessOf canvas coords * 8.

(** The three [drawImage] calls of an open mouth: the static top part,
    the jaw shifted down by [mouthOpenness], and the strip filling the
    gap. *)
Definition jawFrame (canvas : Canvas) (img : Image) (coords : MouthCoordinates)
  (mouthOpenness : R) : list DrawCmd :=
  let dHeight := dHeightOf canvas coords in
  let sy := imgHeight img * (mouthY coords / 100) in
  let sHeight := imgHeight img * (mouthHeight coords / 100) in
  let dy := canvasHeight canvas * (mouthY coords / 100) in
  let jawLineSourceY := sy + sHeight / 2 in
  let jawLineCanvasY := dy + dHeight / 2 in
  [ClearRect 0 0 (canvasWidth canvas) (canvasHeight canvas);
   DrawSlice 0 0 (imgWidth img) jawLineSourceY
             0 0 (canvasWidth canvas) jawLineCanvasY;
   DrawSlice 0 jawLineSourceY (imgWidth img) (imgHeight img - jawLineSourceY)
             0 (jawLineCanvasY + mouthOpenness) (canvasWidth canvas)
             (canvasHeight canvas - jawLineCanvasY);
   DrawSlice 0 (jawLineSourceY - 1) (imgWidth img) 2
             0 jawLineCanvasY (canvasWidth canvas) mouthOpenness].

(** What one frame puts on the canvas. *)
Definition frameOf (canvas : Canvas) (img : Image) (coords : MouthCoordinates)
  (mouthOpenness : R) : list DrawCmd :=
  if Rlt_dec 1 mouthOpenness
  then jawFrame canvas img coords mouthOpenness
  else staticFrame canvas.

(** [animationFrameIdRef.current = requestAnimationFrame(animateMouth)] *)
Definition rescheduleAnimation (s : State) : State :=
  let '(id, s1) := requestAnimationFrame s in
  set_animationFrameIdRef (Some id) s1.

Definition animateMouth (mouthCoordinates : option MouthCoordinates)
  (wave : nat -> Byte.byte) (s : State) : State :=
  match analyserNodeRef s, canvasRef s, imageRef s, mouthCoordinates with
  | Some analyser, Some canvas, Some img, Some coords =>
      if hasContext2d canvas then
        let dataArray := getByteTimeDomainData analyser wave in
        let rms := rmsOf dataArray in
        let s1 :=
          set_smoothedVolumeRef
            (smooth (smoothedVolumeRef s) (effectiveVolume rms)) s in
        let mouthOpenness :=
          mouthOpennessOf canvas coords (smoothedVolumeRef s1) in
        let s2 :=
          set_canvasRef
            (Some (setDrawn (frameOf canvas img coords mouthOpenness) canvas)) s1 in
        rescheduleAnimation s2
      else s
  | _, _, _, _ => rescheduleAnimation s
  end.

(** The browser runs a requested animation callback: nothing happens
    for an id that is not pending. *)
Definition onAnimationFrame (mouthCoordinates : option MouthCoordinates)
  (id : N) (wave : nat -> Byte.byte) (s : State) : State :=
  if existsb (N.eqb id) (pendingFrames s)
  then animateMouth mouthCoordinates wave (cancelAnimationFrame id s)
  else s.

(** The effect that loads the photo: it needs the canvas and its 2d
    context; on load the canvas is sized to its container (when it has
    one) and the image drawn once. *)
Definition onImageLoad (img : Image) (container : option R) (s : State) : State :=
  match canvasRef s with
  | Some canvas =>
      if hasContext2d canvas then
        let s1 := set_imageRef (Some img) s in
        match container with
        | Some maxWidth =>
            let scale := maxWidth / imgWidth img in
            let h := imgHeight img * scale in
            set_canvasRef
              (Some (mkCanvas maxWidth h true [DrawImage 0 0 maxWidth h])) s1
        | None => s1
        end
      else s
  | None => s
  end.

(** ** Lines 131-149 in binary64

    A JavaScript [number] is an IEEE 754 binary64 value, and each
    arithmetic operation rounds its exact result to the nearest such
    value, ties to even.  Whether the smoothed loudness reaches the
    loudness it follows depends on that rounding, so the loudness
    computation of [animateMouth] is given a second time, on Rocq's
    primitive binary64 numbers, whose operations round in the same way. *)

Module Binary64.

Local Open Scope Z_scope.

Definition amplitudeOf (b : Byte.byte) : float :=
  PrimFloat.of_uint63 (Uint63.of_Z (Z.of_N (Byte.to_N b))).

(** [(amplitude / 128.0) - 1.0] *)
Definition normSample (amplitude : float) : float :=
  (amplitude / 128 - 1)%float.

Definition sumSquares (dataArray : list Byte.byte) : float :=
  fold_left
    (fun acc b =>
       (acc + normSample (amplitudeOf b) * normSample (amplitudeOf b))%float)
    dataArray 0%float.

(** [Math.sqrt(sumSquares / dataArray.length)] *)
Definition rmsOf (dataArray : list Byte.byte) : float :=
  PrimFloat.sqrt
    (sumSquares dataArray
     / PrimFloat.of_uint63 (Uint63.of_Z (Z.of_nat (List.length dataArray)))).

(** The literal [0.02] denotes the binary64 number nearest to it. *)
#[warnings="-inexact-float"]
Definition volumeThreshold : float := 0.02%float.
Definition smoothingFactor : float := 0.25%float.

(** [(rms > volumeThreshold) ? rms : 0] *)
Definition effectiveVolume (rms : float) : float :=
  if (volumeThreshold <? rms)%float then rms else 0%float.

(** [smoothedVolumeRef.current * (1 - smoothingFactor)
     + effectiveVolume * smoothingFactor] *)
Definition smooth (smoothed effective : float) : float :=
  (smoothed * (1 - smoothingFactor) + effective * smoothingFactor)%float.

(** What one run of [animateMouth] on the samples [dataArray] stores in
    [smoothedVolumeRef]. *)
Definition frame (dataArray : list Byte.byte) (smoothed : float) : float :=
  smooth smoothed (effectiveVolume (rmsOf dataArray)).

(** Consecutive runs, one per window of samples. *)
Definition runFrames (frames : list (list Byte.byte)) (smoothed : float)
  : float :=
  fold_left (fun v dataArray => frame dataArray v) frames smoothed.

(** A window of samples whose RMS loudness is [c]. *)
Definition heldAt (c : float) (dataArray : list Byte.byte) : Prop :=
  rmsOf dataArray = c.

(** The smoothed loudness [n] frames after [v], the RMS loudness being
    [c] in each of them. *)
Fixpoint held (c : float) (n : nat) (v : float) : float :=
  match n with
  | O => v
  | S k => smooth (held c k v) (effectiveVolume c)
  end.

(** A number that is finite and not negative (either zero included). *)
Definition finiteLoudness (x : float) : Prop :=
  (0 <=? x)%float = true /\ (x <? infinity)%float = true.

(** Every finite binary64 number is an integer multiple of [2^-1074],
    the smallest positive one.  [SFvalue] is that integer for a number
    that is not negative, read off its sign, mantissa and exponent. *)
Definition SFvalue (x : spec_float) : Z :=
  match x with
  | S754_finite false m e => Z.pos m * 2 ^ (e + 1074)
  | _ => 0
  end.

(** Finite and not negative. *)
Definition SFproper (x : spec_float) : bool :=
  match x with
  | S754_zero _ | S754_finite false _ _ => true
  | _ => false
  end.

Definition scaled (x : float) : Z := SFvalue (Prim2SF x).

(** The exact distance between two numbers, in multiples of [2^-1074]. *)
Definition distance (x y : float) : Z := Z.abs (scaled x - scaled y).

(** *** Rounding, on integers

    [rne N n] is [N / 2^n] rounded to the nearest integer, ties to even. *)
Definition rne (N n : Z) : Z :=
  let q := N / 2 ^ n in
  let r := N mod 2 ^ n in
  match 2 * r ?= 2 ^ n with
  | Lt => q
  | Eq => if Z.even q then q else q + 1
  | Gt => q + 1
  end.

(** The number of binary digits of a natural number. *)
Definition digits (N : Z) : Z := if N =? 0 then 0 else Z.log2 N + 1.

(** [roundTo u N] is the binary64 number nearest to [N * 2^(-1074-u)],
    ties to even, as a multiple of [2^-1074]: the number keeps its 53
    leading digits, and no digit below [2^-1074]. *)
Definition roundTo (u N : Z) : Z :=
  let n := Z.max (digits N - 53) u in
  rne N n * 2 ^ (n - u).

(** The first power of two above every binary64 number, [2^1024], as a
    multiple of [2^-1074]. *)
Definition overflow : Z := 2 ^ 2098.

(** The multiples of [2^-1074] that are binary64 numbers. *)
Definition representable (V : Z) : Prop :=
  exists m t, 0 <= m < 2 ^ 53 /\ 0 <= t /\ V = m * 2 ^ t.

(** Line 149 on multiples of [2^-1074]: three quarters of [V] rounded,
    a quarter of [C] rounded, and their sum rounded. *)
Definition smoothGrid (V C : Z) : Z :=
  roundTo 0 (roundTo 2 (3 * V) + roundTo 2 C).

End Binary64.

(** ** Session callbacks *)

(** [message.serverContent?.modelTurn?.parts[0]?.inlineData?.data]: the
    chain short-circuits on an absent [serverContent], [modelTurn], first
    part or [inlineData]; indexing an absent [parts] throws.  [None] is
    the thrown [TypeError], [Some None] is [undefined]. *)
Definition getAudioData (message : LiveServerMessage) : option (option jsString) :=
  match serverContent message with
  | None => Some None
  | Some sc =>
      match modelTurn sc with
      | None => Some None
      | Some turn =>
          match parts turn with
          | None => None
          | Some [] => Some None
          | Some (p :: _) =>
              match inlineData p with
              | None => Some None
              | Some blob => Some (data blob)
              end
          end
      end
  end.

Definition truthyAudio (audioData : option jsString) : bool :=
  match audioData with
  | Some str => truthyString str
  | None => false
  end.

(** The listener installed on every source for its ['ended'] event. *)
Definition onended (id : nat) (s : State) : State :=
  let s1 := set_audioSourcesRef (setDelete id (audioSourcesRef s)) s in
  let newCount := Z.max 0 (activeAudioSources s1 - 1) in
  let s2 := if (newCount =? 0)%Z then stopAnimation s1 else s1 in
  set_activeAudioSources newCount s2.

(** The guard of lines 279-281: the animation loop is started on an
    audio chunk when no frame id is held and there are mouth coordinates. *)
Definition startAnimationIfIdle (mouthCoordinates : option MouthCoordinates)
  (env : MessageEnv) (s : State) : State :=
  match animationFrameIdRef s, mouthCoordinates with
  | None, Some _ => animateMouth mouthCoordinates (waveform env) s
  | _, _ => s
  end.

(** Lines 277-304: schedule one inbound audio chunk. *)
Definition scheduleAudio (mouthCoordinates : option MouthCoordinates)
  (env : MessageEnv) (audioData : option jsString) (s : State)
  : State * Completion :=
  match truthyAudio audioData, outputAudioContextRef s, analyserNodeRef s with
  | true, Some _, Some _ =>
      let s1 := startAnimationIfIdle mouthCoordinates env s in
      let s2 :=
        set_nextStartTimeRef (Rmax (nextStartTimeRef s1) (currentTime env)) s1 in
      match decodeResult env with
      | DecodeError => (s2, Rejected)
      | Decoded duration =>
          let sourceNode :=
            mkSource (List.length (started s2)) (nextStartTimeRef s2) duration in
          let s3 := set_activeAudioSources (activeAudioSources s2 + 1) s2 in
          let s4 := set_started (started s3 ++ [sourceNode]) s3 in
          let s5 := set_nextStartTimeRef (nextStartTimeRef s4 + duration) s4 in
          (set_audioSourcesRef (setAdd sourceNode (audioSourcesRef s5)) s5,
           Fulfilled)
      end
  | _, _, _ => (s, Fulfilled)
  end.

(** Lines 306-312. *)
Definition handleInterrupted (sc : LiveServerContent) (s : State) : State :=
  if interrupted sc then
    let s1 := stopAll s in
    let s2 := set_audioSourcesRef [] s1 in
    let s3 := set_activeAudioSources 0%Z s2 in
    let s4 := set_nextStartTimeRef 0 s3 in
    stopAnimation s4
  else s.

(** [buffer += transcription.text]: an absent text is appended as the
    string ["undefined"]. *)
Definition textOf (t : Transcription) : jsString :=
  match transcriptionText t with
  | Some str => str
  | None => js "undefined"
  end.

(** Lines 314-319. *)
Definition handleTranscriptions (sc : LiveServerContent) (s : State) : State :=
  let s1 :=
    match inputTranscription sc with
    | Some t =>
        set_currentInputTranscriptionRef
          (currentInputTranscriptionRef s ++ textOf t) s
    | None => s
    end in
  match outputTranscription sc with
  | Some t =>
      set_currentOutputTranscriptionRef
        (currentOutputTranscriptionRef s1 ++ textOf t) s1
  | None => s1
  end.

Definition entryIf (who : Speaker) (full : jsString) : list TranscriptEntry :=
  if truthyString full then [mkEntry who full] else [].

(** Lines 320-333. *)
Definition handleTurnComplete (sc : LiveServerContent) (s : State) : State :=
  if turnComplete sc then
    let fullInput := trim (currentInputTranscriptionRef s) in
    let fullOutput := trim (currentOutputTranscriptionRef s) in
    let newEntries := entryIf user fullInput ++ entryIf model fullOutput in
    let s1 := set_transcript (transcript s ++ newEntries) s in
    let s2 := set_currentInputTranscriptionRef [] s1 in
    set_currentOutputTranscriptionRef [] s2
  else s.

Definition onmessage (mouthCoordinates : option MouthCoordinates)
  (env : MessageEnv) (message : LiveServerMessage) (s : State)
  : State * Completion :=
  match getAudioData message with
  | None => (s, Rejected)
  | Some audioData =>
      match scheduleAudio mouthCoordinates env audioData s with
      | (s1, Rejected) => (s1, Rejected)
      | (s1, Fulfilled) =>
          match serverContent message with
          | Some sc =>
              (handleTurnComplete sc
                 (handleTranscriptions sc (handleInterrupted sc s1)),
               Fulfilled)
          | None => (s1, Fulfilled)
          end
      end
  end.

Definition onerror (s : State) : State :=
  stopAudioProcessing (setStatus error s).

Definition onclose (s : State) : State :=
  stopAudioProcessing s.

(** [onopen]: the two non-null assertions on the input context throw
    when it is absent. *)
Definition onopen (source : MediaStreamAudioSourceNode)
  (scriptProcessor : ScriptProcessorNode) (s : State) : State * Completion :=
  let s1 := setStatus live s in
  match inputAudioContextRef s1 with
  | Some _ =>
      (set_scriptProcessorRef (Some scriptProcessor)
         (set_mediaStreamSourceRef (Some source) s1), Fulfilled)
  | None => (s1, Rejected)
  end.

(** The cleanup effect run when the component unmounts. *)
Definition cleanup (s : State) : State :=
  stopAudioProcessing (stopAnimation (closeSession s)).

(** ** Starting a conversation *)

(** Outcomes of the platform calls made by [startConversation]:
    [getUserMedia] resolves with a stream or rejects ([None]); an
    [AudioContext] is constructed for a sample rate or the constructor
    throws ([None]); the [GoogleGenAI] constructor may throw ([false]);
    [ai.live.connect] returns the session promise. *)
Record StartEnv : Type := mkStartEnv {
  getUserMedia : option MediaStream;
  newAudioContext : Z -> option AudioContext;
  newGoogleGenAI : bool;
  liveConnect : LiveSession
}.

Definition startConversation (env : StartEnv) (s : State) : State :=
  let s1 := set_transcript [] (setStatus connecting s) in
  match getUserMedia env with
  | None => setStatus error s1
  | Some stream =>
      let s2 := set_audioStreamRef (Some stream) s1 in
      match newAudioContext env INPUT_SAMPLE_RATE with
      | None => setStatus error s2
      | Some inCtx =>
          let s3 := set_inputAudioContextRef (Some inCtx) s2 in
          match newAudioContext env OUTPUT_SAMPLE_RATE with
          | None => setStatus error s3
          | Some outCtx =>
              let s4 := set_outputAudioContextRef (Some outCtx) s3 in
              let s5 := set_analyserNodeRef (Some (mkAnalyser ANALYSER_FFT_SIZE)) s4 in
              let s6 := set_nextStartTimeRef 0 s5 in
              if newGoogleGenAI env
              then set_sessionPromiseRef (Some (liveConnect env)) s6
              else setStatus error s6
          end
      end
  end.

(** ** Events of a session *)

Inductive Event : Type :=
| EvMessage (env : MessageEnv) (message : LiveServerMessage)
| EvEnded (id : nat)
| EvFrame (id : N) (wave : nat -> Byte.byte)
| EvError
| EvClose.

Definition step (mouthCoordinates : option MouthCoordinates) (s : State)
  (e : Event) : State :=
  match e with
  | EvMessage env message => fst (onmessage mouthCoordinates env message s)
  | EvEnded id => onended id s
  | EvFrame id wave => onAnimationFrame mouthCoordinates id wave s
  | EvError => onerror s
  | EvClose => onclose s
  end.

Definition run (mouthCoordinates : option MouthCoordinates)
  (events : list Event) (s : State) : State :=
  fold_left (step mouthCoordinates) events s.

(** The chunks handed to [start], in order, by a run of messages. *)
Definition runMessages (mouthCoordinates : option MouthCoordinates)
  (msgs : list (MessageEnv * LiveServerMessage)) (s : State) : State :=
  fold_left (fun st em => fst (onmessage mouthCoordinates (fst em) (snd em) st))
    msgs s.

(** ** The App component: mouth localisation *)

Module App.

#[warnings="-register-all"]
Inductive Json : Type :=
| JNull
| JBool (b : bool)
| JNumber (q : Q)
| JString (str : string)
| JArray (items : list Json)
| JObject (fields : list (string * Json)).

(** Reading a property: [None] is the [TypeError] thrown on [null],
    [Some None] is [undefined].  Of duplicate keys [JSON.parse] keeps the
    last. *)
Fixpoint lookupLast (key : string) (fields : list (string * Json))
  : option Json :=
  match fields with
  | [] => None
  | (k, v) :: rest =>
      match lookupLast key rest with
      | Some w => Some w
      | None => if String.eqb k key then Some v else None
      end
  end.

Definition getProp (key : string) (v : Json) : option (option Json) :=
  match v with
  | JNull => None
  | JObject fields => Some (lookupLast key fields)
  | _ => Some None
  end.

Definition truthy (v : option Json) : bool :=
  match v with
  | None => false
  | Some JNull => false
  | Some (JBool b) => b
  | Some (JNumber q) => negb (Qeq_bool q 0)
  | Some (JString str) => negb (String.eqb str "")
  | Some (JArray _) => true
  | Some (JObject _) => true
  end.

(** [coords.x && coords.y && coords.width && coords.height], read for
    truthiness; [None] when a property access throws. *)
Definition hasAllCoordinates (coords : Json) : option bool :=
  match getProp "x" coords with
  | None => None
  | Some x =>
      if truthy x then
        match getProp "y" coords with
        | None => None
        | Some y =>
            if truthy y then
              match getProp "width" coords with
              | None => None
              | Some w =>
                  if truthy w then
                    match getProp "height" coords with
                    | None => None
                    | Some h => Some (truthy h)
                    end
                  else Some false
              end
            else Some false
        end
      else Some false
  end.

(** What [response.text.trim()] followed by [JSON.parse] gives: a thrown
    [TypeError] on an absent text, a thrown [SyntaxError] on text that is
    not JSON, or the parsed value. *)
Inductive Reply : Type :=
| ReplyNoText
| ReplyUnparsable
| ReplyJson (value : Json).

Inductive AppScreen : Type := upload | generating | conversation.

Record AppState : Type := mkApp {
  appState : AppScreen;
  photoUrl : option string;
  personalityPrompt : option string;
  voiceName : string;
  mouthCoordinates : option Json;
  appError : option string
}.

Definition initialApp : AppState :=
  mkApp upload None None "Zephyr" None None.

Definition setAppState (v : AppScreen) (a : AppState) : AppState :=
  mkApp v (photoUrl a) (personalityPrompt a) (voiceName a)
    (mouthCoordinates a) (appError a).

Definition setPhotoUrl (v : option string) (a : AppState) : AppState :=
  mkApp (appState a) v (personalityPrompt a) (voiceName a)
    (mouthCoordinates a) (appError a).

Definition setPersonalityPrompt (v : option string) (a : AppState) : AppState :=
  mkApp (appState a) (photoUrl a) v (voiceName a)
    (mouthCoordinates a) (appError a).

Definition setVoiceName (v : string) (a : AppState) : AppState :=
  mkApp (appState a) (photoUrl a) (personalityPrompt a) v
    (mouthCoordinates a) (appError a).

Definition setMouthCoordinates (v : option Json) (a : AppState) : AppState :=
  mkApp (appState a) (photoUrl a) (personalityPrompt a) (voiceName a)
    v (appError a).

Definition setError (v : option string) (a : AppState) : AppState :=
  mkApp (appState a) (photoUrl a) (personalityPrompt a) (voiceName a)
    (mouthCoordinates a) v.

(** Step 2 of [handleStartJourney]: the inner [try]/[catch] around the
    mouth-coordinates response. *)
Definition detectMouth (reply : Reply) (a : AppState) : AppState :=
  match reply with
  | ReplyJson coords =>
      match hasAllCoordinates coords with
      | Some true => setMouthCoordinates (Some coords) a
      | Some false => a
      | None => setMouthCoordinates None a
      end
  | ReplyNoText | ReplyUnparsable => setMouthCoordinates None a
  end.

(** Step 3: the voice chosen from the gender response. *)
Definition detectVoice (reply : Reply) (a : AppState) : AppState :=
  match reply with
  | ReplyJson genderObj =>
      match getProp "gender" genderObj with
      | Some (Some (JString "female")) => setVoiceName "Kore" a
      | Some _ => setVoiceName "Zephyr" a
      | None => setVoiceName "Zephyr" a
      end
  | ReplyNoText | ReplyUnparsable => setVoiceName "Zephyr" a
  end.

(** Outcomes of the calls made by [handleStartJourney]; [None] is a
    rejected promise, caught by the outer [catch]. *)
Record JourneyEnv : Type := mkJourney {
  photoObjectUrl : option string;
  personaText : option (option string);
  mouthReply : option Reply;
  hasMediaFile : bool;
  genderReply : option Reply
}.

Definition failJourney (a : AppState) : AppState :=
  setAppState upload
    (setError
       (Some "Could not generate a persona. Please check your API key and try again."%string)
       a).

Definition handleStartJourney (env : JourneyEnv) (a : AppState) : AppState :=
  let a1 := setError None (setAppState generating a) in
  match photoObjectUrl env with
  | None => failJourney a1
  | Some url =>
      let a2 := setPhotoUrl (Some url) a1 in
      match personaText env with
      | None => failJourney a2
      | Some generatedPrompt =>
          let a3 := setPersonalityPrompt generatedPrompt a2 in
          match mouthReply env with
          | None => failJourney a3
          | Some reply =>
              let a4 := detectMouth reply a3 in
              if hasMediaFile env then
                setAppState conversation (setVoiceName "Zephyr" a4)
              else
                match genderReply env with
                | None => failJourney a4
                | Some g => setAppState conversation (detectVoice g a4)
                end
          end
      end
  end.

Definition handleEndConversation (a : AppState) : AppState :=
  setMouthCoordinates None
    (setError None (setPersonalityPrompt None (setPhotoUrl None (setAppState upload a)))).

End App.

(** ** Notions used by the statements *)

(** A message without the [interrupted] flag. *)
Definition uninterrupted (message : LiveServerMessage) : Prop :=
  match serverContent message with
  | Some sc => interrupted sc = false
  | None => True
  end.

(** A decode result whose buffer has a duration that is not negative. *)
Definition soundDecode (env : MessageEnv) : Prop :=
  match decodeResult env with
  | Decoded duration => 0 <= duration
  | DecodeError => True
  end.

Fixpoint nonDecreasing (l : list R) : Prop :=
  match l with
  | a :: (b :: _) as rest => a <= b /\ nonDecreasing rest
  | _ => True
  end.

(** Every source starts no earlier than [t], and no earlier than the
    computed end of the source before it. *)
Fixpoint scheduledAfter (t : R) (l : list AudioBufferSourceNode) : Prop :=
  match l with
  | [] => True
  | node :: rest =>
      t <= startTime node
      /\ scheduledAfter (startTime node + bufferDuration node) rest
  end.

(** What the playback scheduler owns. *)
Definition playback (s : State)
  : R * list AudioBufferSourceNode * list AudioBufferSourceNode * Z * list nat :=
  (nextStartTimeRef s, started s, audioSourcesRef s, activeAudioSources s,
   stopped s).


(** What the transcript accumulator owns. *)
Definition transcripts (s : State)
  : list TranscriptEntry * jsString * jsString :=
  (transcript s, currentInputTranscriptionRef s,
   currentOutputTranscriptionRef s).

(** The fragments a message adds to the two running buffers. *)
Definition inputFragment (message : LiveServerMessage) : jsString :=
  match serverContent message with
  | Some sc =>
      match inputTranscription sc with
      | Some t => textOf t
      | None => []
      end
  | None => []
  end.

Definition outputFragment (message : LiveServerMessage) : jsString :=
  match serverContent message with
  | Some sc =>
      match outputTranscription sc with
      | Some t => textOf t
      | None => []
      end
  | None => []
  end.

(** A message without the [turnComplete] flag. *)
Definition midTurn (message : LiveServerMessage) : Prop :=
  match serverContent message with
  | Some sc => turnComplete sc = false
  | None => True
  end.

(** A message whose handler is not cut short by an exception: reading
    the audio payload does not throw and the payload decodes. *)
Definition wellFormed (env : MessageEnv) (message : LiveServerMessage) : Prop :=
  getAudioData message <> None /\ decodeResult env <> DecodeError.

(** ** A concrete session, used to exercise the statements *)

Definition grantedEnv : StartEnv :=
  mkStartEnv (Some 7%nat) (fun rate => Some (mkContext rate running)) true 1%nat.

(** A mounted view: a 400 x 400 canvas showing a 400 x 400 photo. *)
Definition mountedState : State :=
  onImageLoad (mkImage 400 400) (Some 400)
    (set_canvasRef (Some (mkCanvas 300 150 true [])) initialState).

(** The view once the session has announced that it is open. *)
Definition liveState : State :=
  fst (onopen 2%nat 3%nat (startConversation grantedEnv mountedState)).

Definition serverMessage (audio : option string) (isInterrupted : bool)
  (input output : option string) (isTurnComplete : bool) : LiveServerMessage :=
  mkMessage
    (Some (mkServerContent
             (option_map
                (fun payload =>
                   mkContent (Some [mkPart (Some (mkBlob (Some (js payload))))]))
                audio)
             isInterrupted
             (option_map (fun t => mkTranscription (Some (js t))) input)
             (option_map (fun t => mkTranscription (Some (js t))) output)
             isTurnComplete)).

(** A message that carries one audio chunk and nothing else. *)
Definition chunkMessage : LiveServerMessage :=
  serverMessage (Some "UklGRg=="%string) false None None false.

Definition silence : nat -> Byte.byte := fun _ => Byte.x80.

(** Full-scale samples: every byte is 0. *)
Definition fullScale : nat -> Byte.byte := fun _ => Byte.x00.

(** The environment of a message received at clock time [t] whose chunk
    decodes to a buffer of duration [d]. *)
Definition envAt (t d : R) : MessageEnv := mkEnv t (Decoded d) silence.

(** The same, with a payload that fails to decode. *)
Definition envBroken (t : R) : MessageEnv := mkEnv t DecodeError silence.

Definition someMouth : MouthCoordinates := mkMouth 40 60 20 10.

(** A live session with one chunk of duration 2 scheduled at clock 0. *)
Definition speakingState : State :=
  fst (onmessage (Some someMouth) (envAt 0 2) chunkMessage liveState).

(** The server's interruption signal. *)
Definition interruption : LiveServerMessage :=
  serverMessage None true None None false.

(** An interruption that also carries an audio payload (one that is not
    valid base64). *)
Definition interruptedWithAudio : LiveServerMessage :=
  serverMessage (Some "UklGRg="%string) true None None false.

(** A turn-complete message with the last output fragment. *)
Definition turnCompleted : LiveServerMessage :=
  serverMessage None false None (Some " day. "%string) true.

(** The same, also carrying an audio payload (not valid base64). *)
Definition turnCompletedWithAudio : LiveServerMessage :=
  serverMessage (Some "UklGRg="%string) false None (Some " day. "%string) true.

(** Fragments of a turn. *)
Definition heard (fragment : string) : LiveServerMessage :=
  serverMessage None false (Some fragment) None false.

Definition said (fragment : string) : LiveServerMessage :=
  serverMessage None false None (Some fragment) false.

(** A turn under way: the user was heard, the model has begun to answer. *)
Definition midTurnState : State :=
  runMessages (Some someMouth)
    [(envAt 0 0, heard "Hello "%string); (envAt 0 0, said " Good"%string)]
    liveState.

(** The microphone is granted but no [AudioContext] can be constructed. *)
Definition noContextEnv : StartEnv :=
  mkStartEnv (Some 7%nat) (fun _ => None) true 1%nat.

(** The microphone permission is denied. *)
Definition deniedEnv : StartEnv :=
  mkStartEnv None (fun rate => Some (mkContext rate running)) true 1%nat.

(** Two animation frames after the first chunk: one in which the output
    is at full scale, then one in which it is silent. *)
Definition loudFrame : State :=
  onAnimationFrame (Some someMouth) 1%N fullScale speakingState.

Definition quietFrame : State :=
  onAnimationFrame (Some someMouth) 2%N silence loudFrame.

(** The canvas of the mounted view, showing [frame]. *)
Definition canvasShowing (frame : list DrawCmd) : Canvas :=
  mkCanvas 400 (400 * (400 / 400)) true frame.

(** Consecutive runs of the animation callback, one per waveform. *)
Definition runFrames (mouthCoordinates : option MouthCoordinates)
  (waves : list (nat -> Byte.byte)) (s : State) : State :=
  fold_left (fun st wave => animateMouth mouthCoordinates wave st) waves s.

(** A waveform whose RMS loudness over the analyser's window is [c]. *)
Definition heldAt (analyser : AnalyserNode) (c : R) (wave : nat -> Byte.byte)
  : Prop :=
  rmsOf (getByteTimeDomainData analyser wave) = c.

(** The state with everything the animator owns erased: two states that
    agree on it differ at most in frame ids, pending callbacks, the canvas
    and the smoothed loudness. *)
Definition forgetAnimation (s : State) : State :=
  set_animationFrameIdRef None
    (set_canvasRef None
       (set_smoothedVolumeRef 0
          (set_pendingFrames [] (set_rafCounter 0%N s)))).

(** The canvas shows the unmodified portrait: the image as first drawn,
    or as redrawn by [stopAnimation]. *)
Definition showsPortrait (s : State) : Prop :=
  match canvasRef s with
  | Some canvas =>
      drawn canvas = [DrawImage 0 0 (canvasWidth canvas) (canvasHeight canvas)]
      \/ drawn canvas = staticFrame canvas
  | None => True
  end.

(** No animation loop: no frame id is held and no callback is pending. *)
Definition animationIdle (s : State) : Prop :=
  animationFrameIdRef s = None /\ pendingFrames s = [].

(** The animator at rest on the portrait. *)
Definition idleWithPortrait (s : State) : Prop :=
  animationIdle s /\ showsPortrait s.

(** A function that leaves the animator's fields alone. *)
Definition keepsAnimation (f : State -> State) : Prop :=
  forall s,
    animationFrameIdRef (f s) = animationFrameIdRef s
    /\ pendingFrames (f s) = pendingFrames s
    /\ canvasRef (f s) = canvasRef s
    /\ imageRef (f s) = imageRef s
    /\ smoothedVolumeRef (f s) = smoothedVolumeRef s.

(** The four keys of a mouth region. *)
Definition coordinateKeys : list string :=
  ["x"; "y"; "width"; "height"]%string.

(** An object one of whose coordinates is absent, 0 or otherwise falsy. *)
Definition hasFalsyCoordinate (fields : list (string * App.Json)) : bool :=
  existsb (fun key => negb (App.truthy (App.lookupLast key fields)))
    coordinateKeys.

Definition withMouthReply (reply : App.Reply) (env : App.JourneyEnv)
  : App.JourneyEnv :=
  App.mkJourney (App.photoObjectUrl env) (App.personaText env) (Some reply)
    (App.hasMediaFile env) (App.genderReply env).

(** A journey in which the mouth is reported at the left edge ([x] is 0). *)
Definition leftEdgeFields : list (string * App.Json) :=
  [("x"%string, App.JNumber (0 # 1)); ("y"%string, App.JNumber (62 # 1));
   ("width"%string, App.JNumber (20 # 1)); ("height"%string, App.JNumber (8 # 1))].

Definition leftEdgeJourney : App.JourneyEnv :=
  App.mkJourney (Some "blob:photo"%string)
    (Some (Some "You are a schoolteacher."%string))
    (Some (App.ReplyJson (App.JObject leftEdgeFields)))
    true None.

(** A region found for an earlier photo. *)
Definition earlierRegion : App.Json :=
  App.JObject
    [("x"%string, App.JNumber (40 # 1)); ("y"%string, App.JNumber (60 # 1));
     ("width"%string, App.JNumber (20 # 1)); ("height"%string, App.JNumber (10 # 1))].

(** ** The whole life of the view *)

(** Everything that can run on the view: the session events, a start,
    the session's open callback, the End button, the unmount cleanup and
    the load of the photo. *)
Inductive Action : Type :=
| ActEvent (e : Event)
| ActStart (env : StartEnv)
| ActOpen (source : MediaStreamAudioSourceNode)
          (scriptProcessor : ScriptProcessorNode)
| ActEnd
| ActUnmount
| ActImageLoad (img : Image) (container : option R).

Definition act (mouthCoordinates : option MouthCoordinates) (s : State)
  (a : Action) : State :=
  match a with
  | ActEvent e => step mouthCoordinates s e
  | ActStart env => startConversation env s
  | ActOpen source scriptProcessor => fst (onopen source scriptProcessor s)
  | ActEnd => endConversation s
  | ActUnmount => cleanup s
  | ActImageLoad img container => onImageLoad img container s
  end.

Definition runActions (mouthCoordinates : option MouthCoordinates)
  (actions : list Action) (s : State) : State :=
  fold_left (act mouthCoordinates) actions s.

(** At most one animation callback is pending, and it is the one whose id
    the ref holds. *)
Definition singleLoop (s : State) : Prop :=
  pendingFrames s = []
  \/ exists id,
       pendingFrames s = [id]
       /\ animationFrameIdRef s = Some id
       /\ id <> 0%N.

(** The active-source count is between 0 and the size of the active set,
    whose sources are distinct and were all handed to [start]. *)
Definition countedSources (s : State) : Prop :=
  (0 <= activeAudioSources s <= Z.of_nat (List.length (audioSourcesRef s)))%Z
  /\ NoDup (map nodeId (audioSourcesRef s))
  /\ Forall (fun node => (nodeId node < List.length (started s))%nat)
       (audioSourcesRef s).

(** A context is absent or closed. *)
Definition contextReleased (c : option AudioContext) : Prop :=
  match c with
  | Some ctx => contextState ctx = closed
  | None => True
  end.

(** A transcript entry whose text is not empty and has no white space at
    either end. *)
Definition trimmedEntry (e : TranscriptEntry) : Prop :=
  text e <> [] /\ trim (text e) = text e.

(** Smoothed loudness within the normalised range. *)
Definition loudnessInRange (s : State) : Prop :=
  0 <= smoothedVolumeRef s <= 1
  /\ match analyserNodeRef s with
     | Some analyser => fftSize analyser <> 0%nat
     | None => True
     end.

(** ** What the App component renders *)

Inductive Rendered : Type :=
| RenderConversation (photoUrl personalityPrompt voiceName : string)
                     (mouthCoordinates : option App.Json)
| RenderLanding (isLoading : bool) (error : option string)
| RenderNothing.

(** A [string | null] that is truthy: present and not empty. *)
Definition truthyText (t : option string) : option string :=
  match t with
  | Some str => if String.eqb str "" then None else Some str
  | None => None
  end.

(** [renderContent]: in the conversation state without a photo URL or a
    persona it falls back to the upload state and renders nothing. *)
Definition renderContent (a : App.AppState) : Rendered * App.AppState :=
  match App.appState a with
  | App.conversation =>
      match truthyText (App.photoUrl a), truthyText (App.personalityPrompt a) with
      | Some url, Some prompt =>
          (RenderConversation url prompt (App.voiceName a)
             (App.mouthCoordinates a), a)
      | _, _ => (RenderNothing, App.setAppState App.upload a)
      end
  | App.generating => (RenderLanding true (App.appError a), a)
  | App.upload => (RenderLanding false (App.appError a), a)
  end.

(** None of the remote calls of a journey is rejected. *)
Definition journeyFulfils (env : App.JourneyEnv) : bool :=
  match App.photoObjectUrl env, App.personaText env, App.mouthReply env with
  | Some _, Some _, Some _ =>
      if App.hasMediaFile env then true
      else match App.genderReply env with Some _ => true | None => false end
  | _, _, _ => false
  end.

(** The gender response parses to an object whose [gender] is the string
    ["female"]. *)
Definition saysFemale (reply : option App.Reply) : bool :=
  match reply with
  | Some (App.ReplyJson genderObj) =>
      match App.getProp "gender" genderObj with
      | Some (Some (App.JString g)) => String.eqb g "female"
      | _ => false
      end
  | _ => false
  end.

Definition journeyError : string :=
  "Could not generate a persona. Please check your API key and try again.".

(** ** The landing page and its two upload widgets *)

Record File : Type := mkFile {
  fileName : string;
  fileType : string
}.

(** State of one [FileUpload]. *)
Record FileUploadState : Type := mkUpload {
  file : option File;
  preview : option string
}.

(** [handleFileChange]: [selected] is [event.target.files?.[0] || null];
    returns the widget's state and, when the parent's [onFileChange] is
    called, its argument. *)
Definition handleFileChange (createObjectURL : File -> string)
  (selected : option File) (w : FileUploadState)
  : FileUploadState * option (option File) :=
  match selected with
  | Some selectedFile =>
      (mkUpload (Some selectedFile) (Some (createObjectURL selectedFile)),
       Some (Some selectedFile))
  | None => (w, None)
  end.

Definition handleClear (w : FileUploadState)
  : FileUploadState * option (option File) :=
  (mkUpload None None, Some None).

(** State of the [LandingPage] with its photo and media widgets. *)
Record LandingState : Type := mkLanding {
  photoFile : option File;
  mediaFile : option File;
  photoUpload : FileUploadState;
  mediaUpload : FileUploadState
}.

Definition initialLanding : LandingState :=
  mkLanding None None (mkUpload None None) (mkUpload None None).

Inductive LandingEvent : Type :=
| PhotoChosen (selected : option File)
| PhotoCleared
| MediaChosen (selected : option File)
| MediaCleared.

Definition notify (current : option File) (call : option (option File))
  : option File :=
  match call with
  | Some v => v
  | None => current
  end.

Definition landingStep (createObjectURL : File -> string) (st : LandingState)
  (e : LandingEvent) : LandingState :=
  match e with
  | PhotoChosen selected =>
      let '(w, call) := handleFileChange createObjectURL selected (photoUpload st) in
      mkLanding (notify (photoFile st) call) (mediaFile st) w (mediaUpload st)
  | PhotoCleared =>
      let '(w, call) := handleClear (photoUpload st) in
      mkLanding (notify (photoFile st) call) (mediaFile st) w (mediaUpload st)
  | MediaChosen selected =>
      let '(w, call) := handleFileChange createObjectURL selected (mediaUpload st) in
      mkLanding (photoFile st) (notify (mediaFile st) call) (photoUpload st) w
  | MediaCleared =>
      let '(w, call) := handleClear (mediaUpload st) in
      mkLanding (photoFile st) (notify (mediaFile st) call) (photoUpload st) w
  end.

Definition runLanding (createObjectURL : File -> string)
  (events : list LandingEvent) (st : LandingState) : LandingState :=
  fold_left (landingStep createObjectURL) events st.

(** [handleSubmit]: the arguments of [onStart], when it is called. *)
Definition handleSubmit (st : LandingState) : option (File * option File) :=
  match photoFile st with
  | Some photo => Some (photo, mediaFile st)
  | None => None
  end.

(** A click on the button, which is disabled when [!photoFile || isLoading]. *)
Definition clickBegin (isLoading : bool) (st : LandingState)
  : option (File * option File) :=
  match photoFile st with
  | None => None
  | Some _ => if isLoading then None else handleSubmit st
  end.

(** The widget and the page agree on the file, and a preview is shown
    exactly when there is one. *)
Definition uploadInSync (w : FileUploadState) (parent : option File) : Prop :=
  file w = parent
  /\ (preview w = None <-> file w = None).

(** ** Reading the photo as base64 *)

(** [String.prototype.split] on a one-character separator. *)
Fixpoint splitOn (sep : N) (s : jsString) : list jsString :=
  match s with
  | [] => [[]]
  | c :: rest =>
      if (c =? sep)%N then [] :: splitOn sep rest
      else match splitOn sep rest with
           | seg :: segs => (c :: seg) :: segs
           | [] => [[c]]
           end
  end.

Definition comma : N := 44.

(** What the [FileReader] ends with: the data URL, or an error (its
    [result] is then [null]). *)
Inductive ReadOutcome : Type :=
| ReadDone (result : jsString)
| ReadFailed.

(** [blobToBase64]: the value the promise resolves with, [None] when it
    rejects. *)
Definition blobToBase64 (outcome : ReadOutcome) : option jsString :=
  match outcome with
  | ReadFailed => None
  | ReadDone result =>
      match nth_error (splitOn comma result) 1 with
      | Some base64String =>
          if truthyString base64String then Some base64String else None
      | None => None
      end
  end.

(** A journey in which the region is found and the gender call is then
    rejected. *)
Definition genderFailsJourney : App.JourneyEnv :=
  App.mkJourney (Some "blob:first"%string)
    (Some (Some "You are a sailor."%string))
    (Some (App.ReplyJson earlierRegion)) false None.

(** A journey whose persona response has no text. *)
Definition noPersonaJourney : App.JourneyEnv :=
  App.mkJourney (Some "blob:photo"%string) (Some None)
    (Some App.ReplyUnparsable) true None.

Definition portraitFile : File := mkFile "grandmother.png" "image/png".
Definition voiceFile : File := mkFile "voice.mp3" "audio/mpeg".

Definition blobUrl (f : File) : string := ("blob:" ++ fileName f)%string.

(** A short life of the view: a chunk arrives, a frame is drawn, the user
    ends the conversation. *)
Definition shortLife : list Action :=
  [ActEvent (EvMessage (envAt 0 2) chunkMessage);
   ActEvent (EvFrame 1 fullScale);
   ActEnd].

(** A chunk is scheduled, one frame is drawn and the chunk ends. *)
Definition oneChunk : list Event :=
  [EvMessage (envAt 0 2) chunkMessage; EvFrame 1 fullScale; EvEnded 0].

(** The same message with the [interrupted] flag taken off. *)
Definition withoutInterruption (message : LiveServerMessage) : LiveServerMessage :=
  match serverContent message with
  | Some sc =>
      mkMessage
        (Some (mkServerContent (modelTurn sc) false (inputTranscription sc)
                 (outputTranscription sc) (turnComplete sc)))
  | None => message
  end.

(** The audio branch of the handler is entered. *)
Definition audioBranchTaken (message : LiveServerMessage) (s : State) : bool :=
  match getAudioData message, outputAudioContextRef s, analyserNodeRef s with
  | Some audioData, Some _, Some _ => truthyAudio audioData
  | _, _, _ => false
  end.
(** ** Proofs: field bookkeeping *)

Lemma animateMouth_playback mouth wave (s : State) :
  playback (animateMouth mouth wave s) = playback s.
Proof.
  unfold animateMouth.
  destruct (analyserNodeRef s), (canvasRef s) as [canvas|], (imageRef s), mouth;
    try reflexivity.
  destruct (hasContext2d canvas); reflexivity.
Qed.

Lemma cancelAnimationRef_playback (s : State) :
  playback (cancelAnimationRef s) = playback s.
Proof.
  unfold cancelAnimationRef.
  destruct (truthyFrameId (animationFrameIdRef s)); [|reflexivity].
  destruct (animationFrameIdRef s); reflexivity.
Qed.

Lemma stopAnimation_playback (s : State) :
  playback (stopAnimation s) = playback s.
Proof.
  unfold stopAnimation.
  rewrite <- (cancelAnimationRef_playback s).
  destruct (canvasRef (cancelAnimationRef s)) as [canvas|]; [|reflexivity].
  destruct (imageRef (cancelAnimationRef s)); [|reflexivity].
  destruct (hasContext2d canvas); reflexivity.
Qed.

Lemma handleTranscriptions_playback sc (s : State) :
  playback (handleTranscriptions sc s) = playback s.
Proof.
  unfold handleTranscriptions.
  destruct (inputTranscription sc), (outputTranscription sc); reflexivity.
Qed.

Lemma handleTurnComplete_playback sc (s : State) :
  playback (handleTurnComplete sc s) = playback s.
Proof.
  unfold handleTurnComplete. destruct (turnComplete sc); reflexivity.
Qed.

Lemma startAnimationIfIdle_playback mouth env (s : State) :
  playback (startAnimationIfIdle mouth env s) = playback s.
Proof.
  unfold startAnimationIfIdle.
  destruct (animationFrameIdRef s), mouth; try reflexivity.
  apply animateMouth_playback.
Qed.

Lemma playback_next (s t : State) :
  playback s = playback t -> nextStartTimeRef s = nextStartTimeRef t.
Proof. unfold playback. intros H. now inversion H. Qed.

Lemma playback_started (s t : State) :
  playback s = playback t -> started s = started t.
Proof. unfold playback. intros H. now inversion H. Qed.

Lemma playback_sources (s t : State) :
  playback s = playback t -> audioSourcesRef s = audioSourcesRef t.
Proof. unfold playback. intros H. now inversion H. Qed.

Lemma playback_count (s t : State) :
  playback s = playback t -> activeAudioSources s = activeAudioSources t.
Proof. unfold playback. intros H. now inversion H. Qed.

Lemma playback_stopped (s t : State) :
  playback s = playback t -> stopped s = stopped t.
Proof. unfold playback. intros H. now inversion H. Qed.

(** ** The playback scheduler *)

(** What [scheduleAudio] does when its guard holds and the chunk decodes. *)
Lemma scheduleAudio_decoded mouth env audioData (s : State) d :
  truthyAudio audioData = true ->
  outputAudioContextRef s <> None ->
  analyserNodeRef s <> None ->
  decodeResult env = Decoded d ->
  let node :=
    mkSource (List.length (started s))
             (Rmax (nextStartTimeRef s) (currentTime env)) d in
  let s' := fst (scheduleAudio mouth env audioData s) in
  snd (scheduleAudio mouth env audioData s) = Fulfilled
  /\ started s' = started s ++ [node]
  /\ nextStartTimeRef s' = startTime node + d
  /\ activeAudioSources s' = (activeAudioSources s + 1)%Z
  /\ audioSourcesRef s' = setAdd node (audioSourcesRef s)
  /\ stopped s' = stopped s.
Proof.
  intros Ha Ho Hn Hd. unfold scheduleAudio. rewrite Ha, Hd.
  destruct (outputAudioContextRef s) eqn:Eo; [|congruence].
  destruct (analyserNodeRef s) eqn:En; [|congruence].
  pose proof (startAnimationIfIdle_playback mouth env s) as Hp.
  revert Hp. generalize (startAnimationIfIdle mouth env s) as s0.
  intros s0 Hp.
  rewrite <- (playback_next _ _ Hp), <- (playback_started _ _ Hp),
    <- (playback_sources _ _ Hp), <- (playback_count _ _ Hp),
    <- (playback_stopped _ _ Hp).
  clear Hp. destruct s0. cbn. repeat split.
Qed.

(** The three ways [scheduleAudio] can end: guard not met, decode error,
    chunk scheduled. *)
Lemma scheduleAudio_cases mouth env audioData (s : State) :
  let r := scheduleAudio mouth env audioData s in
  (r = (s, Fulfilled))
  \/ (snd r = Rejected
      /\ decodeResult env = DecodeError
      /\ started (fst r) = started s
      /\ nextStartTimeRef (fst r) = Rmax (nextStartTimeRef s) (currentTime env)
      /\ audioSourcesRef (fst r) = audioSourcesRef s
      /\ activeAudioSources (fst r) = activeAudioSources s
      /\ stopped (fst r) = stopped s)
  \/ (exists d,
        decodeResult env = Decoded d
        /\ snd r = Fulfilled
        /\ started (fst r)
           = started s
               ++ [mkSource (List.length (started s))
                     (Rmax (nextStartTimeRef s) (currentTime env)) d]
        /\ nextStartTimeRef (fst r)
           = Rmax (nextStartTimeRef s) (currentTime env) + d).
Proof.
  intros r. subst r.
  destruct (truthyAudio audioData) eqn:Ha.
  2:{ left. unfold scheduleAudio. rewrite Ha. reflexivity. }
  destruct (outputAudioContextRef s) eqn:Eo.
  2:{ left. unfold scheduleAudio. rewrite Ha, Eo. reflexivity. }
  destruct (analyserNodeRef s) eqn:En.
  2:{ left. unfold scheduleAudio. rewrite Ha, Eo, En. reflexivity. }
  destruct (decodeResult env) as [d|] eqn:Hd.
  - right; right. exists d.
    assert (Ho : outputAudioContextRef s <> None) by congruence.
    assert (Hn : analyserNodeRef s <> None) by congruence.
    destruct (scheduleAudio_decoded mouth env audioData s d Ha Ho Hn Hd)
      as (Hc & Hs & Hnx & _).
    repeat split; assumption.
  - right; left. unfold scheduleAudio. rewrite Ha, Eo, En, Hd.
    pose proof (startAnimationIfIdle_playback mouth env s) as Hp.
    revert Hp. generalize (startAnimationIfIdle mouth env s) as s0.
    intros s0 Hp.
    rewrite <- (playback_next _ _ Hp), <- (playback_started _ _ Hp),
      <- (playback_sources _ _ Hp), <- (playback_count _ _ Hp),
      <- (playback_stopped _ _ Hp).
    clear Hp. destruct s0. cbn. repeat split.
Qed.

Lemma handleInterrupted_off sc (s : State) :
  interrupted sc = false -> handleInterrupted sc s = s.
Proof. intros H. unfold handleInterrupted. now rewrite H. Qed.

(** The handlers after the audio branch leave the scheduler alone when
    the message is not an interruption. *)
Lemma dispatch_playback sc (s : State) :
  interrupted sc = false ->
  playback (handleTurnComplete sc (handleTranscriptions sc (handleInterrupted sc s)))
  = playback s.
Proof.
  intros H. rewrite handleTurnComplete_playback, handleTranscriptions_playback.
  now rewrite handleInterrupted_off.
Qed.

Lemma handleInterrupted_started sc (s : State) :
  started (handleInterrupted sc s) = started s.
Proof.
  unfold handleInterrupted. destruct (interrupted sc); [|reflexivity].
  now rewrite (playback_started _ _ (stopAnimation_playback _)).
Qed.

Lemma dispatch_started sc (s : State) :
  started (handleTurnComplete sc (handleTranscriptions sc (handleInterrupted sc s)))
  = started s.
Proof.
  rewrite (playback_started _ _ (handleTurnComplete_playback _ _)).
  rewrite (playback_started _ _ (handleTranscriptions_playback _ _)).
  apply handleInterrupted_started.
Qed.

(** One message either schedules nothing or schedules exactly one chunk
    at [max(next, clock)].  When it is not an interruption, the next
    start time does not move backwards in the first case and is advanced
    to the chunk's end in the second. *)
Lemma onmessage_schedule mouth env message (s : State) :
  let s' := fst (onmessage mouth env message s) in
  (started s' = started s
   /\ (uninterrupted message -> nextStartTimeRef s <= nextStartTimeRef s'))
  \/ (exists d,
        decodeResult env = Decoded d
        /\ started s'
           = started s
               ++ [mkSource (List.length (started s))
                     (Rmax (nextStartTimeRef s) (currentTime env)) d]
        /\ (uninterrupted message ->
            nextStartTimeRef s'
            = Rmax (nextStartTimeRef s) (currentTime env) + d)).
Proof.
  intros s'. subst s'. unfold onmessage.
  destruct (getAudioData message) as [audioData|].
  2:{ left. cbn. split; [reflexivity | intros _; apply Rle_refl]. }
  pose proof (scheduleAudio_cases mouth env audioData s) as Hc.
  cbv zeta in Hc.
  destruct (scheduleAudio mouth env audioData s) as [s1 c] eqn:Es.
  cbn [fst snd] in Hc.
  set (tail := match serverContent message with
               | Some sc =>
                   (handleTurnComplete sc
                      (handleTranscriptions sc (handleInterrupted sc s1)),
                    Fulfilled)
               | None => (s1, Fulfilled)
               end).
  assert (Hst : started (fst tail) = started s1).
  { subst tail. destruct (serverContent message) as [sc|]; [|reflexivity].
    cbn [fst]. apply dispatch_started. }
  assert (Hnx : uninterrupted message ->
                nextStartTimeRef (fst tail) = nextStartTimeRef s1).
  { intros Hu. subst tail. unfold uninterrupted in Hu.
    destruct (serverContent message) as [sc|]; [|reflexivity].
    cbn [fst]. apply playback_next. now apply dispatch_playback. }
  destruct Hc as [Hc | [Hc | Hc]].
  - inversion Hc; subst s1 c. left. rewrite Hst.
    split; [reflexivity | intros Hu; rewrite (Hnx Hu); apply Rle_refl].
  - destruct Hc as (Hr & _ & Hs1 & Hn1 & _). subst c. left.
    cbn [fst]. rewrite Hs1, Hn1. split; [reflexivity | intros _; apply Rmax_l].
  - destruct Hc as (d & Hd & Hf & Hs1 & Hn1). subst c. right. exists d.
    rewrite Hst. repeat split; try assumption.
    intros Hu. now rewrite (Hnx Hu).
Qed.

Lemma scheduledAfter_weaken (l : list AudioBufferSourceNode) (t t' : R) :
  t' <= t -> scheduledAfter t l -> scheduledAfter t' l.
Proof.
  destruct l as [|node rest]; cbn; [trivial|].
  intros Hle [H1 H2]. split; [lra | assumption].
Qed.

Lemma scheduledAfter_nonDecreasing (l : list AudioBufferSourceNode) (t : R) :
  Forall (fun node => 0 <= bufferDuration node) l ->
  scheduledAfter t l ->
  nonDecreasing (map startTime l).
Proof.
  revert t. induction l as [|a rest IH]; intros t Hd Hs; [exact I|].
  destruct rest as [|b rest']; [exact I|].
  cbn [map nonDecreasing]. destruct Hs as [_ Hs].
  inversion Hd as [|? ? Ha Hrest]; subst.
  split.
  - destruct Hs as [Hb _]. lra.
  - apply (IH (startTime a + bufferDuration a)); assumption.
Qed.

(** A run of uninterrupted messages appends, in order, sources each of
    which starts no earlier than the computed end of the one before. *)
Lemma runMessages_schedule mouth msgs :
  forall s : State,
  Forall (fun em => uninterrupted (snd em)) msgs ->
  Forall (fun em => soundDecode (fst em)) msgs ->
  exists new,
    started (runMessages mouth msgs s) = started s ++ new
    /\ scheduledAfter (nextStartTimeRef s) new
    /\ Forall (fun node => 0 <= bufferDuration node) new.
Proof.
  induction msgs as [|[env message] rest IH]; intros s Hu Hd.
  - exists []. cbn. rewrite app_nil_r. repeat split. constructor.
  - inversion Hu as [|? ? Hu1 Hu2]; subst.
    inversion Hd as [|? ? Hd1 Hd2]; subst.
    cbn [fst snd] in Hu1, Hd1.
    unfold runMessages in *. cbn [fold_left fst snd].
    set (s1 := fst (onmessage mouth env message s)).
    destruct (IH s1 Hu2 Hd2) as (new & Hn & Hs & Hp).
    destruct (onmessage_schedule mouth env message s) as [[H1 H2] | H].
    + exists new. fold s1 in H1, H2. rewrite Hn, H1. repeat split.
      * apply (scheduledAfter_weaken new (nextStartTimeRef s1)); auto.
      * assumption.
    + destruct H as (d & Hdec & H1 & H2). fold s1 in H1, H2.
      unfold soundDecode in Hd1. rewrite Hdec in Hd1.
      exists (mkSource (List.length (started s))
                (Rmax (nextStartTimeRef s) (currentTime env)) d :: new).
      rewrite Hn, H1, <- app_assoc. repeat split.
      * cbn. apply Rmax_l.
      * cbn. rewrite <- (H2 Hu1). exact Hs.
      * constructor; [exact Hd1 | exact Hp].
Qed.

(** C1: every audio chunk the scheduler processes is started at
    [max(nextStartTime, currentTime)] and the next start time is then
    advanced by exactly the duration of the decoded buffer.  Hence, over
    any run of messages that are not interruptions and whatever the clock
    readings, the start times handed to [start] are non-decreasing and no
    source starts before the computed end of the one before it; and a
    chunk that arrives before the previous chunk's computed end starts
    exactly at that end. *)
Theorem playback_is_gapless :
  (forall mouth env audioData (s : State) d,
      truthyAudio audioData = true ->
      outputAudioContextRef s <> None ->
      analyserNodeRef s <> None ->
      decodeResult env = Decoded d ->
      let s' := fst (scheduleAudio mouth env audioData s) in
      exists node,
        started s' = started s ++ [node]
        /\ startTime node = Rmax (nextStartTimeRef s) (currentTime env)
        /\ bufferDuration node = d
        /\ nextStartTimeRef s' = startTime node + d)
  /\ (forall mouth msgs (s : State),
        Forall (fun em => uninterrupted (snd em)) msgs ->
        Forall (fun em => soundDecode (fst em)) msgs ->
        exists new,
          started (runMessages mouth msgs s) = started s ++ new
          /\ nonDecreasing (map startTime new)
          /\ scheduledAfter (nextStartTimeRef s) new)
  /\ (forall mouth env1 m1 env2 m2 (s : State) n1 n2,
        let s1 := fst (onmessage mouth env1 m1 s) in
        let s2 := fst (onmessage mouth env2 m2 s1) in
        uninterrupted m1 ->
        started s1 = started s ++ [n1] ->
        started s2 = started s1 ++ [n2] ->
        currentTime env2 <= startTime n1 + bufferDuration n1 ->
        startTime n2 = startTime n1 + bufferDuration n1).
Proof.
  split; [|split].
  - intros mouth env audioData s d Ha Ho Hn Hd s'. subst s'.
    destruct (scheduleAudio_decoded mouth env audioData s d Ha Ho Hn Hd)
      as (_ & Hs & Hnx & _).
    eexists. split; [exact Hs|]. cbn [startTime bufferDuration].
    repeat split. exact Hnx.
  - intros mouth msgs s Hu Hd.
    destruct (runMessages_schedule mouth msgs s Hu Hd) as (new & Hn & Hs & Hp).
    exists new. repeat split; try assumption.
    now apply (scheduledAfter_nonDecreasing new (nextStartTimeRef s)).
  - intros mouth env1 m1 env2 m2 s n1 n2 s1 s2 Hu H1 H2 Hclock.
    destruct (onmessage_schedule mouth env1 m1 s) as [[E1 _] | (d1 & _ & E1 & N1)].
    { fold s1 in E1. rewrite E1 in H1.
      apply (f_equal (@List.length _)) in H1. rewrite length_app in H1.
      cbn in H1. lia. }
    fold s1 in E1, N1. rewrite E1 in H1. apply app_inv_head in H1.
    injection H1 as H1. subst n1. cbn [startTime bufferDuration] in *.
    specialize (N1 Hu).
    destruct (onmessage_schedule mouth env2 m2 s1) as [[E2 _] | (d2 & _ & E2 & _)].
    { fold s2 in E2. rewrite E2 in H2.
      apply (f_equal (@List.length _)) in H2. rewrite length_app in H2.
      cbn in H2. lia. }
    fold s2 in E2. rewrite E2 in H2. apply app_inv_head in H2.
    injection H2 as H2. subst n2. cbn [startTime].
    rewrite N1. apply Rmax_left. exact Hclock.
Qed.

(** The scenario of the spec: a chunk of duration 2 arrives at clock 0, a
    second one before the first has finished; it starts at 2. *)
Lemma playback_is_gapless_witness :
  let n1 := mkSource 0 (Rmax 0 0) 2 in
  let n2 := mkSource 1 (Rmax (Rmax 0 0 + 2) 0.5) 3 in
  started
    (runMessages (Some someMouth)
       [(envAt 0 2, chunkMessage); (envAt 0.5 3, chunkMessage)] liveState)
  = [n1; n2]
  /\ startTime n2 = startTime n1 + bufferDuration n1.
Proof.
  intros n1 n2. split; [vm_compute; reflexivity|].
  destruct playback_is_gapless as (_ & _ & H).
  apply (H (Some someMouth) (envAt 0 2) chunkMessage (envAt 0.5 3) chunkMessage
           liveState n1 n2).
  - exact eq_refl.
  - vm_compute; reflexivity.
  - vm_compute; reflexivity.
  - cbn. unfold Rmax. destruct (Rle_dec 0 0); lra.
Defined.

(** ** Interruption *)

Lemma handleInterrupted_on sc (s : State) :
  interrupted sc = true ->
  playback (handleInterrupted sc s)
  = (0, started s, [], 0%Z, stopped s ++ map nodeId (audioSourcesRef s)).
Proof.
  intros H. unfold handleInterrupted. rewrite H.
  rewrite stopAnimation_playback. destruct s. reflexivity.
Qed.

(** A handler that is not cut short ends fulfilled. *)
Lemma onmessage_fulfilled mouth env message (s : State) :
  wellFormed env message ->
  snd (onmessage mouth env message s) = Fulfilled.
Proof.
  intros [Ha Hd]. unfold onmessage.
  destruct (getAudioData message) as [audioData|]; [|congruence].
  destruct (scheduleAudio_cases mouth env audioData s) as [Hc | [Hc | Hc]].
  - rewrite Hc. destruct (serverContent message); reflexivity.
  - destruct Hc as (_ & Hc & _). congruence.
  - destruct Hc as (d & _ & Hf & _).
    destruct (scheduleAudio mouth env audioData s) as [s1 c].
    cbn in Hf. subst c. destruct (serverContent message); reflexivity.
Qed.

(** Sources in the active set stay in it across the audio branch. *)
Lemma scheduleAudio_keeps_sources mouth env audioData (s : State) node :
  In node (audioSourcesRef s) ->
  In node (audioSourcesRef (fst (scheduleAudio mouth env audioData s))).
Proof.
  intros Hin.
  destruct (scheduleAudio_cases mouth env audioData s) as [Hc | [Hc | Hc]].
  - now rewrite Hc.
  - destruct Hc as (_ & _ & _ & _ & Hs & _). now rewrite Hs.
  - destruct Hc as (d & Hd & _).
    unfold scheduleAudio in *.
    destruct (truthyAudio audioData) eqn:Ha; [|exact Hin].
    destruct (outputAudioContextRef s) eqn:Eo; [|exact Hin].
    destruct (analyserNodeRef s) eqn:En; [|exact Hin].
    rewrite Hd.
    pose proof (startAnimationIfIdle_playback mouth env s) as Hp.
    revert Hp. generalize (startAnimationIfIdle mouth env s) as s0.
    intros s0 Hp. rewrite <- (playback_sources _ _ Hp) in Hin. clear Hp.
    destruct s0. cbn in *. unfold setAdd.
    match goal with
    | |- In _ (if ?b then _ else _) => destruct b
    end; [exact Hin | apply in_or_app; now left].
Qed.

(** What [onmessage] does to the scheduler on an interruption that is
    handled to completion. *)
Lemma onmessage_interrupted mouth env message sc (s : State) :
  serverContent message = Some sc ->
  interrupted sc = true ->
  snd (onmessage mouth env message s) = Fulfilled ->
  exists s1,
    (forall node, In node (audioSourcesRef s) -> In node (audioSourcesRef s1))
    /\ playback (fst (onmessage mouth env message s))
       = (0, started s1, [], 0%Z, stopped s1 ++ map nodeId (audioSourcesRef s1)).
Proof.
  intros Hsc Hi Hf. unfold onmessage in *.
  destruct (getAudioData message) as [audioData|]; [|discriminate].
  pose proof (scheduleAudio_keeps_sources mouth env audioData s) as Hk.
  destruct (scheduleAudio mouth env audioData s) as [s1 c].
  cbn [fst] in Hk. destruct c; [|discriminate].
  rewrite Hsc. cbn [fst]. exists s1. split; [exact Hk|].
  rewrite handleTurnComplete_playback, handleTranscriptions_playback.
  now apply handleInterrupted_on.
Qed.

(** C2 (as amended): a message carrying the [interrupted] flag whose
    handler runs to completion leaves no active playback source - every
    source that was active is stopped, the active set is empty, the
    active-source count is 0 - and the next start time is 0, however many
    sources were active before.  The handler runs to completion whenever
    reading the audio payload does not throw and the payload decodes. *)
Theorem interruption_clears_playback :
  (forall mouth env message sc (s : State),
      serverContent message = Some sc ->
      interrupted sc = true ->
      snd (onmessage mouth env message s) = Fulfilled ->
      let s' := fst (onmessage mouth env message s) in
      audioSourcesRef s' = []
      /\ activeAudioSources s' = 0%Z
      /\ nextStartTimeRef s' = 0
      /\ (forall node,
            In node (audioSourcesRef s) -> In (nodeId node) (stopped s')))
  /\ (forall mouth env message (s : State),
        wellFormed env message ->
        snd (onmessage mouth env message s) = Fulfilled).
Proof.
  split.
  - intros mouth env message sc s Hsc Hi Hf s'. subst s'.
    destruct (onmessage_interrupted mouth env message sc s Hsc Hi Hf)
      as (s1 & Hk & Hp).
    unfold playback in Hp. inversion Hp as [[Hn Hst Hs Hc Hstop]].
    repeat split; try assumption.
    intros node Hin. rewrite Hstop. apply in_or_app. right.
    apply in_map. now apply Hk.
  - intros mouth env message s Hw. now apply onmessage_fulfilled.
Qed.

Lemma interruption_clears_playback_witness :
  let s' := fst (onmessage (Some someMouth) (envAt 1 0) interruption
                   speakingState) in
  audioSourcesRef speakingState <> []
  /\ audioSourcesRef s' = []
  /\ activeAudioSources s' = 0%Z
  /\ nextStartTimeRef s' = 0
  /\ In 0%nat (stopped s').
Proof.
  intros s'.
  assert (Hw : wellFormed (envAt 1 0) interruption).
  { split; vm_compute; discriminate. }
  destruct interruption_clears_playback as [H1 H2].
  pose proof (H2 (Some someMouth) (envAt 1 0) interruption speakingState Hw)
    as Hf.
  destruct (H1 (Some someMouth) (envAt 1 0) interruption _
              speakingState eq_refl eq_refl Hf) as (Ha & Hb & Hc & Hd).
  split; [vm_compute; discriminate|].
  repeat split; try assumption.
  apply (Hd (mkSource 0 (Rmax 0 0) 2)).
  vm_compute. now left.
Defined.

(** C2 (as stated) fails: an interruption that arrives together with an
    audio payload that does not decode leaves the active source in place. *)
Lemma interruption_lost_on_decode_error :
  ~ (forall mouth env message sc (s : State),
        serverContent message = Some sc ->
        interrupted sc = true ->
        let s' := fst (onmessage mouth env message s) in
        audioSourcesRef s' = []
        /\ activeAudioSources s' = 0%Z
        /\ nextStartTimeRef s' = 0).
Proof.
  intros H.
  destruct (H (Some someMouth) (envBroken 1) interruptedWithAudio _
              speakingState eq_refl eq_refl) as (Ha & _).
  vm_compute in Ha. discriminate.
Qed.

(** ** The transcript accumulator *)

Lemma animateMouth_transcripts mouth wave (s : State) :
  transcripts (animateMouth mouth wave s) = transcripts s.
Proof.
  unfold animateMouth.
  destruct (analyserNodeRef s), (canvasRef s) as [canvas|], (imageRef s), mouth;
    try reflexivity.
  destruct (hasContext2d canvas); reflexivity.
Qed.

Lemma stopAnimation_transcripts (s : State) :
  transcripts (stopAnimation s) = transcripts s.
Proof.
  unfold stopAnimation.
  assert (H : transcripts (cancelAnimationRef s) = transcripts s).
  { unfold cancelAnimationRef.
    destruct (truthyFrameId (animationFrameIdRef s)); [|reflexivity].
    destruct (animationFrameIdRef s); reflexivity. }
  rewrite <- H.
  destruct (canvasRef (cancelAnimationRef s)) as [canvas|]; [|reflexivity].
  destruct (imageRef (cancelAnimationRef s)); [|reflexivity].
  destruct (hasContext2d canvas); reflexivity.
Qed.

Lemma scheduleAudio_transcripts mouth env audioData (s : State) :
  transcripts (fst (scheduleAudio mouth env audioData s)) = transcripts s.
Proof.
  unfold scheduleAudio.
  destruct (truthyAudio audioData); [|reflexivity].
  destruct (outputAudioContextRef s); [|reflexivity].
  destruct (analyserNodeRef s); [|reflexivity].
  assert (Hp : transcripts (startAnimationIfIdle mouth env s) = transcripts s).
  { unfold startAnimationIfIdle.
    destruct (animationFrameIdRef s), mouth; try reflexivity.
    apply animateMouth_transcripts. }
  rewrite <- Hp. generalize (startAnimationIfIdle mouth env s) as s0.
  intros s0. destruct s0, (decodeResult env); reflexivity.
Qed.

Lemma handleInterrupted_transcripts sc (s : State) :
  transcripts (handleInterrupted sc s) = transcripts s.
Proof.
  unfold handleInterrupted. destruct (interrupted sc); [|reflexivity].
  rewrite stopAnimation_transcripts. destruct s. reflexivity.
Qed.

Lemma handleTranscriptions_transcripts sc (s : State) :
  transcripts (handleTranscriptions sc s)
  = (transcript s,
     currentInputTranscriptionRef s
       ++ match inputTranscription sc with
          | Some t => textOf t
          | None => []
          end,
     currentOutputTranscriptionRef s
       ++ match outputTranscription sc with
          | Some t => textOf t
          | None => []
          end).
Proof.
  unfold handleTranscriptions.
  destruct s, (inputTranscription sc), (outputTranscription sc); cbn;
    rewrite ?app_nil_r; reflexivity.
Qed.

Lemma handleTurnComplete_on sc (s : State) :
  turnComplete sc = true ->
  transcripts (handleTurnComplete sc s)
  = (transcript s
       ++ entryIf user (trim (currentInputTranscriptionRef s))
       ++ entryIf model (trim (currentOutputTranscriptionRef s)),
     [], []).
Proof.
  intros H. unfold handleTurnComplete. rewrite H. destruct s. reflexivity.
Qed.

Lemma handleTurnComplete_off sc (s : State) :
  turnComplete sc = false -> handleTurnComplete sc s = s.
Proof. intros H. unfold handleTurnComplete. now rewrite H. Qed.

Lemma transcripts_inv (s : State) a b c :
  transcripts s = (a, b, c) ->
  transcript s = a
  /\ currentInputTranscriptionRef s = b
  /\ currentOutputTranscriptionRef s = c.
Proof. unfold transcripts. intros H. inversion H. repeat split. Qed.

(** The accumulator after a message that was handled to completion. *)
Lemma onmessage_transcripts mouth env message (s : State) :
  snd (onmessage mouth env message s) = Fulfilled ->
  let s' := fst (onmessage mouth env message s) in
  match serverContent message with
  | Some sc =>
      if turnComplete sc then
        transcripts s'
        = (transcript s
             ++ entryIf user
                  (trim (currentInputTranscriptionRef s ++ inputFragment message))
             ++ entryIf model
                  (trim (currentOutputTranscriptionRef s ++ outputFragment message)),
           [], [])
      else
        transcripts s'
        = (transcript s,
           currentInputTranscriptionRef s ++ inputFragment message,
           currentOutputTranscriptionRef s ++ outputFragment message)
  | None => transcripts s' = transcripts s
  end.
Proof.
  intros Hf s'. subst s'. unfold onmessage in *.
  unfold inputFragment, outputFragment.
  destruct (getAudioData message) as [audioData|]; [|discriminate].
  pose proof (scheduleAudio_transcripts mouth env audioData s) as Ht.
  destruct (scheduleAudio mouth env audioData s) as [s1 c].
  cbn [fst] in Ht. destruct c; [|discriminate].
  destruct (serverContent message) as [sc|]; cbn [fst]; [|exact Ht].
  pose proof (handleTranscriptions_transcripts sc (handleInterrupted sc s1)) as H1.
  unfold transcripts in Ht. inversion Ht as [[Ga Gb Gc]]. clear Ht Ga Gb Gc.
  pose proof (handleInterrupted_transcripts sc s1) as H0.
  apply transcripts_inv in H0. destruct H0 as (Ea & Eb & Ec).
  rewrite Ea, Eb, Ec in H1.
  apply transcripts_inv in H1. destruct H1 as (Fa & Fb & Fc).
  destruct (turnComplete sc) eqn:Etc.
  - rewrite (handleTurnComplete_on _ _ Etc). rewrite Fa, Fb, Fc. reflexivity.
  - rewrite (handleTurnComplete_off _ _ Etc). unfold transcripts at 1.
    rewrite Fa, Fb, Fc. reflexivity.
Qed.

(** Fragments received before the turn completes are appended to the
    two buffers in arrival order. *)
Lemma runMessages_fragments mouth msgs :
  forall s : State,
  Forall (fun em => wellFormed (fst em) (snd em)) msgs ->
  Forall (fun em => midTurn (snd em)) msgs ->
  transcripts (runMessages mouth msgs s)
  = (transcript s,
     currentInputTranscriptionRef s
       ++ List.concat (map (fun em => inputFragment (snd em)) msgs),
     currentOutputTranscriptionRef s
       ++ List.concat (map (fun em => outputFragment (snd em)) msgs)).
Proof.
  induction msgs as [|[env message] rest IH]; intros s Hw Hm.
  - cbn. now rewrite !app_nil_r.
  - inversion Hw as [|? ? Hw1 Hw2]; subst.
    inversion Hm as [|? ? Hm1 Hm2]; subst.
    cbn [fst snd] in Hw1, Hm1.
    unfold runMessages in *. cbn [fold_left fst snd map List.concat].
    rewrite (IH _ Hw2 Hm2).
    pose proof (onmessage_transcripts mouth env message s
                  (onmessage_fulfilled mouth env message s Hw1)) as Ht.
    cbv zeta in Ht. unfold midTurn in Hm1.
    assert (Hs : transcripts (fst (onmessage mouth env message s))
                 = (transcript s,
                    currentInputTranscriptionRef s ++ inputFragment message,
                    currentOutputTranscriptionRef s ++ outputFragment message)).
    { unfold inputFragment, outputFragment in *.
      destruct (serverContent message) as [sc|].
      - rewrite Hm1 in Ht. exact Ht.
      - rewrite Ht. unfold transcripts. now rewrite !app_nil_r. }
    apply transcripts_inv in Hs. destruct Hs as (Ea & Eb & Ec).
    rewrite Ea, Eb, Ec, <- !app_assoc. reflexivity.
Qed.

(** C3 (as amended): when a [turnComplete] message is handled to
    completion, each pending buffer - with the fragments of this very
    message appended - is trimmed and, if then non-empty, appended as
    exactly one transcript entry: only a model entry when only the output
    is non-empty, a user entry followed by a model entry when both are;
    both buffers are then empty.  Fragments received within a turn are
    concatenated in arrival order.  A handler runs to completion whenever
    reading the audio payload does not throw and the payload decodes. *)
Theorem turn_complete_commits_transcript :
  (forall mouth env message sc (s : State),
      serverContent message = Some sc ->
      turnComplete sc = true ->
      snd (onmessage mouth env message s) = Fulfilled ->
      let fullInput :=
        trim (currentInputTranscriptionRef s ++ inputFragment message) in
      let fullOutput :=
        trim (currentOutputTranscriptionRef s ++ outputFragment message) in
      let s' := fst (onmessage mouth env message s) in
      transcript s'
      = transcript s ++ entryIf user fullInput ++ entryIf model fullOutput
      /\ (fullInput = [] -> fullOutput <> [] ->
          transcript s' = transcript s ++ [mkEntry model fullOutput])
      /\ (fullInput <> [] -> fullOutput <> [] ->
          transcript s'
          = transcript s ++ [mkEntry user fullInput; mkEntry model fullOutput])
      /\ currentInputTranscriptionRef s' = []
      /\ currentOutputTranscriptionRef s' = [])
  /\ (forall mouth msgs (s : State),
        Forall (fun em => wellFormed (fst em) (snd em)) msgs ->
        Forall (fun em => midTurn (snd em)) msgs ->
        let s' := runMessages mouth msgs s in
        currentInputTranscriptionRef s'
        = currentInputTranscriptionRef s
            ++ List.concat (map (fun em => inputFragment (snd em)) msgs)
        /\ currentOutputTranscriptionRef s'
           = currentOutputTranscriptionRef s
               ++ List.concat (map (fun em => outputFragment (snd em)) msgs))
  /\ (forall mouth env message (s : State),
        wellFormed env message ->
        snd (onmessage mouth env message s) = Fulfilled).
Proof.
  split; [|split].
  - intros mouth env message sc s Hsc Htc Hf fullInput fullOutput s'.
    pose proof (onmessage_transcripts mouth env message s Hf) as Ht.
    cbv zeta in Ht. rewrite Hsc, Htc in Ht.
    apply transcripts_inv in Ht. destruct Ht as (Ea & Eb & Ec).
    fold fullInput fullOutput s' in Ea. fold s' in Eb, Ec.
    repeat split; try assumption.
    + intros Hi Ho. rewrite Ea, Hi. unfold entryIf.
      destruct fullOutput; [congruence | reflexivity].
    + intros Hi Ho. rewrite Ea. unfold entryIf.
      destruct fullInput; [congruence|].
      destruct fullOutput; [congruence | reflexivity].
  - intros mouth msgs s Hw Hm s'. subst s'.
    pose proof (runMessages_fragments mouth msgs s Hw Hm) as Ht.
    apply transcripts_inv in Ht. destruct Ht as (_ & Eb & Ec). now split.
  - intros mouth env message s Hw. now apply onmessage_fulfilled.
Qed.

Lemma turn_complete_commits_transcript_witness :
  transcript (fst (onmessage (Some someMouth) (envAt 0 0) turnCompleted midTurnState))
  = [mkEntry user (js "Hello"); mkEntry model (js "Good day.")]
  /\ currentOutputTranscriptionRef midTurnState = js " Good"
  /\ currentOutputTranscriptionRef
       (fst (onmessage (Some someMouth) (envAt 0 0) turnCompleted midTurnState))
     = [].
Proof.
  destruct turn_complete_commits_transcript as (H1 & H2 & H3).
  assert (Hw : wellFormed (envAt 0 0) turnCompleted).
  { split; vm_compute; discriminate. }
  pose proof (H3 (Some someMouth) (envAt 0 0) turnCompleted midTurnState Hw) as Hf.
  destruct (H1 (Some someMouth) (envAt 0 0) turnCompleted _ midTurnState
              eq_refl eq_refl Hf) as (_ & _ & Hboth & _ & Hout).
  split; [|split].
  - rewrite Hboth.
    + vm_compute. reflexivity.
    + vm_compute. discriminate.
    + vm_compute. discriminate.
  - destruct (H2 (Some someMouth)
                [(envAt 0 0, heard "Hello "%string);
                 (envAt 0 0, said " Good"%string)] liveState) as (_ & Ho).
    + repeat constructor; vm_compute; discriminate.
    + repeat constructor.
    + unfold midTurnState. rewrite Ho. vm_compute. reflexivity.
  - exact Hout.
Defined.

(** C3 (as stated) fails: a [turnComplete] that arrives together with an
    audio payload that does not decode commits nothing and leaves the
    buffers as they were. *)
Lemma turn_complete_lost_on_decode_error :
  ~ (forall mouth env message sc (s : State),
        serverContent message = Some sc ->
        turnComplete sc = true ->
        let s' := fst (onmessage mouth env message s) in
        transcript s'
        = transcript s
            ++ entryIf user
                 (trim (currentInputTranscriptionRef s ++ inputFragment message))
            ++ entryIf model
                 (trim (currentOutputTranscriptionRef s ++ outputFragment message))
        /\ currentInputTranscriptionRef s' = []
        /\ currentOutputTranscriptionRef s' = []).
Proof.
  intros H.
  destruct (H (Some someMouth) (envBroken 1) turnCompletedWithAudio _
              midTurnState eq_refl eq_refl) as (_ & _ & Ho).
  vm_compute in Ho. discriminate.
Qed.

(** ** Teardown paths *)

(** What [stopAudioProcessing] releases, and what it leaves alone. *)
Lemma stopAudioProcessing_releases (s : State) :
  let s' := stopAudioProcessing s in
  audioStreamRef s' = None
  /\ inputAudioContextRef s' = closeContext (inputAudioContextRef s)
  /\ outputAudioContextRef s' = closeContext (outputAudioContextRef s)
  /\ sessionPromiseRef s' = sessionPromiseRef s
  /\ closedSessions s' = closedSessions s
  /\ playback s' = playback s
  /\ animationFrameIdRef s' = animationFrameIdRef s
  /\ pendingFrames s' = pendingFrames s.
Proof.
  unfold stopAudioProcessing. destruct s. cbn.
  destruct scriptProcessorRef0, mediaStreamSourceRef0, audioStreamRef0; cbn;
    repeat split.
Qed.

(** On a transport error only the capture side is released: the session
    is not closed, no source is stopped or removed, and the animation
    loop is not cancelled. *)
Lemma onerror_releases_capture_only (s : State) :
  let s' := onerror s in
  status s' = error
  /\ audioStreamRef s' = None
  /\ sessionPromiseRef s' = sessionPromiseRef s
  /\ closedSessions s' = closedSessions s
  /\ audioSourcesRef s' = audioSourcesRef s
  /\ stopped s' = stopped s
  /\ animationFrameIdRef s' = animationFrameIdRef s
  /\ pendingFrames s' = pendingFrames s.
Proof.
  unfold onerror.
  destruct (stopAudioProcessing_releases (setStatus error s))
    as (H1 & _ & _ & H4 & H5 & H6 & H7 & H8).
  cbv zeta. rewrite H1, H4, H5, H7, H8.
  rewrite (playback_sources _ _ H6), (playback_stopped _ _ H6).
  unfold stopAudioProcessing. destruct s. cbn.
  destruct scriptProcessorRef0, mediaStreamSourceRef0, audioStreamRef0; cbn;
    repeat split.
Qed.

(** C4: the state in which a transport error leaves a live session that
    has one source playing and the animation running, next to the state
    in which [endConversation] leaves it.  The error path releases the
    microphone stream and closes both audio contexts, but the session is
    not closed, the source is neither stopped nor removed from the active
    set, and the animation callback stays pending. *)
Theorem onerror_is_not_full_teardown :
  let failed := onerror speakingState in
  let ended := endConversation speakingState in
  (status failed = error
   /\ audioStreamRef failed = None
   /\ stoppedStreams failed = [7%nat]
   /\ option_map contextState (inputAudioContextRef failed) = Some closed
   /\ option_map contextState (outputAudioContextRef failed) = Some closed
   /\ sessionPromiseRef failed = Some 1%nat
   /\ closedSessions failed = []
   /\ map nodeId (audioSourcesRef failed) = [0%nat]
   /\ stopped failed = []
   /\ animationFrameIdRef failed = Some 1%N
   /\ pendingFrames failed = [1%N])
  /\ (status ended = idle
      /\ audioStreamRef ended = None
      /\ stoppedStreams ended = [7%nat]
      /\ option_map contextState (inputAudioContextRef ended) = Some closed
      /\ option_map contextState (outputAudioContextRef ended) = Some closed
      /\ sessionPromiseRef ended = None
      /\ closedSessions ended = [1%nat]
      /\ audioSourcesRef ended = []
      /\ stopped ended = [0%nat]
      /\ animationFrameIdRef ended = None
      /\ pendingFrames ended = []).
Proof.
  cbv zeta. split; repeat split; vm_compute; reflexivity.
Qed.

(** ** Failed starts *)

(** With the microphone denied nothing is acquired: the status goes to
    [connecting] and then [error], and the stream ref is left as it was. *)
Lemma startConversation_denied env (s : State) :
  getUserMedia env = None ->
  let s' := startConversation env s in
  status s' = error
  /\ statusLog s' = statusLog s ++ [connecting; error]
  /\ audioStreamRef s' = audioStreamRef s
  /\ sessionPromiseRef s' = sessionPromiseRef s.
Proof.
  intros H. unfold startConversation. rewrite H. destruct s. cbn.
  rewrite <- app_assoc. repeat split.
Qed.

(** When a later step throws, the stream that was granted stays in its
    ref and none of its tracks is stopped. *)
Lemma startConversation_keeps_stream env (s : State) stream :
  getUserMedia env = Some stream ->
  let s' := startConversation env s in
  audioStreamRef s' = Some stream /\ stoppedStreams s' = stoppedStreams s.
Proof.
  intros H. unfold startConversation. rewrite H.
  destruct (newAudioContext env INPUT_SAMPLE_RATE);
    [destruct (newAudioContext env OUTPUT_SAMPLE_RATE);
     [destruct (newGoogleGenAI env)|]|];
    destruct s; cbn; split; reflexivity.
Qed.

(** C5: a start in which the microphone is granted and the construction
    of the audio context then throws.  The status goes from [connecting]
    to [error] and never to [live], but the granted stream is still held
    in [audioStreamRef] and its tracks were never stopped. *)
Theorem failed_start_retains_microphone :
  let s' := startConversation noContextEnv mountedState in
  status mountedState = idle
  /\ audioStreamRef mountedState = None
  /\ statusLog s' = [connecting; error]
  /\ status s' = error
  /\ audioStreamRef s' = Some 7%nat
  /\ stoppedStreams s' = [].
Proof.
  cbv zeta. repeat split; vm_compute; reflexivity.
Qed.

(** ** The loudness-driven animator *)

Lemma sumSquares_uniform (q : R) (l : list Byte.byte) :
  Forall (fun b => normSample (amplitudeOf b) * normSample (amplitudeOf b) = q) l ->
  sumSquares l = INR (List.length l) * q.
Proof.
  unfold sumSquares.
  assert (H : forall acc,
            Forall (fun b => normSample (amplitudeOf b) * normSample (amplitudeOf b) = q) l ->
            fold_left
              (fun acc b => acc + normSample (amplitudeOf b) * normSample (amplitudeOf b))
              l acc
            = acc + INR (List.length l) * q).
  { induction l as [|b rest IH]; intros acc Hq.
    - cbn. lra.
    - apply Forall_cons_iff in Hq. destruct Hq as [Hb Hrest].
      cbn [fold_left]. rewrite (IH _ Hrest).
      change (List.length (b :: rest)) with (S (List.length rest)).
      rewrite S_INR, Hb. lra. }
  intros Hq. rewrite (H 0 Hq). lra.
Qed.

(** The RMS of a window in which every sample has the same square. *)
Lemma rmsOf_uniform (q : R) (l : list Byte.byte) :
  l <> [] ->
  Forall (fun b => normSample (amplitudeOf b) * normSample (amplitudeOf b) = q) l ->
  rmsOf l = sqrt q.
Proof.
  intros Hne Hq. unfold rmsOf. rewrite (sumSquares_uniform q l Hq).
  f_equal. field. apply not_0_INR. destruct l; [congruence | discriminate].
Qed.

Lemma rmsOf_constant_wave analyser (b : Byte.byte) :
  fftSize analyser <> 0%nat ->
  rmsOf (getByteTimeDomainData analyser (fun _ => b))
  = sqrt (normSample (amplitudeOf b) * normSample (amplitudeOf b)).
Proof.
  intros Hn. apply rmsOf_uniform.
  - unfold getByteTimeDomainData.
    destruct (fftSize analyser); [congruence | discriminate].
  - unfold getByteTimeDomainData. apply Forall_forall.
    intros x Hx. apply in_map_iff in Hx. destruct Hx as (i & Hi & _).
    now subst x.
Qed.

Lemma rmsOf_silence analyser :
  fftSize analyser <> 0%nat ->
  rmsOf (getByteTimeDomainData analyser silence) = 0.
Proof.
  intros Hn. unfold silence. rewrite (rmsOf_constant_wave analyser _ Hn).
  replace (normSample (amplitudeOf Byte.x80) * normSample (amplitudeOf Byte.x80))
    with 0.
  - apply sqrt_0.
  - unfold normSample. change (amplitudeOf Byte.x80) with 128. field.
Qed.

Lemma rmsOf_fullScale analyser :
  fftSize analyser <> 0%nat ->
  rmsOf (getByteTimeDomainData analyser fullScale) = 1.
Proof.
  intros Hn. unfold fullScale. rewrite (rmsOf_constant_wave analyser _ Hn).
  replace (normSample (amplitudeOf Byte.x00) * normSample (amplitudeOf Byte.x00))
    with 1.
  - apply sqrt_1.
  - unfold normSample. change (amplitudeOf Byte.x00) with 0. field.
Qed.

(** One frame of the animation when its guards hold. *)
Lemma animateMouth_frame coords wave (s : State) analyser canvas img :
  analyserNodeRef s = Some analyser ->
  canvasRef s = Some canvas ->
  imageRef s = Some img ->
  hasContext2d canvas = true ->
  let rms := rmsOf (getByteTimeDomainData analyser wave) in
  let smoothed := smooth (smoothedVolumeRef s) (effectiveVolume rms) in
  let s' := animateMouth (Some coords) wave s in
  smoothedVolumeRef s' = smoothed
  /\ canvasRef s'
     = Some (setDrawn
               (frameOf canvas img coords (mouthOpennessOf canvas coords smoothed))
               canvas)
  /\ analyserNodeRef s' = Some analyser
  /\ imageRef s' = Some img.
Proof.
  intros Ha Hc Hi Hx. unfold animateMouth. rewrite Ha, Hc, Hi, Hx.
  destruct s. cbn in *. repeat split; assumption.
Qed.

Lemma effectiveVolume_quiet (rms : R) :
  rms <= volumeThreshold -> effectiveVolume rms = 0.
Proof.
  intros H. unfold effectiveVolume.
  destruct (Rlt_dec volumeThreshold rms); [lra | reflexivity].
Qed.

Lemma effectiveVolume_loud (rms : R) :
  volumeThreshold < rms -> effectiveVolume rms = rms.
Proof.
  intros H. unfold effectiveVolume.
  destruct (Rlt_dec volumeThreshold rms); [reflexivity | lra].
Qed.

Lemma frameOf_static canvas img coords (d : R) :
  d <= 1 -> frameOf canvas img coords d = staticFrame canvas.
Proof.
  intros H. unfold frameOf. destruct (Rlt_dec 1 d); [lra | reflexivity].
Qed.

Lemma frameOf_jaw canvas img coords (d : R) :
  1 < d -> frameOf canvas img coords d = jawFrame canvas img coords d.
Proof.
  intros H. unfold frameOf. destruct (Rlt_dec 1 d); [reflexivity | lra].
Qed.

(** Evaluation of a concrete session that leaves the arithmetic alone. *)
Ltac evaluate :=
  lazy -[IZR Rplus Rmult Rminus Rdiv Ropp Rinv Rmax sqrt Rlt_dec Rle_dec
         rmsOf getByteTimeDomainData smooth effectiveVolume mouthOpennessOf
         frameOf staticFrame jawFrame silence fullScale someMouth
         ANALYSER_FFT_SIZE].

Lemma fft_size_positive : fftSize (mkAnalyser ANALYSER_FFT_SIZE) <> 0%nat.
Proof. discriminate. Qed.

Lemma speakingState_smoothed : smoothedVolumeRef speakingState = 0.
Proof.
  evaluate.
  rewrite (rmsOf_silence _ fft_size_positive).
  rewrite effectiveVolume_quiet by (unfold volumeThreshold; lra).
  unfold smooth, smoothingFactor. lra.
Qed.

Lemma loudFrame_smoothed : smoothedVolumeRef loudFrame = 0.25.
Proof.
  evaluate.
  rewrite (rmsOf_silence _ fft_size_positive).
  rewrite (rmsOf_fullScale _ fft_size_positive).
  rewrite effectiveVolume_quiet by (unfold volumeThreshold; lra).
  rewrite effectiveVolume_loud by (unfold volumeThreshold; lra).
  unfold smooth, smoothingFactor. lra.
Qed.

Lemma loudFrame_guards :
  analyserNodeRef loudFrame = Some (mkAnalyser ANALYSER_FFT_SIZE)
  /\ imageRef loudFrame = Some (mkImage 400 400)
  /\ exists canvas,
       canvasRef loudFrame = Some canvas
       /\ hasContext2d canvas = true
       /\ canvasHeight canvas = 400 * (400 / 400).
Proof.
  split; [evaluate; reflexivity|].
  split; [evaluate; reflexivity|].
  eexists. split; [evaluate; reflexivity|]. split; reflexivity.
Qed.

Lemma loudFrame_unfold :
  loudFrame
  = animateMouth (Some someMouth) fullScale (cancelAnimationFrame 1 speakingState).
Proof.
  unfold loudFrame, onAnimationFrame.
  assert (E : existsb (N.eqb 1) (pendingFrames speakingState) = true)
    by (vm_compute; reflexivity).
  now rewrite E.
Qed.

Lemma quietFrame_unfold :
  quietFrame
  = animateMouth (Some someMouth) silence (cancelAnimationFrame 2 loudFrame).
Proof.
  unfold quietFrame, onAnimationFrame.
  assert (E : existsb (N.eqb 2) (pendingFrames loudFrame) = true)
    by (vm_compute; reflexivity).
  now rewrite E.
Qed.

Lemma cancelAnimationFrame_view id (s : State) :
  analyserNodeRef (cancelAnimationFrame id s) = analyserNodeRef s
  /\ canvasRef (cancelAnimationFrame id s) = canvasRef s
  /\ imageRef (cancelAnimationFrame id s) = imageRef s
  /\ smoothedVolumeRef (cancelAnimationFrame id s) = smoothedVolumeRef s.
Proof. destruct s. repeat split. Qed.

(** The canvas before and after the loud frame. *)
Lemma speakingState_canvas :
  analyserNodeRef speakingState = Some (mkAnalyser ANALYSER_FFT_SIZE)
  /\ imageRef speakingState = Some (mkImage 400 400)
  /\ exists frame, canvasRef speakingState = Some (canvasShowing frame).
Proof.
  split; [evaluate; reflexivity|].
  split; [evaluate; reflexivity|].
  eexists. evaluate. reflexivity.
Qed.

Lemma loudFrame_canvas :
  canvasRef loudFrame
  = Some (canvasShowing
            (jawFrame (canvasShowing []) (mkImage 400 400) someMouth 56)).
Proof.
  rewrite loudFrame_unfold.
  destruct speakingState_canvas as (Ha & Hi & frame & Hc).
  destruct (cancelAnimationFrame_view 1 speakingState) as (Ea & Ec & Ei & Es).
  rewrite <- Ea in Ha. rewrite <- Ec in Hc. rewrite <- Ei in Hi.
  destruct (animateMouth_frame someMouth fullScale _ _ _ _ Ha Hc Hi eq_refl)
    as (_ & Hd & _).
  rewrite Hd. rewrite Es, speakingState_smoothed.
  rewrite (rmsOf_fullScale _ fft_size_positive).
  rewrite effectiveVolume_loud by (unfold volumeThreshold; lra).
  assert (E : mouthOpennessOf (canvasShowing frame) someMouth (smooth 0 1) = 56).
  { unfold mouthOpennessOf, maxOpennessOf, dHeightOf, smooth, smoothingFactor.
    cbn. lra. }
  rewrite E. rewrite frameOf_jaw by lra. reflexivity.
Qed.

(** C6 (as amended): in a frame whose instantaneous RMS loudness is not
    above the noise floor (0.02), the loudness fed to the smoother is
    zero, so the smoothed loudness is 0.75 times its previous value and
    the frame's displacement is computed from that.  The displacement is
    zero when the smoothed loudness was already zero, and the unmodified
    static portrait is drawn whenever the displacement is at most one
    pixel; otherwise the jaw is drawn displaced. *)
Theorem quiet_frame_decays :
  forall coords wave (s : State) analyser canvas img,
    analyserNodeRef s = Some analyser ->
    canvasRef s = Some canvas ->
    imageRef s = Some img ->
    hasContext2d canvas = true ->
    rmsOf (getByteTimeDomainData analyser wave) <= volumeThreshold ->
    let s' := animateMouth (Some coords) wave s in
    let displacement := mouthOpennessOf canvas coords (smoothedVolumeRef s') in
    smoothedVolumeRef s' = 0.75 * smoothedVolumeRef s
    /\ (smoothedVolumeRef s = 0 -> displacement = 0)
    /\ (displacement <= 1 ->
        canvasRef s' = Some (setDrawn (staticFrame canvas) canvas))
    /\ (1 < displacement ->
        canvasRef s'
        = Some (setDrawn (jawFrame canvas img coords displacement) canvas)).
Proof.
  intros coords wave s analyser canvas img Ha Hc Hi Hx Hq s' displacement.
  destruct (animateMouth_frame coords wave s analyser canvas img Ha Hc Hi Hx)
    as (Hs & Hd & _).
  rewrite (effectiveVolume_quiet _ Hq) in Hs, Hd.
  assert (E : smooth (smoothedVolumeRef s) 0 = 0.75 * smoothedVolumeRef s).
  { unfold smooth, smoothingFactor. lra. }
  rewrite E in Hs, Hd. fold s' in Hs, Hd.
  subst displacement. rewrite Hs.
  repeat split.
  - intros H0. rewrite H0. unfold mouthOpennessOf. lra.
  - intros Hle. rewrite Hd. now rewrite frameOf_static.
  - intros Hlt. rewrite Hd. now rewrite frameOf_jaw.
Qed.

Lemma quiet_frame_decays_witness :
  let s' :=
    animateMouth (Some someMouth) silence
      (cancelAnimationFrame 1 speakingState) in
  smoothedVolumeRef s' = 0.75 * 0
  /\ exists frame,
       canvasRef s'
       = Some (setDrawn (staticFrame (canvasShowing frame)) (canvasShowing frame)).
Proof.
  intros s'.
  destruct speakingState_canvas as (Ha & Hi & frame & Hc).
  destruct (cancelAnimationFrame_view 1 speakingState) as (Ea & Ec & Ei & Es).
  rewrite <- Ea in Ha. rewrite <- Ec in Hc. rewrite <- Ei in Hi.
  assert (Hq : rmsOf (getByteTimeDomainData (mkAnalyser ANALYSER_FFT_SIZE) silence)
               <= volumeThreshold).
  { rewrite (rmsOf_silence _ fft_size_positive). unfold volumeThreshold. lra. }
  destruct (quiet_frame_decays someMouth silence _ _ _ _ Ha Hc Hi eq_refl Hq)
    as (H1 & H2 & H3 & _).
  rewrite Es, speakingState_smoothed in H1, H2.
  subst s'. split; [exact H1|].
  exists frame. apply H3. rewrite (H2 eq_refl). lra.
Defined.

(** C6 (as stated) fails: in the silent frame that follows a loud one
    the smoothed loudness is still 0.1875, the displacement 42 pixels, and
    the jaw is drawn displaced. *)
Lemma quiet_frame_still_displaced :
  ~ (forall coords wave (s : State) analyser canvas img,
        analyserNodeRef s = Some analyser ->
        canvasRef s = Some canvas ->
        imageRef s = Some img ->
        hasContext2d canvas = true ->
        rmsOf (getByteTimeDomainData analyser wave) < volumeThreshold ->
        let s' := animateMouth (Some coords) wave s in
        mouthOpennessOf canvas coords (smoothedVolumeRef s') = 0
        /\ canvasRef s' = Some (setDrawn (staticFrame canvas) canvas)).
Proof.
  intros H.
  destruct loudFrame_guards as (Ha & Hi & canvas & Hc & Hx & Hh).
  assert (Hq : rmsOf (getByteTimeDomainData (mkAnalyser ANALYSER_FFT_SIZE) silence)
               < volumeThreshold).
  { rewrite (rmsOf_silence _ fft_size_positive). unfold volumeThreshold. lra. }
  destruct (H someMouth silence loudFrame _ canvas _ Ha Hc Hi Hx Hq) as (H0 & _).
  destruct (animateMouth_frame someMouth silence loudFrame _ canvas _ Ha Hc Hi Hx)
    as (Hs & _).
  rewrite Hs, loudFrame_smoothed in H0.
  rewrite (rmsOf_silence _ fft_size_positive) in H0.
  rewrite effectiveVolume_quiet in H0 by (unfold volumeThreshold; lra).
  unfold mouthOpennessOf, maxOpennessOf, dHeightOf, smooth, smoothingFactor in H0.
  rewrite Hh in H0. cbn in H0. lra.
Qed.

(** The frame drawn in the silent frame after the loud one. *)
Lemma quietFrame_canvas :
  canvasRef quietFrame
  = Some (canvasShowing
            (jawFrame (canvasShowing []) (mkImage 400 400) someMouth 42)).
Proof.
  rewrite quietFrame_unfold.
  destruct loudFrame_guards as (Ha & Hi & _).
  pose proof loudFrame_canvas as Hc.
  destruct (cancelAnimationFrame_view 2 loudFrame) as (Ea & Ec & Ei & Es).
  rewrite <- Ea in Ha. rewrite <- Ec in Hc. rewrite <- Ei in Hi.
  destruct (animateMouth_frame someMouth silence _ _ _ _ Ha Hc Hi eq_refl)
    as (_ & Hd & _).
  rewrite Hd. rewrite Es, loudFrame_smoothed.
  rewrite (rmsOf_silence _ fft_size_positive).
  rewrite effectiveVolume_quiet by (unfold volumeThreshold; lra).
  match goal with
  | |- context [mouthOpennessOf ?c ?m ?v] =>
      assert (E : mouthOpennessOf c m v = 42)
  end.
  { unfold mouthOpennessOf, maxOpennessOf, dHeightOf, smooth, smoothingFactor.
    cbn. lra. }
  rewrite E. rewrite frameOf_jaw by lra. reflexivity.
Qed.

(** C7: the loud frame.  With a mouth region 10% of a 400 pixel canvas
    (40 pixels), the cap of 0.7 times the region's height is 28 pixels;
    after one full-scale frame the smoothed loudness is 0.25 and the jaw
    is drawn 56 pixels down. *)
Theorem jaw_displacement_exceeds_cap :
  let canvas := canvasShowing [] in
  dHeightOf canvas someMouth = 40
  /\ maxOpennessOf canvas someMouth = 28
  /\ smoothedVolumeRef loudFrame = 0.25
  /\ mouthOpennessOf canvas someMouth (smoothedVolumeRef loudFrame) = 56
  /\ canvasRef loudFrame
     = Some (canvasShowing (jawFrame canvas (mkImage 400 400) someMouth 56))
  /\ 0.7 * dHeightOf canvas someMouth
     < mouthOpennessOf canvas someMouth (smoothedVolumeRef loudFrame).
Proof.
  cbv zeta. rewrite loudFrame_smoothed.
  unfold mouthOpennessOf, maxOpennessOf, dHeightOf. cbn.
  repeat split; try lra.
  apply loudFrame_canvas.
Qed.

(** One frame at a loudness [c] above the noise floor. *)
Lemma loud_frame_step coords wave (s : State) analyser canvas img c :
  analyserNodeRef s = Some analyser ->
  canvasRef s = Some canvas ->
  imageRef s = Some img ->
  hasContext2d canvas = true ->
  volumeThreshold < c ->
  heldAt analyser c wave ->
  let s' := animateMouth (Some coords) wave s in
  smoothedVolumeRef s' = smooth (smoothedVolumeRef s) c
  /\ analyserNodeRef s' = Some analyser
  /\ imageRef s' = Some img
  /\ exists canvas',
       canvasRef s' = Some canvas' /\ hasContext2d canvas' = true.
Proof.
  intros Ha Hc Hi Hx Hlt Hw s'.
  destruct (animateMouth_frame coords wave s analyser canvas img Ha Hc Hi Hx)
    as (Hs & Hd & Ha' & Hi').
  unfold heldAt in Hw. rewrite Hw in Hs. rewrite Hw in Hd.
  rewrite (effectiveVolume_loud _ Hlt) in Hs.
  repeat split; try assumption.
  eexists. split; [exact Hd | exact Hx].
Qed.

Lemma smooth_distance (v c : R) :
  smooth v c - c = 3 / 4 * (v - c).
Proof. unfold smooth, smoothingFactor. lra. Qed.

(** After [n] frames held at [c] the distance to [c] is [(3/4)^n] times
    what it was, and the guards of the animation still hold. *)
Lemma runFrames_held coords analyser img c waves :
  volumeThreshold < c ->
  Forall (heldAt analyser c) waves ->
  forall (s : State) canvas,
    analyserNodeRef s = Some analyser ->
    canvasRef s = Some canvas ->
    imageRef s = Some img ->
    hasContext2d canvas = true ->
    let s' := runFrames (Some coords) waves s in
    smoothedVolumeRef s' - c
    = (3 / 4) ^ List.length waves * (smoothedVolumeRef s - c)
    /\ analyserNodeRef s' = Some analyser
    /\ imageRef s' = Some img
    /\ exists canvas',
         canvasRef s' = Some canvas' /\ hasContext2d canvas' = true.
Proof.
  intros Hlt Hw. induction waves as [|wave rest IH]; intros s canvas Ha Hc Hi Hx.
  - cbn. repeat split; try assumption; [lra|]. now exists canvas.
  - apply Forall_cons_iff in Hw. destruct Hw as [Hw1 Hw2].
    destruct (loud_frame_step coords wave s analyser canvas img c
                Ha Hc Hi Hx Hlt Hw1) as (Hs & Ha1 & Hi1 & canvas1 & Hc1 & Hx1).
    destruct (IH Hw2 _ canvas1 Ha1 Hc1 Hi1 Hx1) as (Hs2 & Ha2 & Hi2 & Hc2).
    unfold runFrames in *. cbn [fold_left List.length].
    repeat split; try assumption.
    rewrite Hs2, Hs.
    replace (smooth (smoothedVolumeRef s) c - c)
      with (3 / 4 * (smoothedVolumeRef s - c)) by (symmetry; apply smooth_distance).
    cbn [pow]. lra.
Qed.

(** The recurrence in exact arithmetic, as the model on real numbers
    computes it.  With the effective loudness held at a constant value
    [c] above the threshold, every frame replaces the smoothed value [v]
    by [v * (1 - 0.25) + c * 0.25]; the distance to [c] strictly
    decreases, or stays zero, the smoothed value stays on its side of
    [c]; after [n] frames the distance is [(3/4)^n] times the initial
    one.  The program computes the recurrence in binary64, where the
    strict decrease and the [(3/4)^n] law hold only up to rounding: that
    is the subject of the next section. *)
Lemma exact_smoothing_converges :
  forall coords (s : State) analyser canvas img c,
    analyserNodeRef s = Some analyser ->
    canvasRef s = Some canvas ->
    imageRef s = Some img ->
    hasContext2d canvas = true ->
    volumeThreshold < c ->
    (forall waves wave,
        Forall (heldAt analyser c) waves ->
        heldAt analyser c wave ->
        let before := runFrames (Some coords) waves s in
        let v := smoothedVolumeRef before in
        let v' := smoothedVolumeRef (animateMouth (Some coords) wave before) in
        v' = v * (1 - 0.25) + c * 0.25
        /\ (v = c -> v' = c)
        /\ (v <> c -> Rabs (v' - c) < Rabs (v - c))
        /\ (v <= c -> v <= v' <= c)
        /\ (c <= v -> c <= v' <= v))
    /\ (forall waves,
          Forall (heldAt analyser c) waves ->
          Rabs (smoothedVolumeRef (runFrames (Some coords) waves s) - c)
          = (3 / 4) ^ List.length waves * Rabs (smoothedVolumeRef s - c))
    /\ (forall eps,
          0 < eps ->
          exists N,
            forall waves,
              Forall (heldAt analyser c) waves ->
              (N <= List.length waves)%nat ->
              Rabs (smoothedVolumeRef (runFrames (Some coords) waves s) - c) < eps).
Proof.
  intros coords s analyser canvas img c Ha Hc Hi Hx Hlt.
  assert (Hclosed : forall waves,
             Forall (heldAt analyser c) waves ->
             Rabs (smoothedVolumeRef (runFrames (Some coords) waves s) - c)
             = (3 / 4) ^ List.length waves * Rabs (smoothedVolumeRef s - c)).
  { intros waves Hw.
    destruct (runFrames_held coords analyser img c waves Hlt Hw s canvas
                Ha Hc Hi Hx) as (Hs & _).
    rewrite Hs, Rabs_mult. f_equal.
    apply Rabs_pos_eq. apply pow_le. lra. }
  split; [|split].
  - intros waves wave Hw Hw1 before v v'.
    destruct (runFrames_held coords analyser img c waves Hlt Hw s canvas
                Ha Hc Hi Hx) as (_ & Ha1 & Hi1 & canvas1 & Hc1 & Hx1).
    destruct (loud_frame_step coords wave before analyser canvas1 img c
                Ha1 Hc1 Hi1 Hx1 Hlt Hw1) as (Hs & _).
    assert (E : v' = v * (1 - 0.25) + c * 0.25).
    { subst v v'. rewrite Hs. reflexivity. }
    split; [exact E|]. rewrite E.
    repeat split; intros; try lra.
    unfold Rabs.
    destruct (Rcase_abs (v * (1 - 0.25) + c * 0.25 - c));
      destruct (Rcase_abs (v - c)); lra.
  - exact Hclosed.
  - intros eps Heps.
    destruct (Req_dec (smoothedVolumeRef s) c) as [Heq | Hne].
    + exists 0%nat. intros waves Hw _. rewrite (Hclosed waves Hw), Heq.
      replace (c - c) with 0 by lra. rewrite Rabs_R0. lra.
    + assert (Hd : 0 < Rabs (smoothedVolumeRef s - c)).
      { apply Rabs_pos_lt. lra. }
      assert (H34 : Rabs (3 / 4) < 1).
      { rewrite Rabs_pos_eq; lra. }
      destruct (pow_lt_1_zero (3 / 4) H34 (eps / Rabs (smoothedVolumeRef s - c)))
        as (N & HN).
      { apply Rdiv_lt_0_compat; assumption. }
      exists N. intros waves Hw Hlen. rewrite (Hclosed waves Hw).
      specialize (HN (List.length waves) Hlen).
      rewrite Rabs_pos_eq in HN by (apply pow_le; lra).
      apply (Rmult_lt_compat_r _ _ _ Hd) in HN.
      unfold Rdiv in HN. rewrite Rmult_assoc, Rinv_l in HN by lra.
      lra.
Qed.

(** ** The smoothed loudness in binary64 *)

Section Binary64Smoothing.

Import Binary64.
Local Open Scope Z_scope.

(** *** Rounding to the nearest integer, ties to even *)

Lemma pow2_pos (n : Z) : 0 <= n -> 0 < 2 ^ n.
Proof. intros. apply Z.pow_pos_nonneg; lia. Qed.

Lemma pow2_add (a b : Z) : 0 <= a -> 0 <= b -> 2 ^ (a + b) = 2 ^ a * 2 ^ b.
Proof. intros. apply Z.pow_add_r; assumption. Qed.

Lemma pow2_le (a b : Z) : 0 <= a <= b -> 2 ^ a <= 2 ^ b.
Proof. intros. apply Z.pow_le_mono_r; lia. Qed.

Lemma pow2_lt (a b : Z) : 0 <= a < b -> 2 ^ a < 2 ^ b.
Proof. intros. apply Z.pow_lt_mono_r; lia. Qed.

Lemma rne_bounds (N n : Z) :
  0 <= n -> N / 2 ^ n <= rne N n <= N / 2 ^ n + 1.
Proof.
  intros Hn. unfold rne.
  destruct (2 * (N mod 2 ^ n) ?= 2 ^ n); [destruct (Z.even _)| |]; lia.
Qed.

(** Rounding to the nearest integer is monotone. *)
Lemma rne_mono (N1 N2 n : Z) :
  0 <= n -> N1 <= N2 -> rne N1 n <= rne N2 n.
Proof.
  intros Hn Hle.
  pose proof (pow2_pos n Hn) as Hp.
  pose proof (Z.div_le_mono N1 N2 (2 ^ n) Hp Hle) as Hq.
  destruct (Z.eq_dec (N1 / 2 ^ n) (N2 / 2 ^ n)) as [E | Hne].
  - assert (Hr : N1 mod 2 ^ n <= N2 mod 2 ^ n).
    { pose proof (Z.div_mod N1 (2 ^ n)). pose proof (Z.div_mod N2 (2 ^ n)).
      rewrite E in *. nia. }
    unfold rne. rewrite E.
    destruct (Z.compare_spec (2 * (N1 mod 2 ^ n)) (2 ^ n));
      destruct (Z.compare_spec (2 * (N2 mod 2 ^ n)) (2 ^ n));
      destruct (Z.even (N2 / 2 ^ n)); lia.
  - pose proof (rne_bounds N1 n Hn). pose proof (rne_bounds N2 n Hn). lia.
Qed.

Lemma rne_exact (q n : Z) : 0 <= n -> rne (q * 2 ^ n) n = q.
Proof.
  intros Hn. pose proof (pow2_pos n Hn) as Hp. unfold rne.
  rewrite Z.div_mul by lia. rewrite Z.mod_mul by lia.
  destruct (Z.compare_spec (2 * 0) (2 ^ n)); lia.
Qed.

Lemma rne_scale (N n j : Z) :
  0 <= n -> 0 <= j -> rne (N * 2 ^ j) (n + j) = rne N n.
Proof.
  intros Hn Hj.
  pose proof (pow2_pos n Hn) as Hp. pose proof (pow2_pos j Hj) as Hpj.
  unfold rne. rewrite pow2_add by assumption.
  rewrite Z.div_mul_cancel_r by lia.
  rewrite Z.mul_mod_distr_r by lia.
  replace (2 * (N mod 2 ^ n * 2 ^ j)) with (2 * (N mod 2 ^ n) * 2 ^ j) by ring.
  rewrite <- (Zmult_compare_compat_r (2 * (N mod 2 ^ n)) (2 ^ n) (2 ^ j)) by lia.
  reflexivity.
Qed.

(** The same dyadic number rounds to the same integer. *)
Lemma rne_ext (M1 n1 M2 n2 : Z) :
  0 <= n1 -> 0 <= n2 -> M1 * 2 ^ n2 = M2 * 2 ^ n1 -> rne M1 n1 = rne M2 n2.
Proof.
  intros H1 H2 E.
  rewrite <- (rne_scale M1 n1 n2 H1 H2), <- (rne_scale M2 n2 n1 H2 H1).
  rewrite E. f_equal. lia.
Qed.

Lemma digits_0 : digits 0 = 0.
Proof. reflexivity. Qed.

(** A positive number of [d] digits lies in [[2^(d-1), 2^d)]. *)
Lemma digits_spec (N : Z) : 0 < N -> 2 ^ (digits N - 1) <= N < 2 ^ digits N.
Proof.
  intros H. unfold digits. destruct (Z.eqb_spec N 0); [lia|].
  replace (Z.log2 N + 1 - 1) with (Z.log2 N) by lia.
  replace (Z.log2 N + 1) with (Z.succ (Z.log2 N)) by lia.
  apply Z.log2_spec. exact H.
Qed.

Lemma digits_unique (N d : Z) : 2 ^ (d - 1) <= N < 2 ^ d -> 1 <= d -> digits N = d.
Proof.
  intros H Hd. assert (0 < N) by (pose proof (pow2_pos (d - 1)); lia).
  unfold digits. destruct (Z.eqb_spec N 0); [lia|].
  rewrite (Z.log2_unique N (d - 1)); [lia|lia|].
  replace (Z.succ (d - 1)) with d by lia. exact H.
Qed.

Lemma digits_pos (N : Z) : 0 < N -> 1 <= digits N.
Proof.
  intros H. unfold digits. destruct (Z.eqb_spec N 0); [lia|].
  pose proof (Z.log2_nonneg N). lia.
Qed.

Lemma digits_nonneg (N : Z) : 0 <= digits N.
Proof.
  unfold digits. destruct (Z.eqb_spec N 0); [lia|].
  pose proof (Z.log2_nonneg N). lia.
Qed.

Lemma digits_mono (N1 N2 : Z) : 0 <= N1 <= N2 -> digits N1 <= digits N2.
Proof.
  intros H. unfold digits.
  destruct (Z.eqb_spec N1 0); destruct (Z.eqb_spec N2 0); try lia.
  - pose proof (Z.log2_nonneg N2). lia.
  - pose proof (Z.log2_le_mono N1 N2). lia.
Qed.

Lemma digits_shift (N j : Z) : 0 < N -> 0 <= j -> digits (N * 2 ^ j) = digits N + j.
Proof.
  intros HN Hj. pose proof (digits_spec N HN) as H.
  pose proof (digits_pos N HN) as Hd.
  pose proof (pow2_pos j Hj) as Hp.
  apply digits_unique; [|lia].
  replace (digits N + j - 1) with (digits N - 1 + j) by lia.
  rewrite !pow2_add by lia. nia.
Qed.

Lemma digits_lt (N d : Z) : 0 <= N -> 0 <= d -> N < 2 ^ d -> digits N <= d.
Proof.
  intros HN Hd H.
  destruct (Z.eq_dec N 0) as [->|]; [rewrite digits_0; lia|].
  pose proof (digits_spec N ltac:(lia)) as [H1 _].
  destruct (Z_le_gt_dec (digits N) d); [assumption|].
  pose proof (pow2_le d (digits N - 1) ltac:(lia)). lia.
Qed.

Lemma below_pow (N n : Z) :
  0 <= N -> 0 <= n -> digits N - 53 <= n -> N / 2 ^ n < 2 ^ 53.
Proof.
  intros HN Hn Hd. pose proof (pow2_pos n Hn) as Hp.
  apply Z.div_lt_upper_bound; [lia|].
  destruct (Z.eq_dec N 0) as [->|Hne]; [pose proof (pow2_pos 53); lia|].
  pose proof (digits_spec N ltac:(lia)) as [_ H].
  pose proof (digits_pos N ltac:(lia)).
  rewrite <- pow2_add by lia.
  pose proof (pow2_le (digits N) (n + 53) ltac:(lia)). lia.
Qed.

(** *** Rounding to the nearest binary64 number

    It is monotone, leaves binary64 numbers alone, and so never crosses
    one. *)
Lemma roundTo_mono (u N1 N2 : Z) :
  0 <= u -> 0 <= N1 <= N2 -> roundTo u N1 <= roundTo u N2.
Proof.
  intros Hu H. unfold roundTo.
  pose proof (digits_mono N1 N2 H) as Hd.
  set (n1 := Z.max (digits N1 - 53) u). set (n2 := Z.max (digits N2 - 53) u).
  assert (Hn : u <= n1 <= n2) by lia.
  destruct (Z.eq_dec n1 n2) as [E | Hne].
  - rewrite E. apply Z.mul_le_mono_nonneg_r.
    + pose proof (pow2_pos (n2 - u)). lia.
    + apply rne_mono; lia.
  - assert (H2 : n2 = digits N2 - 53) by lia.
    assert (HN2 : 0 < N2).
    { destruct (Z.eq_dec N2 0) as [->|]; [rewrite digits_0 in H2; lia | lia]. }
    pose proof (digits_spec N2 HN2) as [Hlow _].
    assert (Hq2 : 2 ^ 52 <= N2 / 2 ^ n2).
    { apply Z.div_le_lower_bound; [apply pow2_pos; lia|].
      rewrite Z.mul_comm, <- pow2_add by lia.
      replace (52 + n2) with (digits N2 - 1) by lia. exact Hlow. }
    pose proof (below_pow N1 n1 ltac:(lia) ltac:(lia) ltac:(lia)) as Hq1.
    pose proof (rne_bounds N1 n1 ltac:(lia)) as B1.
    pose proof (rne_bounds N2 n2 ltac:(lia)) as B2.
    pose proof (pow2_pos (n1 - u) ltac:(lia)) as P1.
    pose proof (pow2_pos (n2 - u) ltac:(lia)) as P2.
    assert (P12 : 2 * 2 ^ (n1 - u) <= 2 ^ (n2 - u)).
    { replace (2 * 2 ^ (n1 - u)) with (2 ^ (n1 - u + 1))
        by (rewrite pow2_add by lia; ring).
      apply pow2_le. lia. }
    assert (E53 : 2 ^ 53 = 2 * 2 ^ 52) by reflexivity.
    apply Z.le_trans with (2 ^ 53 * 2 ^ (n1 - u)).
    + apply Z.mul_le_mono_nonneg_r; lia.
    + apply Z.le_trans with (2 ^ 52 * 2 ^ (n2 - u)).
      * rewrite E53. nia.
      * apply Z.mul_le_mono_nonneg_r; lia.
Qed.

(** A mantissa below [2^53] with an exponent of at least -1074 is not
    rounded. *)
Lemma roundTo_exact (u m t : Z) :
  0 <= u -> 0 <= m < 2 ^ 53 -> 0 <= t -> roundTo u (m * 2 ^ (t + u)) = m * 2 ^ t.
Proof.
  intros Hu Hm Ht. unfold roundTo.
  destruct (Z.eq_dec m 0) as [-> | Hne].
  - rewrite Z.mul_0_l. rewrite digits_0.
    replace (Z.max (0 - 53) u) with u by lia.
    pose proof (rne_exact 0 u ltac:(lia)) as E. rewrite Z.mul_0_l in E.
    rewrite E. reflexivity.
  - rewrite digits_shift by lia.
    pose proof (digits_lt m 53 ltac:(lia) ltac:(lia) ltac:(lia)) as Hd.
    set (n := Z.max (digits m + (t + u) - 53) u).
    assert (Hn : u <= n <= t + u) by lia.
    replace (m * 2 ^ (t + u)) with (m * 2 ^ (t + u - n) * 2 ^ n).
    2:{ rewrite <- Z.mul_assoc, <- pow2_add by lia. do 2 f_equal. lia. }
    rewrite rne_exact by lia.
    rewrite <- Z.mul_assoc, <- pow2_add by lia. do 2 f_equal. lia.
Qed.

Lemma representable_fix (V : Z) : representable V -> roundTo 0 V = V.
Proof.
  intros (m & t & Hm & Ht & ->).
  pose proof (roundTo_exact 0 m t ltac:(lia) Hm Ht) as H.
  now rewrite Z.add_0_r in H.
Qed.

Lemma representable_scaled (u V : Z) :
  0 <= u -> representable V -> roundTo u (V * 2 ^ u) = V.
Proof.
  intros Hu (m & t & Hm & Ht & ->).
  rewrite <- Z.mul_assoc, <- pow2_add by lia.
  now apply roundTo_exact.
Qed.

Lemma representable_nonneg (V : Z) : representable V -> 0 <= V.
Proof.
  intros (m & t & Hm & Ht & ->). pose proof (pow2_pos t Ht). nia.
Qed.

Lemma roundTo_representable (u N : Z) :
  0 <= u -> 0 <= N -> representable (roundTo u N).
Proof.
  intros Hu HN. unfold roundTo.
  set (n := Z.max (digits N - 53) u).
  pose proof (below_pow N n HN ltac:(lia) ltac:(lia)) as Hq.
  pose proof (rne_bounds N n ltac:(lia)) as B.
  assert (Hq0 : 0 <= N / 2 ^ n).
  { apply Z.div_pos; [lia | apply pow2_pos; lia]. }
  destruct (Z.eq_dec (rne N n) (2 ^ 53)) as [E | Hne].
  - exists (2 ^ 52), (n - u + 1). repeat split; try lia.
    rewrite E, pow2_add by lia. change (2 ^ 53) with (2 ^ 52 * 2 ^ 1). ring.
  - exists (rne N n), (n - u). repeat split; lia.
Qed.

Lemma roundTo_ge (u a N : Z) :
  0 <= u -> representable a -> a * 2 ^ u <= N -> a <= roundTo u N.
Proof.
  intros Hu Ha H.
  rewrite <- (representable_scaled u a Hu Ha) at 1.
  apply roundTo_mono; [lia|].
  pose proof (representable_nonneg a Ha). pose proof (pow2_pos u Hu). nia.
Qed.

Lemma roundTo_le (u b N : Z) :
  0 <= u -> representable b -> 0 <= N <= b * 2 ^ u -> roundTo u N <= b.
Proof.
  intros Hu Hb H.
  rewrite <- (representable_scaled u b Hu Hb).
  apply roundTo_mono; lia.
Qed.

(** Rounding to the nearest integer or quarter, by cases. *)
Lemma rne_half (x : Z) :
  2 * rne x 1 = x \/ (2 * rne x 1 = x - 1 /\ x mod 4 = 1)
  \/ (2 * rne x 1 = x + 1 /\ x mod 4 = 3).
Proof.
  unfold rne. change (2 ^ 1) with 2.
  pose proof (Zmod_even (x / 2)) as He.
  destruct (Z.compare_spec (2 * (x mod 2)) 2);
    [destruct (Z.even (x / 2))| |];
    Z.to_euclidean_division_equations; lia.
Qed.

Lemma rne_quarter (x : Z) :
  (4 * rne x 2 = x /\ x mod 4 = 0)
  \/ (4 * rne x 2 = x - 1 /\ x mod 4 = 1)
  \/ (4 * rne x 2 = x + 1 /\ x mod 4 = 3)
  \/ (4 * rne x 2 = x - 2 /\ x mod 8 = 2)
  \/ (4 * rne x 2 = x + 2 /\ x mod 8 = 6).
Proof.
  unfold rne. change (2 ^ 2) with 4.
  pose proof (Zmod_even (x / 4)) as He.
  destruct (Z.compare_spec (2 * (x mod 4)) 4);
    [destruct (Z.even (x / 4))| |];
    Z.to_euclidean_division_equations; lia.
Qed.

(** Smoothing a value toward itself returns it: for a normal number
    [m * 2^t] two binary places above the smallest exponent. *)
Lemma smooth_fixed_point (m t : Z) :
  2 ^ 52 <= m < 2 ^ 53 -> 2 <= t ->
  let V := m * 2 ^ t in
  roundTo 0 (roundTo 2 (3 * V) + roundTo 2 V) = V.
Proof.
  intros Hm Ht V.
  assert (P52 : 2 ^ 52 = 4503599627370496) by reflexivity.
  assert (P53 : 2 ^ 53 = 9007199254740992) by reflexivity.
  assert (P54 : 2 ^ 54 = 18014398509481984) by reflexivity.
  assert (P55 : 2 ^ 55 = 36028797018963968) by reflexivity.
  assert (Pt : 0 < 2 ^ (t - 2)) by (apply pow2_pos; lia).
  (* a quarter of V is exact *)
  assert (E1 : roundTo 2 V = m * 2 ^ (t - 2)).
  { subst V. replace t with (t - 2 + 2) at 1 by lia.
    apply roundTo_exact; lia. }
  rewrite E1.
  (* three quarters of V *)
  assert (E3 : exists a, roundTo 2 (3 * V) = a * 2 ^ (t - 2)
                         /\ (m * 2 ^ t - 0 = m * 2 ^ t)
                         /\ ((a = 2 * rne (3 * m) 1 /\ 3 * m < 2 ^ 54)
                             \/ (a = 4 * rne (3 * m) 2 /\ 2 ^ 54 <= 3 * m))).
  { subst V. unfold roundTo.
    replace (3 * (m * 2 ^ t)) with (3 * m * 2 ^ t) by ring.
    rewrite digits_shift by lia.
    destruct (Z_lt_le_dec (3 * m) (2 ^ 54)) as [Hlt | Hge].
    - rewrite (digits_unique (3 * m) 54) by lia.
      replace (Z.max (54 + t - 53) 2) with (1 + t) by lia.
      rewrite rne_scale by lia.
      exists (2 * rne (3 * m) 1). split; [|split; [lia|left; split; [reflexivity|lia]]].
      replace (1 + t - 2) with (1 + (t - 2)) by lia.
      rewrite pow2_add by lia. change (2 ^ 1) with 2. ring.
    - rewrite (digits_unique (3 * m) 55) by lia.
      replace (Z.max (55 + t - 53) 2) with (2 + t) by lia.
      rewrite rne_scale by lia.
      exists (4 * rne (3 * m) 2). split; [|split; [lia|right; split; [reflexivity|lia]]].
      replace (2 + t - 2) with (2 + (t - 2)) by lia.
      rewrite pow2_add by lia. change (2 ^ 2) with 4. ring. }
  destruct E3 as (a & -> & _ & Ha).
  replace (a * 2 ^ (t - 2) + m * 2 ^ (t - 2)) with ((a + m) * 2 ^ (t - 2)) by ring.
  assert (Hc : 2 ^ 54 <= a + m < 2 ^ 55 /\ rne (a + m) 2 = m).
  { destruct Ha as [[-> Hlt] | [-> Hge]].
    - pose proof (rne_half (3 * m)) as Hh.
      pose proof (rne_quarter (2 * rne (3 * m) 1 + m)) as Hq.
      split; [|Z.to_euclidean_division_equations]; lia.
    - pose proof (rne_quarter (3 * m)) as Hh.
      pose proof (rne_quarter (4 * rne (3 * m) 2 + m)) as Hq.
      split; [|Z.to_euclidean_division_equations]; lia. }
  destruct Hc as [Hr Hq].
  unfold roundTo. rewrite digits_shift by lia.
  rewrite (digits_unique (a + m) 55) by lia.
  replace (Z.max (55 + (t - 2) - 53) 0) with (2 + (t - 2)) by lia.
  rewrite rne_scale by lia. rewrite Hq.
  subst V. do 2 f_equal. lia.
Qed.

Lemma representable_normal (V : Z) :
  representable V -> 2 ^ 54 <= V ->
  exists m t, 2 ^ 52 <= m < 2 ^ 53 /\ 2 <= t /\ V = m * 2 ^ t.
Proof.
  intros (m0 & t0 & Hm & Ht & ->) HV.
  assert (P54 : 0 < 2 ^ 54) by reflexivity.
  pose proof (pow2_pos t0 Ht) as Pt.
  assert (Hm0 : 0 < m0) by nia.
  pose proof (digits_spec m0 Hm0) as [Hlo Hhi].
  pose proof (digits_pos m0 Hm0) as Hd1.
  pose proof (digits_lt m0 53 ltac:(lia) ltac:(lia) ltac:(lia)) as Hd2.
  set (d := digits m0) in *.
  assert (Hdt : 54 < d + t0).
  { destruct (Z_lt_le_dec 54 (d + t0)); [assumption|].
    assert (m0 * 2 ^ t0 < 2 ^ d * 2 ^ t0) by nia.
    rewrite <- pow2_add in H by lia.
    pose proof (pow2_le (d + t0) 54 ltac:(lia)). lia. }
  exists (m0 * 2 ^ (53 - d)), (t0 - (53 - d)).
  pose proof (pow2_pos (53 - d) ltac:(lia)) as Ps.
  repeat split.
  - replace 52 with (d - 1 + (53 - d)) by lia.
    rewrite pow2_add by lia. nia.
  - replace 53 with (d + (53 - d)) at 2 by lia.
    rewrite pow2_add by lia. nia.
  - lia.
  - rewrite <- Z.mul_assoc, <- pow2_add by lia. do 2 f_equal. lia.
Qed.

Lemma smoothGrid_fixed (V : Z) :
  representable V -> 2 ^ 54 <= V -> smoothGrid V V = V.
Proof.
  intros HV Hge.
  destruct (representable_normal V HV Hge) as (m & t & Hm & Ht & ->).
  apply smooth_fixed_point; assumption.
Qed.

Lemma roundTo_nonneg (u N : Z) : 0 <= u -> 0 <= N -> 0 <= roundTo u N.
Proof.
  intros Hu HN. apply representable_nonneg. now apply roundTo_representable.
Qed.

(** Line 149 is monotone in the smoothed value and in the loudness. *)
Lemma smoothGrid_mono (V1 C1 V2 C2 : Z) :
  0 <= V1 <= V2 -> 0 <= C1 <= C2 -> smoothGrid V1 C1 <= smoothGrid V2 C2.
Proof.
  intros HV HC. unfold smoothGrid.
  pose proof (roundTo_mono 2 (3 * V1) (3 * V2) ltac:(lia) ltac:(lia)).
  pose proof (roundTo_mono 2 C1 C2 ltac:(lia) ltac:(lia)).
  pose proof (roundTo_nonneg 2 (3 * V1) ltac:(lia) ltac:(lia)).
  pose proof (roundTo_nonneg 2 C1 ltac:(lia) ltac:(lia)).
  apply roundTo_mono; lia.
Qed.

(** One frame on the grid: the value moves toward [C] and does not
    cross it. *)
Theorem smoothGrid_between (V C : Z) :
  representable V -> representable C -> 2 ^ 56 <= C ->
  (V <= C -> V <= smoothGrid V C <= C)
  /\ (C <= V -> C <= smoothGrid V C <= V).
Proof.
  intros HV HC Hge.
  assert (P : 2 ^ 56 = 4 * 2 ^ 54) by reflexivity.
  assert (P54 : 0 < 2 ^ 54) by reflexivity.
  pose proof (representable_nonneg V HV) as HV0.
  pose proof (smoothGrid_fixed C HC ltac:(lia)) as FC.
  split; intros Hle.
  - split.
    + destruct (Z_le_gt_dec (4 * V) C) as [Hq | Hq].
      * (* the quarter of C alone is already at least V *)
        unfold smoothGrid.
        pose proof (roundTo_representable 2 C ltac:(lia) ltac:(lia)) as HQ.
        pose proof (roundTo_nonneg 2 (3 * V) ltac:(lia) ltac:(lia)) as H3.
        assert (H1 : V <= roundTo 2 C).
        { apply roundTo_ge; [lia | assumption |]. change (2 ^ 2) with 4. lia. }
        apply Z.le_trans with (roundTo 2 C); [exact H1|].
        apply roundTo_ge; [lia | assumption |]. change (2 ^ 0) with 1. lia.
      * rewrite <- (smoothGrid_fixed V HV ltac:(lia)) at 1.
        apply smoothGrid_mono; lia.
    + rewrite <- FC at 2. apply smoothGrid_mono; lia.
  - split.
    + rewrite <- FC at 1. apply smoothGrid_mono; lia.
    + rewrite <- (smoothGrid_fixed V HV ltac:(lia)) at 2.
      apply smoothGrid_mono; lia.
Qed.

Lemma rne_error (N n : Z) :
  0 <= n -> 2 * Z.abs (rne N n * 2 ^ n - N) <= 2 ^ n.
Proof.
  intros Hn. pose proof (pow2_pos n Hn) as Hp.
  pose proof (Z.div_mod N (2 ^ n) ltac:(lia)) as D.
  pose proof (Z.mod_pos_bound N (2 ^ n) Hp) as B.
  unfold rne.
  destruct (Z.compare_spec (2 * (N mod 2 ^ n)) (2 ^ n));
    [destruct (Z.even (N / 2 ^ n))| |]; nia.
Qed.

(** Rounding moves a number by at most half a unit in its last place. *)
Lemma roundTo_error (u N : Z) :
  0 <= u -> 0 <= N ->
  2 ^ 53 * Z.abs (roundTo u N * 2 ^ u - N) <= N + 2 ^ (u + 52).
Proof.
  intros Hu HN. unfold roundTo.
  set (n := Z.max (digits N - 53) u).
  assert (Hn : u <= n) by lia.
  pose proof (rne_error N n ltac:(lia)) as He.
  replace (rne N n * 2 ^ (n - u) * 2 ^ u) with (rne N n * 2 ^ n).
  2:{ rewrite <- Z.mul_assoc, <- pow2_add by lia. do 2 f_equal. lia. }
  assert (Hb : 2 ^ 52 * 2 ^ n <= N + 2 ^ (u + 52)).
  { destruct (Z.eq_dec n u) as [-> | Hne].
    - rewrite pow2_add by lia. lia.
    - assert (En : n = digits N - 53) by lia.
      assert (HN0 : 0 < N).
      { destruct (Z.eq_dec N 0) as [-> |]; [rewrite digits_0 in En; lia | lia]. }
      pose proof (digits_spec N HN0) as [Hlo _].
      rewrite <- pow2_add by lia.
      replace (52 + n) with (digits N - 1) by lia.
      pose proof (pow2_pos (u + 52) ltac:(lia)). lia. }
  change (2 ^ 53) with (2 * 2 ^ 52). nia.
Qed.

(** A value that a frame leaves unchanged is within [C / 2^49] of [C]. *)
Lemma smoothGrid_rest_near (V C : Z) :
  0 <= V -> 2 ^ 56 <= C -> smoothGrid V C = V ->
  Z.abs (V - C) * 2 ^ 49 <= C.
Proof.
  intros HV HC Hfix. unfold smoothGrid in Hfix.
  pose proof (roundTo_error 2 (3 * V) ltac:(lia) ltac:(lia)) as E1.
  pose proof (roundTo_error 2 C ltac:(lia) ltac:(lia)) as E2.
  pose proof (roundTo_nonneg 2 (3 * V) ltac:(lia) ltac:(lia)) as A0.
  pose proof (roundTo_nonneg 2 C ltac:(lia) ltac:(lia)) as B0.
  set (A := roundTo 2 (3 * V)) in *. set (B := roundTo 2 C) in *.
  pose proof (roundTo_error 0 (A + B) ltac:(lia) ltac:(lia)) as E3.
  rewrite Hfix in E3.
  change (2 ^ 0) with 1 in E3. change (2 ^ 2) with 4 in E1, E2.
  change (2 ^ (2 + 52)) with 18014398509481984 in E1, E2.
  change (2 ^ (0 + 52)) with 4503599627370496 in E3.
  change (2 ^ 53) with 9007199254740992 in E1, E2, E3.
  change (2 ^ 56) with 72057594037927936 in HC.
  change (2 ^ 49) with 562949953421312.
  lia.
Qed.

(** *** The operations of the Standard Library's IEEE 754 model

    [Prim2SF] reads a primitive float as a sign, a mantissa and an
    exponent; [SFmul] and [SFadd] are what the primitive operations
    compute ([mul_spec], [add_spec]).  On numbers that are finite and not
    negative they are [roundTo] applied to the exact product and sum. *)

(** [iter_pos] iterates a function. *)
Lemma iter_pos_nat (A : Type) (f : A -> A) (p : positive) (x : A) :
  SpecFloat.iter_pos f p x = Nat.iter (Pos.to_nat p) f x.
Proof.
  revert x. induction p as [p IH | p IH |]; intros x; cbn [SpecFloat.iter_pos].
  - rewrite !IH. rewrite Pos2Nat.inj_xI.
    replace (S (2 * Pos.to_nat p)) with (Pos.to_nat p + (Pos.to_nat p + 1))%nat by lia.
    rewrite !Nat.iter_add. reflexivity.
  - rewrite !IH. rewrite Pos2Nat.inj_xO.
    replace (2 * Pos.to_nat p)%nat with (Pos.to_nat p + Pos.to_nat p)%nat by lia.
    rewrite Nat.iter_add. reflexivity.
  - reflexivity.
Qed.

(** One right shift: the mantissa is halved, the bit shifted out
    becomes the round bit, and the old round bit joins the sticky bit. *)
Lemma shr_1_nonneg (q : Z) (r s : bool) :
  0 <= q ->
  shr_1 (Build_shr_record q r s)
  = Build_shr_record (q / 2) (Z.odd q) (r || s).
Proof.
  intros Hq. destruct q as [|p|p]; [reflexivity| |lia].
  destruct p as [p|p|]; cbn [shr_1].
  - f_equal. rewrite Pos2Z.inj_xI. Z.to_euclidean_division_equations; lia.
  - f_equal. rewrite Pos2Z.inj_xO. Z.to_euclidean_division_equations; lia.
  - reflexivity.
Qed.

(** [k] right shifts of an exact mantissa: the quotient, and the
    position of the remainder relative to one half. *)
Lemma shr_iter (M : Z) (k : nat) :
  0 <= M ->
  let n := Z.of_nat k in
  let mrs := Nat.iter k shr_1 (Build_shr_record M false false) in
  shr_m mrs = M / 2 ^ n
  /\ (k <> 0%nat ->
      shr_r mrs = (2 ^ (n - 1) <=? M mod 2 ^ n)
      /\ shr_s mrs = negb ((M mod 2 ^ n =? 0) || (M mod 2 ^ n =? 2 ^ (n - 1))))
  /\ (k = 0%nat -> shr_r mrs = false /\ shr_s mrs = false).
Proof.
  intros HM. induction k as [|k IH]; intros n mrs.
  - subst mrs n. cbn. split; [|split].
    + change (2 ^ Z.of_nat 0) with 1. now rewrite Z.div_1_r.
    + congruence.
    + now split.
  - cbn zeta in IH. destruct IH as (Hm & Hr & H0).
    subst mrs. rewrite Nat.iter_succ.
    destruct (Nat.iter k shr_1 (Build_shr_record M false false))
      as [q r s] eqn:Eq.
    cbn [shr_m shr_r shr_s] in *.
    assert (Hk : 0 <= Z.of_nat k) by lia.
    pose proof (pow2_pos (Z.of_nat k) Hk) as Pk.
    assert (Hq : 0 <= q) by (subst q; apply Z.div_pos; lia).
    rewrite (shr_1_nonneg q r s Hq). cbn [shr_m shr_r shr_s].
    subst n. rewrite Nat2Z.inj_succ.
    replace (Z.succ (Z.of_nat k) - 1) with (Z.of_nat k) by lia.
    assert (P2 : 2 ^ Z.succ (Z.of_nat k) = 2 * 2 ^ Z.of_nat k).
    { rewrite Z.pow_succ_r by lia. reflexivity. }
    rewrite P2.
    pose proof (Z.div_mod M (2 ^ Z.of_nat k) ltac:(lia)) as D1.
    pose proof (Z.mod_pos_bound M (2 ^ Z.of_nat k) Pk) as B1.
    pose proof (Z.div_mod q 2 ltac:(lia)) as D2.
    pose proof (Z.mod_pos_bound q 2 ltac:(lia)) as B2.
    set (P := 2 ^ Z.of_nat k) in *.
    set (rho := M mod P) in *.
    assert (Hdiv : M / (2 * P) = q / 2).
    { subst q. rewrite Z.mul_comm, <- Z.div_div by lia. reflexivity. }
    assert (Hmod : M mod (2 * P) = rho + (q mod 2) * P).
    { pose proof (Z.div_mod M (2 * P) ltac:(lia)) as D3.
      rewrite Hdiv in D3. rewrite <- Hm in D1. nia. }
    split; [exact (eq_sym Hdiv)|]. split; [|discriminate].
    intros _. rewrite Hmod.
    assert (Hbit : q mod 2 = 0 \/ q mod 2 = 1) by lia.
    assert (Ho : Z.odd q = (q mod 2 =? 1)).
    { rewrite Zmod_odd. destruct (Z.odd q); reflexivity. }
    split.
    + rewrite Ho.
      destruct Hbit as [Hb | Hb]; rewrite Hb;
        destruct (Z.eqb_spec 0 1); destruct (Z.eqb_spec 1 1);
        destruct (Z.leb_spec P (rho + 0 * P));
        destruct (Z.leb_spec P (rho + 1 * P)); try reflexivity; exfalso; lia.
    + destruct k as [|k'].
      * destruct (H0 eq_refl) as [-> ->].
        change (Z.of_nat 0) with 0 in *. change (2 ^ 0) with 1 in *.
        assert (rho = 0) by lia. subst P.
        destruct (Z.eqb_spec (rho + q mod 2 * 1) 0);
          destruct (Z.eqb_spec (rho + q mod 2 * 1) 1); try reflexivity;
          exfalso; lia.
      * destruct (Hr ltac:(discriminate)) as [-> ->].
        assert (Hhalf : P = 2 * 2 ^ (Z.of_nat (S k') - 1)).
        { subst P. rewrite Nat2Z.inj_succ.
          replace (Z.succ (Z.of_nat k') - 1) with (Z.of_nat k') by lia.
          rewrite Z.pow_succ_r by lia. reflexivity. }
        set (h := 2 ^ (Z.of_nat (S k') - 1)) in *.
        assert (0 < h) by (subst h; apply pow2_pos; lia).
        destruct Hbit as [Hb | Hb]; rewrite Hb;
          destruct (Z.leb_spec h rho); destruct (Z.eqb_spec rho 0);
          destruct (Z.eqb_spec rho h);
          match goal with
          | |- context [(rho + ?b * P =? 0)] =>
              destruct (Z.eqb_spec (rho + b * P) 0);
              destruct (Z.eqb_spec (rho + b * P) P)
          end;
          cbn; try reflexivity; exfalso; lia.
Qed.

Lemma rne_0 (M : Z) : rne M 0 = M.
Proof.
  unfold rne. change (2 ^ 0) with 1. rewrite Z.div_1_r, Z.mod_1_r. reflexivity.
Qed.

(** Shifting an exact mantissa [n] places and rounding to nearest even
    on the round and sticky bits is [rne]. *)
Lemma shr_round (M E n : Z) mrs e' :
  0 <= M -> 0 <= n ->
  shr (Build_shr_record M false false) E n = (mrs, e') ->
  e' = E + n
  /\ round_nearest_even (shr_m mrs) (loc_of_shr_record mrs) = rne M n.
Proof.
  intros HM Hn H. destruct n as [|p|p]; [| |lia].
  - cbn in H. injection H as <- <-. cbn. rewrite rne_0. split; [lia|reflexivity].
  - cbn [shr] in H. injection H as <- <-. split; [reflexivity|].
    rewrite iter_pos_nat.
    destruct (shr_iter M (Pos.to_nat p) HM) as (Hm & Hr & _).
    rewrite positive_nat_Z in *.
    destruct (Hr ltac:(lia)) as [Er Es]. clear Hr.
    destruct (Nat.iter (Pos.to_nat p) shr_1 (Build_shr_record M false false))
      as [q r s].
    cbn [shr_m shr_r shr_s] in *. subst q.
    unfold rne.
    assert (P2 : 2 ^ Z.pos p = 2 * 2 ^ (Z.pos p - 1)).
    { replace (Z.pos p) with (Z.succ (Z.pos p - 1)) at 1 by lia.
      rewrite Z.pow_succ_r by lia. reflexivity. }
    pose proof (pow2_pos (Z.pos p - 1) ltac:(lia)) as Ph.
    pose proof (Z.mod_pos_bound M (2 ^ Z.pos p) ltac:(lia)) as Brho.
    set (rho := M mod 2 ^ Z.pos p) in *.
    set (h := 2 ^ (Z.pos p - 1)) in *.
    rewrite P2.
    destruct (Z.compare_spec (2 * rho) (2 * h)) as [C | C | C];
      revert Er Es;
      destruct (Z.leb_spec h rho); destruct (Z.eqb_spec rho 0);
      destruct (Z.eqb_spec rho h); cbn; intros -> ->; cbn;
      try reflexivity; exfalso; lia.
Qed.

Lemma Zdigits2_digits (N : Z) : 0 <= N -> Zdigits2 N = digits N.
Proof.
  intros HN. destruct N as [|p|p]; [reflexivity| |lia].
  unfold digits. cbn [Zdigits2]. destruct (Z.eqb_spec (Z.pos p) 0); [lia|].
  assert (H : forall q, Z.pos (digits2_pos q) = Z.pos (Pos.size q)).
  { induction q as [q IH | q IH |]; cbn [digits2_pos Pos.size];
      rewrite ?Pos2Z.inj_succ, ?IH; reflexivity. }
  rewrite H. destruct p; cbn [Z.log2 Pos.size]; rewrite ?Pos2Z.inj_succ; lia.
Qed.

Lemma fexp_64 (e : Z) : fexp prec emax e = Z.max (e - 53) (-1074).
Proof. reflexivity. Qed.

(** What [binary_round_aux] returns on an exact positive mantissa that
    has at least the digits its exponent asks for. *)
Lemma binary_round_aux_value (M E n : Z) :
  0 < M ->
  n = Z.max (digits M + E - 53) (-1074) - E ->
  0 <= n ->
  rne M n * 2 ^ (E + n + 1074) < overflow ->
  let r := binary_round_aux prec emax false M E loc_Exact in
  SFproper r = true /\ SFvalue r = rne M n * 2 ^ (E + n + 1074).
Proof.
  intros HM Hn Hn0 Hbound r. subst r.
  unfold binary_round_aux, shr_fexp.
  rewrite (Zdigits2_digits M) by lia. rewrite fexp_64.
  change (shr_record_of_loc M loc_Exact) with (Build_shr_record M false false).
  rewrite <- Hn.
  destruct (shr (Build_shr_record M false false) E n) as [mrs1 e1] eqn:S1.
  destruct (shr_round M E n mrs1 e1 ltac:(lia) Hn0 S1) as [-> Hq].
  rewrite Hq. clear Hq S1 mrs1.
  assert (He : -1074 <= E + n) by lia.
  pose proof (rne_bounds M n Hn0) as Bq.
  pose proof (below_pow M n ltac:(lia) Hn0 ltac:(lia)) as Hlt.
  assert (Hq0 : 0 <= M / 2 ^ n) by (apply Z.div_pos; [lia | apply pow2_pos; lia]).
  set (q := rne M n) in *.
  set (e := E + n) in *.
  pose proof (pow2_pos (e + 1074) ltac:(lia)) as Pe.
  rewrite (Zdigits2_digits q) by lia. rewrite fexp_64.
  change (shr_record_of_loc q loc_Exact) with (Build_shr_record q false false).
  assert (Hover : 2 ^ 52 <= q -> e + 1074 + 52 < 2098).
  { intros Hq. destruct (Z_lt_le_dec (e + 1074 + 52) 2098); [assumption|].
    pose proof (pow2_le 2098 (52 + (e + 1074)) ltac:(lia)) as Hp.
    change (2 ^ 2098) with overflow in Hp.
    rewrite pow2_add in Hp by lia. nia. }
  assert (Hnormal : 972 <= e -> 2 ^ 52 <= q).
  { intros Hbig. assert (Hnn : n = digits M - 53) by lia.
    pose proof (digits_spec M HM) as [Hlo _].
    apply Z.le_trans with (M / 2 ^ n); [|lia].
    apply Z.div_le_lower_bound; [apply pow2_pos; lia|].
    rewrite Z.mul_comm, <- pow2_add by lia.
    replace (52 + n) with (digits M - 1) by lia. exact Hlo. }
  destruct (Z.eq_dec q (2 ^ 53)) as [E53 | N53].
  - (* the mantissa carried into a 54th digit *)
    rewrite E53.
    replace (digits (2 ^ 53)) with 54 by reflexivity.
    replace (Z.max (54 + e - 53) (-1074) - e) with 1 by lia.
    cbn [shr SpecFloat.iter_pos]. change (2 ^ 53) with 9007199254740992.
    cbn [shr_1 shr_m].
    assert (Hle : (e + 1 <=? emax - prec) = true).
    { apply Z.leb_le. change (emax - prec) with 971.
      destruct (Z_lt_le_dec (e + 1074 + 53) 2098); [lia|].
      pose proof (pow2_le 2098 (53 + (e + 1074)) ltac:(lia)) as Hp.
      change (2 ^ 2098) with overflow in Hp.
      rewrite pow2_add in Hp by lia. subst q. rewrite E53 in Hbound. lia. }
    rewrite Hle. cbn [SFproper SFvalue]. split; [reflexivity|].
    replace (e + 1 + 1074) with (1 + (e + 1074)) by lia.
    rewrite pow2_add by lia. change (2 ^ 1) with 2. lia.
  - assert (Hd : digits q <= 53).
    { apply digits_lt; lia. }
    pose proof (digits_nonneg q) as Hd0.
    assert (Hshift : Z.max (digits q + e - 53) (-1074) - e <= 0) by lia.
    destruct (Z.max (digits q + e - 53) (-1074) - e) as [|p|p] eqn:En2; [| lia |];
      cbn [shr fst snd shr_m].
    + destruct q as [|p|p] eqn:Eq; [| |lia].
      * cbn. split; reflexivity.
      * assert (Hle : (e <=? emax - prec) = true).
        { apply Z.leb_le. change (emax - prec) with 971.
          destruct (Z_lt_le_dec e 972); [lia|].
          specialize (Hnormal ltac:(lia)). specialize (Hover Hnormal). lia. }
        rewrite Hle. cbn [SFproper SFvalue]. split; reflexivity.
    + destruct q as [|p'|p'] eqn:Eq; [| |lia].
      * cbn. split; reflexivity.
      * assert (Hle : (e <=? emax - prec) = true).
        { apply Z.leb_le. change (emax - prec) with 971.
          destruct (Z_lt_le_dec e 972); [lia|].
          specialize (Hnormal ltac:(lia)). specialize (Hover Hnormal). lia. }
        rewrite Hle. cbn [SFproper SFvalue]. split; reflexivity.
Qed.

(** [binary_round_aux] on the dyadic [M * 2^E] is [roundTo u] on the
    same number written as [N * 2^(-1074-u)]. *)
Lemma binary_round_aux_roundTo (M E u N : Z) :
  0 < M -> 0 <= u ->
  0 <= Z.max (digits M + E - 53) (-1074) - E ->
  M * 2 ^ (E - Z.min E (-1074 - u)) = N * 2 ^ (-1074 - u - Z.min E (-1074 - u)) ->
  roundTo u N < overflow ->
  let r := binary_round_aux prec emax false M E loc_Exact in
  SFproper r = true /\ SFvalue r = roundTo u N.
Proof.
  intros HM Hu Hn Hsame Hbound.
  set (e0 := Z.min E (-1074 - u)) in *.
  set (a := E - e0) in *. set (b := -1074 - u - e0) in *.
  assert (Ha : 0 <= a) by lia. assert (Hb : 0 <= b) by lia.
  pose proof (pow2_pos a Ha) as Pa. pose proof (pow2_pos b Hb) as Pb.
  assert (HN : 0 < N) by nia.
  assert (Hd : digits M + a = digits N + b).
  { rewrite <- (digits_shift M a), <- (digits_shift N b) by lia. now rewrite Hsame. }
  set (n := Z.max (digits M + E - 53) (-1074) - E) in *.
  assert (Hnu : Z.max (digits N - 53) u = n + a - b) by lia.
  assert (Hr : rne M n = rne N (n + a - b)).
  { apply rne_ext; [lia | lia |].
    apply (Z.mul_cancel_r _ _ (2 ^ b)); [lia|].
    rewrite <- !Z.mul_assoc, <- !pow2_add by lia.
    replace (n + a - b + b) with (a + n) by lia.
    rewrite (Z.add_comm n b), !pow2_add by lia.
    rewrite !Z.mul_assoc, Hsame. reflexivity. }
  assert (Hv : roundTo u N = rne M n * 2 ^ (E + n + 1074)).
  { unfold roundTo. rewrite Hnu, <- Hr. do 2 f_equal. lia. }
  rewrite Hv in *.
  apply binary_round_aux_value; [assumption | reflexivity | assumption | assumption].
Qed.

(** A valid finite number: the exponent is in range and the mantissa has
    53 digits, or fewer at the smallest exponent. *)
Lemma valid_finite (s : bool) (m : positive) (e : Z) :
  valid_binary (S754_finite s m e) = true ->
  -1074 <= e <= 971 /\ Z.pos m < 2 ^ 53 /\ (e = -1074 \/ 2 ^ 52 <= Z.pos m).
Proof.
  cbn [SpecFloat.valid_binary]. unfold SpecFloat.bounded, SpecFloat.canonical_mantissa.
  rewrite andb_true_iff, Z.eqb_eq, Z.leb_le, fexp_64.
  change (Z.pos (digits2_pos m)) with (Zdigits2 (Z.pos m)).
  rewrite Zdigits2_digits by lia. change (emax - prec) with 971.
  intros [Hc He].
  pose proof (digits_spec (Z.pos m) ltac:(lia)) as [Hlo Hhi].
  pose proof (digits_pos (Z.pos m) ltac:(lia)) as Hd.
  assert (Hd53 : digits (Z.pos m) <= 53) by lia.
  split; [lia|]. split.
  - pose proof (pow2_le (digits (Z.pos m)) 53 ltac:(lia)). lia.
  - destruct (Z.eq_dec e (-1074)); [now left | right].
    assert (digits (Z.pos m) = 53) by lia.
    replace 52 with (digits (Z.pos m) - 1) by lia. exact Hlo.
Qed.

Lemma overflow_positive : 0 < overflow.
Proof. unfold overflow. apply pow2_pos. lia. Qed.

(** The value of a valid number is a binary64 number below the overflow
    threshold. *)
Lemma SFvalue_representable (x : spec_float) :
  valid_binary x = true ->
  representable (SFvalue x) /\ SFvalue x < overflow.
Proof.
  intros Hv. pose proof overflow_positive as Ho.
  assert (Hzero : representable 0 /\ 0 < overflow).
  { split; [exists 0, 0; repeat split; lia | exact Ho]. }
  destruct x as [s | s | | s m e]; cbn [SFvalue]; try exact Hzero.
  destruct s; [exact Hzero|].
  destruct (valid_finite false m e Hv) as (He & Hm & _).
  split.
  - exists (Z.pos m), (e + 1074). repeat split; lia.
  - pose proof (pow2_le (e + 1074) 2045 ltac:(lia)) as Hp.
    pose proof (pow2_pos (e + 1074) ltac:(lia)) as Hpos.
    assert (Eo : overflow = 2 ^ 53 * 2 ^ 2045).
    { unfold overflow. rewrite <- pow2_add by lia. reflexivity. }
    rewrite Eo. clear Eo Ho Hzero.
    revert Hp. generalize (2 ^ 2045) as Q. intros Q Hp.
    apply Z.lt_le_trans with (2 ^ 53 * 2 ^ (e + 1074)).
    + apply Z.mul_lt_mono_pos_r; lia.
    + apply Z.mul_le_mono_nonneg_l; lia.
Qed.

(** Multiplication by a constant [K / 4] whose mantissa is [K * 2^s]. *)
Lemma SFmul_constant (x : spec_float) (my : positive) (ey K : Z) :
  valid_binary x = true -> SFproper x = true ->
  0 < K <= 4 ->
  Z.pos my = K * 2 ^ (-2 - ey) ->
  -54 <= ey <= -53 ->
  2 ^ (54 + ey) <= K ->
  let r := SFmul prec emax x (S754_finite false my ey) in
  SFproper r = true /\ SFvalue r = roundTo 2 (K * SFvalue x).
Proof.
  intros Hv Hp HK Hmy Hey HKs r. subst r.
  destruct x as [s | s | | s mx ex]; try discriminate.
  - cbn. split; [reflexivity|]. rewrite Z.mul_0_r. reflexivity.
  - destruct s; [discriminate|].
    destruct (valid_finite false mx ex Hv) as (He & Hm & _).
    cbn [SFmul xorb SFvalue].
    rewrite Pos2Z.inj_mul, Hmy.
    set (s := -2 - ey) in *.
    assert (Hs : 51 <= s) by lia.
    pose proof (pow2_pos s ltac:(lia)) as Ps.
    pose proof (pow2_pos (ex + 1074) ltac:(lia)) as Px.
    assert (HKm : 0 < K * Z.pos mx) by nia.
    assert (Hdig : 53 - s <= digits (K * Z.pos mx)).
    { destruct (Z_le_gt_dec (53 - s) (digits (K * Z.pos mx))); [assumption|].
      pose proof (digits_spec (K * Z.pos mx) HKm) as [_ Hhi].
      pose proof (digits_pos (K * Z.pos mx) HKm).
      pose proof (pow2_le (digits (K * Z.pos mx)) (54 + ey) ltac:(lia)).
      nia. }
    apply binary_round_aux_roundTo.
    + nia.
    + lia.
    + replace (Z.pos mx * (K * 2 ^ s)) with (K * Z.pos mx * 2 ^ s) by ring.
      rewrite digits_shift by lia. lia.
    + set (e0 := Z.min (ex + ey) (-1074 - 2)).
      replace (Z.pos mx * (K * 2 ^ s) * 2 ^ (ex + ey - e0))
        with (K * Z.pos mx * (2 ^ s * 2 ^ (ex + ey - e0))) by ring.
      replace (K * (Z.pos mx * 2 ^ (ex + 1074)) * 2 ^ (-1074 - 2 - e0))
        with (K * Z.pos mx * (2 ^ (ex + 1074) * 2 ^ (-1074 - 2 - e0))) by ring.
      rewrite <- !pow2_add by lia. do 2 f_equal. lia.
    + destruct (SFvalue_representable (S754_finite false mx ex) Hv) as [Hr Hb].
      cbn [SFvalue] in Hr, Hb.
      apply Z.le_lt_trans with (Z.pos mx * 2 ^ (ex + 1074)); [|exact Hb].
      apply roundTo_le; [lia | exact Hr |]. change (2 ^ 2) with 4. nia.
Qed.

(** Aligning a mantissa to a smaller exponent multiplies it by a power
    of two. *)
Lemma Pos_iter_xO (m d : positive) :
  Z.pos (Pos.iter xO m d) = Z.pos m * 2 ^ Z.pos d.
Proof.
  induction d as [|d IH] using Pos.peano_ind.
  - cbn [Pos.iter]. rewrite Pos2Z.inj_xO. change (2 ^ 1) with 2. ring.
  - rewrite Pos.iter_succ, Pos2Z.inj_xO, IH, Pos2Z.inj_succ.
    rewrite Z.pow_succ_r by lia. ring.
Qed.

Lemma shl_align_spec (m : positive) (e e' : Z) :
  let r := shl_align m e e' in
  snd r = Z.min e e' /\ Z.pos (fst r) = Z.pos m * 2 ^ (e - snd r).
Proof.
  unfold shl_align. destruct (e' - e) as [|d|d] eqn:Ed; cbn [fst snd].
  - split; [lia|]. rewrite Z.sub_diag. cbn. lia.
  - split; [lia|]. rewrite Z.sub_diag. cbn. lia.
  - split; [lia|]. rewrite Pos_iter_xO. do 2 f_equal. lia.
Qed.

(** Rounding a mantissa at an exponent of at least -1074. *)
Lemma binary_round_roundTo (S : positive) (ez : Z) :
  -1074 <= ez ->
  roundTo 0 (Z.pos S * 2 ^ (ez + 1074)) < overflow ->
  let r := binary_round prec emax false S ez in
  SFproper r = true /\ SFvalue r = roundTo 0 (Z.pos S * 2 ^ (ez + 1074)).
Proof.
  intros Hez Hbound r. subst r. unfold binary_round.
  change (Z.pos (digits2_pos S)) with (Zdigits2 (Z.pos S)).
  rewrite Zdigits2_digits by lia. rewrite fexp_64.
  set (target := Z.max (digits (Z.pos S) + ez - 53) (-1074)).
  destruct (shl_align_spec S ez target) as [He Hm].
  destruct (shl_align S ez target) as [mz ez'].
  cbn [fst snd] in He, Hm. subst ez'.
  set (ez' := Z.min ez target) in *.
  pose proof (pow2_pos (ez - ez') ltac:(lia)) as Pd.
  assert (Hdig : digits (Z.pos mz) = digits (Z.pos S) + (ez - ez')).
  { rewrite Hm. apply digits_shift; lia. }
  apply binary_round_aux_roundTo.
  - lia.
  - lia.
  - rewrite Hdig. lia.
  - replace (Z.min ez' (-1074 - 0)) with (-1074) by lia.
    replace (-1074 - 0 - -1074) with 0 by lia.
    rewrite Hm. change (2 ^ 0) with 1. rewrite Z.mul_1_r.
    rewrite <- !Z.mul_assoc, <- !pow2_add by lia. do 2 f_equal. lia.
  - exact Hbound.
Qed.

(** The sum of two numbers that are finite and not negative is their
    exact sum rounded. *)
Lemma SFadd_value (x y : spec_float) :
  valid_binary x = true -> valid_binary y = true ->
  SFproper x = true -> SFproper y = true ->
  roundTo 0 (SFvalue x + SFvalue y) < overflow ->
  let r := SFadd prec emax x y in
  SFproper r = true /\ SFvalue r = roundTo 0 (SFvalue x + SFvalue y).
Proof.
  intros Hvx Hvy Hpx Hpy Hbound r. subst r.
  destruct (SFvalue_representable x Hvx) as [Hrx _].
  destruct (SFvalue_representable y Hvy) as [Hry _].
  destruct x as [sx | sx | | sx mx ex]; try discriminate;
    destruct y as [sy | sy | | sy my ey]; try discriminate.
  - destruct sx, sy; cbn; split; reflexivity.
  - destruct sy; [discriminate|]. cbn [SFadd]. split; [reflexivity|].
    cbn [SFvalue] in *. rewrite Z.add_0_l. symmetry. now apply representable_fix.
  - destruct sx; [discriminate|]. cbn [SFadd]. split; [reflexivity|].
    cbn [SFvalue] in *. rewrite Z.add_0_r. symmetry. now apply representable_fix.
  - destruct sx; [discriminate|]. destruct sy; [discriminate|].
    destruct (valid_finite false mx ex Hvx) as (Hex & _).
    destruct (valid_finite false my ey Hvy) as (Hey & _).
    cbn [SFadd cond_Zopp SFvalue] in *.
    set (ez := Z.min ex ey) in *.
    destruct (shl_align_spec mx ex ez) as [E1 M1].
    destruct (shl_align_spec my ey ez) as [E2 M2].
    rewrite E1 in M1. rewrite E2 in M2.
    replace (Z.min ex ez) with ez in M1 by lia.
    replace (Z.min ey ez) with ez in M2 by lia.
    rewrite <- Pos2Z.inj_add. cbn [binary_normalize].
    assert (Hsum : Z.pos mx * 2 ^ (ex + 1074) + Z.pos my * 2 ^ (ey + 1074)
                   = Z.pos (fst (shl_align mx ex ez) + fst (shl_align my ey ez))
                     * 2 ^ (ez + 1074)).
    { rewrite Pos2Z.inj_add, M1, M2.
      rewrite Z.mul_add_distr_r, <- !Z.mul_assoc, <- !pow2_add by lia.
      do 2 f_equal; f_equal; lia. }
    rewrite Hsum in *.
    apply binary_round_roundTo; [lia | exact Hbound].
Qed.

(** Order of numbers that are finite and not negative. *)
Lemma SFcompare_value (x y : spec_float) :
  valid_binary x = true -> valid_binary y = true ->
  SFproper x = true -> SFproper y = true ->
  SFcompare x y = Some (SFvalue x ?= SFvalue y).
Proof.
  intros Hvx Hvy Hpx Hpy.
  destruct x as [sx | sx | | sx mx ex]; try discriminate;
    destruct y as [sy | sy | | sy my ey]; try discriminate.
  - reflexivity.
  - destruct sy; [discriminate|].
    destruct (valid_finite false my ey Hvy) as (He & _).
    cbn [SFcompare SFvalue]. f_equal. symmetry. apply Z.compare_lt_iff.
    pose proof (pow2_pos (ey + 1074) ltac:(lia)). nia.
  - destruct sx; [discriminate|].
    destruct (valid_finite false mx ex Hvx) as (He & _).
    cbn [SFcompare SFvalue]. f_equal. symmetry. apply Z.compare_gt_iff.
    pose proof (pow2_pos (ex + 1074) ltac:(lia)). nia.
  - destruct sx; [discriminate|]. destruct sy; [discriminate|].
    destruct (valid_finite false mx ex Hvx) as (Hex & Hmx & Hnx).
    destruct (valid_finite false my ey Hvy) as (Hey & Hmy & Hny).
    cbn [SFcompare SFvalue]. f_equal.
    pose proof (pow2_pos (ex + 1074) ltac:(lia)) as Px.
    pose proof (pow2_pos (ey + 1074) ltac:(lia)) as Py.
    assert (P53 : 2 ^ 53 = 2 * 2 ^ 52) by reflexivity.
    destruct (Z.compare_spec ex ey) as [E | Hlt | Hgt].
    + subst ey. rewrite Pos.compare_cont_spec. cbn [Pos.switch_Eq].
      change (Pos.compare mx my) with (Z.pos mx ?= Z.pos my).
      destruct (Z.compare_spec (Z.pos mx) (Z.pos my)) as [E | H | H]; symmetry.
      * apply Z.compare_eq_iff. now rewrite E.
      * apply Z.compare_lt_iff. nia.
      * apply Z.compare_gt_iff. nia.
    + symmetry. apply Z.compare_lt_iff.
      assert (Hm : 2 ^ 52 <= Z.pos my) by (destruct Hny; [lia | assumption]).
      assert (Hp : 2 * 2 ^ (ex + 1074) <= 2 ^ (ey + 1074)).
      { replace (2 * 2 ^ (ex + 1074)) with (2 ^ (ex + 1074 + 1))
          by (rewrite pow2_add by lia; ring).
        apply pow2_le. lia. }
      nia.
    + symmetry. apply Z.compare_gt_iff.
      assert (Hm : 2 ^ 52 <= Z.pos mx) by (destruct Hnx; [lia | assumption]).
      assert (Hp : 2 * 2 ^ (ey + 1074) <= 2 ^ (ex + 1074)).
      { replace (2 * 2 ^ (ey + 1074)) with (2 ^ (ey + 1074 + 1))
          by (rewrite pow2_add by lia; ring).
        apply pow2_le. lia. }
      nia.
Qed.

(** *** Primitive floats

    A float between 0 and infinity reads as a number that is finite and
    not negative, and back. *)
Lemma finiteLoudness_proper (x : float) :
  finiteLoudness x -> SFproper (Prim2SF x) = true.
Proof.
  intros [H0 Hi]. rewrite leb_spec in H0. rewrite ltb_spec in Hi.
  change (Prim2SF 0%float) with (S754_zero false) in H0.
  change (Prim2SF infinity) with (S754_infinity false) in Hi.
  destruct (Prim2SF x) as [s | s | | s m e]; try reflexivity.
  - destruct s; cbn in *; discriminate.
  - cbn in *. discriminate.
  - destruct s; [cbn in *; discriminate | reflexivity].
Qed.

Lemma proper_finiteLoudness (x : float) :
  SFproper (Prim2SF x) = true -> finiteLoudness x.
Proof.
  intros H. unfold finiteLoudness. rewrite leb_spec, ltb_spec.
  change (Prim2SF 0%float) with (S754_zero false).
  change (Prim2SF infinity) with (S754_infinity false).
  destruct (Prim2SF x) as [s | s | | s m e]; try discriminate.
  - split; reflexivity.
  - destruct s; [discriminate|]. split; reflexivity.
Qed.

(** The order of floats is the order of their values. *)
Lemma leb_scaled (x y : float) :
  finiteLoudness x -> finiteLoudness y ->
  PrimFloat.leb x y = (scaled x <=? scaled y).
Proof.
  intros Hx Hy. rewrite leb_spec. unfold SFleb, scaled.
  rewrite (SFcompare_value _ _ (Prim2SF_valid x) (Prim2SF_valid y)
             (finiteLoudness_proper x Hx) (finiteLoudness_proper y Hy)).
  unfold Z.leb. destruct (SFvalue (Prim2SF x) ?= SFvalue (Prim2SF y)); reflexivity.
Qed.

Lemma ltb_scaled (x y : float) :
  finiteLoudness x -> finiteLoudness y ->
  PrimFloat.ltb x y = (scaled x <? scaled y).
Proof.
  intros Hx Hy. rewrite ltb_spec. unfold SFltb, scaled.
  rewrite (SFcompare_value _ _ (Prim2SF_valid x) (Prim2SF_valid y)
             (finiteLoudness_proper x Hx) (finiteLoudness_proper y Hy)).
  unfold Z.ltb. destruct (SFvalue (Prim2SF x) ?= SFvalue (Prim2SF y)); reflexivity.
Qed.

Lemma scaled_representable (x : float) :
  representable (scaled x) /\ scaled x < overflow.
Proof. apply SFvalue_representable, Prim2SF_valid. Qed.

Lemma threshold_scaled : 2 ^ 56 <= scaled volumeThreshold.
Proof. vm_compute. discriminate. Qed.

Lemma threshold_finiteLoudness : finiteLoudness volumeThreshold.
Proof. split; vm_compute; reflexivity. Qed.

(** Line 149 computes [smoothGrid] on the grid. *)
Lemma smooth_scaled (v c : float) :
  finiteLoudness v -> finiteLoudness c -> 2 ^ 56 <= scaled c ->
  finiteLoudness (smooth v c)
  /\ scaled (smooth v c) = smoothGrid (scaled v) (scaled c).
Proof.
  intros Hv Hc Hbig.
  pose proof (finiteLoudness_proper v Hv) as Pv.
  pose proof (finiteLoudness_proper c Hc) as Pc.
  destruct (scaled_representable v) as [Rv Bv].
  destruct (scaled_representable c) as [Rc Bc].
  unfold smooth.
  change (1 - smoothingFactor)%float with 0.75%float.
  unfold smoothingFactor.
  assert (M1 : SFproper (Prim2SF (v * 0.75)) = true
               /\ SFvalue (Prim2SF (v * 0.75)) = roundTo 2 (3 * scaled v)).
  { rewrite mul_spec.
    change (Prim2SF 0.75) with (S754_finite false 6755399441055744 (-53)).
    apply SFmul_constant;
      [apply Prim2SF_valid | assumption | lia | reflexivity | lia
      | vm_compute; discriminate]. }
  assert (M2 : SFproper (Prim2SF (c * 0.25)) = true
               /\ SFvalue (Prim2SF (c * 0.25)) = roundTo 2 (1 * scaled c)).
  { rewrite mul_spec.
    change (Prim2SF 0.25) with (S754_finite false 4503599627370496 (-54)).
    apply SFmul_constant;
      [apply Prim2SF_valid | assumption | lia | reflexivity | lia
      | vm_compute; discriminate]. }
  rewrite Z.mul_1_l in M2.
  destruct M1 as [P1 V1]. destruct M2 as [P2 V2].
  destruct (smoothGrid_between (scaled v) (scaled c) Rv Rc Hbig) as [Hle Hge].
  assert (Hb : smoothGrid (scaled v) (scaled c) < overflow).
  { destruct (Z_le_gt_dec (scaled v) (scaled c)) as [H | H].
    - specialize (Hle H). lia.
    - specialize (Hge ltac:(lia)). lia. }
  assert (A : SFproper (Prim2SF (v * 0.75 + c * 0.25)) = true
              /\ SFvalue (Prim2SF (v * 0.75 + c * 0.25))
                 = roundTo 0 (roundTo 2 (3 * scaled v) + roundTo 2 (scaled c))).
  { rewrite add_spec, <- V1, <- V2.
    apply SFadd_value; try assumption; try apply Prim2SF_valid.
    rewrite V1, V2. exact Hb. }
  destruct A as [PA VA].
  split; [now apply proper_finiteLoudness | exact VA].
Qed.

Lemma effectiveVolume_above (c : float) :
  (volumeThreshold <? c)%float = true -> effectiveVolume c = c.
Proof. intros H. unfold effectiveVolume. now rewrite H. Qed.

Lemma above_scaled (c : float) :
  finiteLoudness c -> (volumeThreshold <? c)%float = true -> 2 ^ 56 <= scaled c.
Proof.
  intros Hc H. rewrite (ltb_scaled _ _ threshold_finiteLoudness Hc) in H.
  apply Z.ltb_lt in H. pose proof threshold_scaled. lia.
Qed.

Lemma SFvalue_inj (x y : spec_float) :
  valid_binary x = true -> valid_binary y = true ->
  SFproper x = true -> SFproper y = true ->
  0 < SFvalue x -> SFvalue x = SFvalue y -> x = y.
Proof.
  intros Hvx Hvy Hpx Hpy Hpos Heq.
  pose proof (SFcompare_value x y Hvx Hvy Hpx Hpy) as Hc.
  rewrite Heq, Z.compare_refl in Hc.
  destruct x as [sx | sx | | sx mx ex]; cbn in Hpx, Hpos; try discriminate;
    try lia.
  destruct sx; [discriminate|].
  destruct y as [sy | sy | | sy my ey]; cbn in Hpy, Heq; try discriminate;
    try lia.
  destruct sy; [discriminate|].
  cbn [SFcompare] in Hc.
  destruct (Z.compare_spec ex ey) as [E | H | H]; try discriminate.
  subst ey. injection Hc as Hc.
  rewrite Pos.compare_cont_spec in Hc.
  destruct (Pos.compare_spec mx my) as [E | E | E]; cbn in Hc;
    try discriminate.
  now subst my.
Qed.

(** Two positive numbers with the same value are the same number. *)
Lemma scaled_inj (x y : float) :
  finiteLoudness x -> finiteLoudness y -> 0 < scaled x -> scaled x = scaled y ->
  x = y.
Proof.
  intros Hx Hy Hpos Heq. apply Prim2SF_inj.
  apply SFvalue_inj; try apply Prim2SF_valid; try assumption;
    now apply finiteLoudness_proper.
Qed.

Lemma smoothGrid_positive (V C : Z) :
  0 <= V -> 2 ^ 56 <= C -> 0 < smoothGrid V C.
Proof.
  intros HV HC. unfold smoothGrid.
  assert (R54 : representable (2 ^ 54)).
  { exists 1, 54. repeat split; lia. }
  assert (H1 : 2 ^ 54 <= roundTo 2 C).
  { apply roundTo_ge; [lia | exact R54 |]. change (2 ^ 54 * 2 ^ 2) with (2 ^ 56). lia. }
  pose proof (roundTo_nonneg 2 (3 * V) ltac:(lia) ltac:(lia)) as H3.
  assert (H2 : 2 ^ 54 <= roundTo 0 (roundTo 2 (3 * V) + roundTo 2 C)).
  { apply roundTo_ge; [lia | exact R54 |]. change (2 ^ 0) with 1. lia. }
  assert (0 < 2 ^ 54) by reflexivity. lia.
Qed.

(** One frame at a loudness [c] above the noise floor, in binary64: the
    new value is finite and positive, lies between the old value and
    [c], and a value that the frame leaves unchanged is within
    [c / 2^49] of [c]. *)
Lemma frame_between (v c : float) :
  finiteLoudness v -> finiteLoudness c -> (volumeThreshold <? c)%float = true ->
  let v' := smooth v (effectiveVolume c) in
  finiteLoudness v'
  /\ 0 < scaled v'
  /\ (scaled v <= scaled c -> scaled v <= scaled v' <= scaled c)
  /\ (scaled c <= scaled v -> scaled c <= scaled v' <= scaled v)
  /\ (scaled v' = scaled v -> distance v c * 2 ^ 49 <= scaled c).
Proof.
  intros Hv Hc Habove v'. subst v'.
  rewrite (effectiveVolume_above c Habove).
  pose proof (above_scaled c Hc Habove) as Hbig.
  destruct (smooth_scaled v c Hv Hc Hbig) as [Hl Hs].
  destruct (scaled_representable v) as [Rv _].
  destruct (scaled_representable c) as [Rc _].
  destruct (smoothGrid_between (scaled v) (scaled c) Rv Rc Hbig) as [Hle Hge].
  pose proof (representable_nonneg _ Rv) as Hv0.
  rewrite Hs. split; [exact Hl|]. split; [|split; [|split]]; try assumption.
  - now apply smoothGrid_positive.
  - intros Hfix. unfold distance. now apply smoothGrid_rest_near.
Qed.

(** *** Runs at a constant loudness *)
Lemma held_shift (c : float) (k : nat) (v : float) :
  held c (S k) v = held c k (smooth v (effectiveVolume c)).
Proof.
  induction k as [|k IH]; [reflexivity|].
  cbn [held] in *. now rewrite IH.
Qed.

Lemma held_add (c : float) (n k : nat) (v : float) :
  held c (n + k) v = held c k (held c n v).
Proof.
  revert v. induction n as [|n IH]; intros v; [reflexivity|].
  cbn [Nat.add]. rewrite !held_shift. apply IH.
Qed.

Lemma held_fixed (c : float) (k : nat) (v : float) :
  smooth v (effectiveVolume c) = v -> held c k v = v.
Proof.
  intros H. induction k as [|k IH]; [reflexivity|].
  cbn [held]. now rewrite IH.
Qed.

Lemma held_finiteLoudness (c : float) (n : nat) (v : float) :
  finiteLoudness v -> finiteLoudness c -> (volumeThreshold <? c)%float = true ->
  finiteLoudness (held c n v).
Proof.
  intros Hv Hc Habove. induction n as [|n IH]; [exact Hv|].
  cbn [held]. now apply frame_between.
Qed.

(** Frames whose windows all have the RMS loudness [c]. *)
Lemma runFrames_is_held (c : float) (frames : list (list Byte.byte)) (v : float) :
  Forall (heldAt c) frames ->
  runFrames frames v = held c (List.length frames) v.
Proof.
  intros H. revert v. induction H as [|dataArray rest Hd _ IH]; intros v.
  - reflexivity.
  - unfold runFrames. cbn [fold_left List.length]. rewrite held_shift.
    unfold frame at 2. rewrite Hd. apply IH.
Qed.

(** Every run at a loudness above the noise floor comes to rest: by
    induction on the distance to [c], which is a natural number of
    multiples of [2^-1074] and shrinks in every frame that changes the
    value. *)
Lemma held_settles (c : float) :
  finiteLoudness c -> (volumeThreshold <? c)%float = true ->
  forall (d : nat) (v : float),
    finiteLoudness v -> distance v c <= Z.of_nat d ->
    exists N,
      smooth (held c N v) (effectiveVolume c) = held c N v
      /\ distance (held c N v) c * 2 ^ 49 <= scaled c.
Proof.
  intros Hc Habove. induction d as [|d IH]; intros v Hv Hd.
  - exists 0%nat. cbn [held].
    destruct (frame_between v c Hv Hc Habove) as (Hl & Hp & Hle & Hge & Hnear).
    unfold distance in Hd.
    assert (E : scaled (smooth v (effectiveVolume c)) = scaled v) by lia.
    split; [apply scaled_inj; assumption | now apply Hnear].
  - destruct (frame_between v c Hv Hc Habove) as (Hl & Hp & Hle & Hge & Hnear).
    destruct (Z.eq_dec (scaled (smooth v (effectiveVolume c))) (scaled v))
      as [E | Hne].
    + exists 0%nat. cbn [held].
      split; [apply scaled_inj; assumption | now apply Hnear].
    + destruct (IH (smooth v (effectiveVolume c)) Hl) as (N & HN1 & HN2).
      { unfold distance in *. lia. }
      exists (S N). rewrite !held_shift. split; assumption.
Qed.

(** C8, amended: with the RMS loudness held at a constant [c] above the
    threshold, every frame replaces the smoothed value [x] by the
    binary64 result [x'] of [x * (1 - 0.25) + c * 0.25], which lies
    between [x] and [c]: the smoothed value moves toward [c], or stays,
    and never passes it.  The distance to [c] never grows, and shrinks in
    every frame that changes the stored value.  A frame that leaves the
    value unchanged finds it within [c / 2^49] of [c], and every later
    frame leaves it unchanged too.  That happens after finitely many
    frames, so the smoothed value comes to rest within [c / 2^49] of [c];
    it need not reach [c] itself. *)
Theorem smoothing_settles_monotonically :
  forall c v : float,
    finiteLoudness v -> finiteLoudness c ->
    (volumeThreshold <? c)%float = true ->
    (forall frames dataArray,
        Forall (heldAt c) frames -> heldAt c dataArray ->
        let x := runFrames frames v in
        let x' := frame dataArray x in
        x' = smooth x c
        /\ finiteLoudness x'
        /\ ((x <=? c)%float = true ->
            (x <=? x')%float = true /\ (x' <=? c)%float = true)
        /\ ((c <=? x)%float = true ->
            (c <=? x')%float = true /\ (x' <=? x)%float = true)
        /\ distance x' c <= distance x c
        /\ (x' <> x -> distance x' c < distance x c)
        /\ (x' = x ->
            distance x c * 2 ^ 49 <= scaled c
            /\ forall more, Forall (heldAt c) more -> runFrames more x = x))
    /\ exists N rest,
         distance rest c * 2 ^ 49 <= scaled c
         /\ forall frames,
              Forall (heldAt c) frames -> (N <= List.length frames)%nat ->
              runFrames frames v = rest.
Proof.
  intros c v Hv Hc Habove. split.
  - intros frames dataArray Hf Hd x x'.
    assert (Ex : x = held c (List.length frames) v)
      by (subst x; now apply runFrames_is_held).
    pose proof (held_finiteLoudness c (List.length frames) v Hv Hc Habove) as Hx.
    rewrite <- Ex in Hx.
    assert (Ex' : x' = smooth x (effectiveVolume c)).
    { subst x'. unfold frame. now rewrite Hd. }
    destruct (frame_between x c Hx Hc Habove) as (Hl & Hp & Hle & Hge & Hnear).
    rewrite <- Ex' in Hl, Hp, Hle, Hge, Hnear.
    split; [now rewrite Ex', (effectiveVolume_above c Habove)|].
    split; [exact Hl|].
    rewrite !(leb_scaled x c), !(leb_scaled x x'), !(leb_scaled x' c),
      !(leb_scaled c x), !(leb_scaled c x'), !(leb_scaled x' x) by assumption.
    rewrite !Z.leb_le.
    split; [exact Hle|]. split; [exact Hge|].
    unfold distance in *.
    split; [lia|]. split.
    + intros Hne.
      assert (scaled x' <> scaled x).
      { intros E. apply Hne. apply scaled_inj; assumption. }
      lia.
    + intros E. split; [apply Hnear; now rewrite E|].
      intros more Hm. rewrite (runFrames_is_held c more x Hm).
      apply held_fixed. now rewrite <- Ex'.
  - destruct (held_settles c Hc Habove (Z.to_nat (distance v c)) v Hv)
      as (N & Hfix & Hnear).
    { unfold distance. lia. }
    exists N, (held c N v). split; [exact Hnear|].
    intros frames Hf Hlen.
    rewrite (runFrames_is_held c frames v Hf).
    replace (List.length frames) with (N + (List.length frames - N))%nat by lia.
    rewrite held_add. now apply held_fixed.
Qed.

(** A window of full-scale samples has the RMS loudness 1. *)
Lemma fullScale_heldAt :
  heldAt 1 (getByteTimeDomainData (mkAnalyser ANALYSER_FFT_SIZE) fullScale).
Proof. vm_compute. reflexivity. Qed.

Lemma fullScale_frames (n : nat) :
  Forall (heldAt 1)
    (repeat (getByteTimeDomainData (mkAnalyser ANALYSER_FFT_SIZE) fullScale) n).
Proof.
  apply Forall_forall. intros x Hx. apply repeat_spec in Hx. subst x.
  exact fullScale_heldAt.
Qed.

Lemma smoothing_settles_monotonically_witness :
  let window := getByteTimeDomainData (mkAnalyser ANALYSER_FFT_SIZE) fullScale in
  let x := runFrames (repeat window 3) 0 in
  let x' := frame window x in
  (x <=? x')%float = true /\ (x' <=? 1)%float = true
  /\ distance x' 1 < distance x 1.
Proof.
  intros window x x'.
  assert (H0 : finiteLoudness 0) by (split; vm_compute; reflexivity).
  assert (H1 : finiteLoudness 1) by (split; vm_compute; reflexivity).
  assert (Ha : (volumeThreshold <? 1)%float = true) by (vm_compute; reflexivity).
  destruct (smoothing_settles_monotonically 1 0 H0 H1 Ha) as (H & _).
  destruct (H (repeat window 3) window (fullScale_frames 3) fullScale_heldAt)
    as (_ & _ & Hle & _ & _ & Hlt & _).
  destruct (Hle ltac:(vm_compute; reflexivity)) as [A B].
  split; [exact A|]. split; [exact B|].
  apply Hlt. vm_compute. discriminate.
Defined.

(** C8 (as stated: in every frame the distance to [c] strictly
    decreases, or stays zero, and the value does not overshoot) fails:
    with full-scale output in every frame (RMS loudness 1) the smoothed
    value, starting from 0, is [1 - 2^-52] after 125 frames, and the next
    frame computes [1 - 2^-52] again: the distance to 1 is not zero and
    does not decrease. *)
Lemma smoothing_stalls_short_of_constant :
  ~ (forall (c v : float) frames dataArray,
        finiteLoudness v -> finiteLoudness c ->
        (volumeThreshold <? c)%float = true ->
        Forall (heldAt c) frames -> heldAt c dataArray ->
        let x := runFrames frames v in
        let x' := frame dataArray x in
        (x = c -> x' = c)
        /\ (x <> c -> distance x' c < distance x c)
        /\ ((x <=? c)%float = true -> (x' <=? c)%float = true)
        /\ ((c <=? x)%float = true -> (c <=? x')%float = true)).
Proof.
  intros H.
  assert (H0 : finiteLoudness 0) by (split; vm_compute; reflexivity).
  assert (H1 : finiteLoudness 1) by (split; vm_compute; reflexivity).
  assert (Ha : (volumeThreshold <? 1)%float = true) by (vm_compute; reflexivity).
  set (window := getByteTimeDomainData (mkAnalyser ANALYSER_FFT_SIZE) fullScale).
  destruct (H 1%float 0%float (repeat window 125) window H0 H1 Ha
              (fullScale_frames 125) fullScale_heldAt) as (_ & Hlt & _).
  assert (E : frame window (runFrames (repeat window 125) 0)
              = runFrames (repeat window 125) 0) by (vm_compute; reflexivity).
  assert (Ev : runFrames (repeat window 125) 0 = 0x1.ffffffffffffep-1%float)
    by (vm_compute; reflexivity).
  rewrite E in Hlt.
  assert (Hne : runFrames (repeat window 125) 0 <> 1%float)
    by (rewrite Ev; vm_compute; discriminate).
  specialize (Hlt Hne). lia.
Qed.

End Binary64Smoothing.

(** ** Sessions without a mouth region *)

Lemma stopAnimation_idle (s : State) :
  idleWithPortrait s ->
  idleWithPortrait (stopAnimation s)
  /\ smoothedVolumeRef (stopAnimation s) = smoothedVolumeRef s.
Proof.
  unfold idleWithPortrait, animationIdle, showsPortrait.
  destruct s. cbn. intros [[Hid Hp] Hs]. subst.
  unfold stopAnimation, cancelAnimationRef. cbn.
  destruct canvasRef0 as [canvas|], imageRef0; cbn; auto.
  destruct (hasContext2d canvas); cbn; auto.
Qed.

Lemma keepsAnimation_idle f (s : State) :
  keepsAnimation f ->
  idleWithPortrait s ->
  idleWithPortrait (f s) /\ smoothedVolumeRef (f s) = smoothedVolumeRef s.
Proof.
  intros Hk. destruct (Hk s) as (H1 & H2 & H3 & _ & H5).
  unfold idleWithPortrait, animationIdle, showsPortrait.
  rewrite H1, H2, H3, H5. auto.
Qed.

Lemma scheduleAudio_none_keeps env audioData :
  keepsAnimation (fun s => fst (scheduleAudio None env audioData s)).
Proof.
  intros s. unfold scheduleAudio, startAnimationIfIdle.
  destruct (truthyAudio audioData); [|repeat split].
  destruct (outputAudioContextRef s); [|repeat split].
  destruct (analyserNodeRef s); [|repeat split].
  replace (match animationFrameIdRef s with
           | Some _ | _ => s
           end) with s by (destruct (animationFrameIdRef s); reflexivity).
  destruct s, (decodeResult env); repeat split.
Qed.

Lemma handleTranscriptions_keeps sc : keepsAnimation (handleTranscriptions sc).
Proof.
  intros s. unfold handleTranscriptions.
  destruct s, (inputTranscription sc), (outputTranscription sc); repeat split.
Qed.

Lemma handleTurnComplete_keeps sc : keepsAnimation (handleTurnComplete sc).
Proof.
  intros s. unfold handleTurnComplete.
  destruct s, (turnComplete sc); repeat split.
Qed.

Lemma stopAudioProcessing_keeps : keepsAnimation stopAudioProcessing.
Proof.
  intros s. unfold stopAudioProcessing. destruct s. cbn.
  destruct scriptProcessorRef0, mediaStreamSourceRef0, audioStreamRef0;
    repeat split.
Qed.

Lemma setStatus_keeps v : keepsAnimation (setStatus v).
Proof. intros s. destruct s. repeat split. Qed.

Lemma handleInterrupted_idle sc (s : State) :
  idleWithPortrait s ->
  idleWithPortrait (handleInterrupted sc s)
  /\ smoothedVolumeRef (handleInterrupted sc s) = smoothedVolumeRef s.
Proof.
  intros Hi. unfold handleInterrupted.
  destruct (interrupted sc); [|auto].
  match goal with
  | |- context [stopAnimation ?t] =>
      assert (Ht : idleWithPortrait t
                   /\ smoothedVolumeRef t = smoothedVolumeRef s)
  end.
  { revert Hi. unfold idleWithPortrait, animationIdle, showsPortrait.
    destruct s. cbn. auto. }
  destruct Ht as [Ht Hv].
  destruct (stopAnimation_idle _ Ht) as [H1 H2].
  split; [exact H1 | now rewrite H2].
Qed.

Lemma onended_idle id (s : State) :
  idleWithPortrait s ->
  idleWithPortrait (onended id s)
  /\ smoothedVolumeRef (onended id s) = smoothedVolumeRef s.
Proof.
  intros Hi. unfold onended.
  set (s1 := set_audioSourcesRef (setDelete id (audioSourcesRef s)) s).
  assert (H1 : idleWithPortrait s1 /\ smoothedVolumeRef s1 = smoothedVolumeRef s).
  { revert Hi. unfold idleWithPortrait, animationIdle, showsPortrait.
    subst s1. destruct s. cbn. auto. }
  destruct H1 as [H1 Hv].
  set (n := Z.max 0 (activeAudioSources s1 - 1)).
  assert (H2 : idleWithPortrait (if (n =? 0)%Z then stopAnimation s1 else s1)
               /\ smoothedVolumeRef (if (n =? 0)%Z then stopAnimation s1 else s1)
                  = smoothedVolumeRef s).
  { destruct (n =? 0)%Z; [|auto].
    destruct (stopAnimation_idle _ H1) as [Ha Hb].
    split; [exact Ha | now rewrite Hb]. }
  revert H2. generalize (if (n =? 0)%Z then stopAnimation s1 else s1) as s2.
  intros s2. unfold idleWithPortrait, animationIdle, showsPortrait.
  destruct s2. cbn. auto.
Qed.

(** Without mouth coordinates no handler starts the animation loop,
    computes a loudness, or draws anything but the static portrait. *)
Lemma step_none_idle (s : State) (e : Event) :
  idleWithPortrait s ->
  idleWithPortrait (step None s e)
  /\ smoothedVolumeRef (step None s e) = smoothedVolumeRef s.
Proof.
  intros Hi. destruct e as [env message | id | id wave | |]; cbn [step].
  - unfold onmessage.
    destruct (getAudioData message) as [audioData|]; [|auto].
    destruct (keepsAnimation_idle _ s (scheduleAudio_none_keeps env audioData) Hi)
      as [H1 V1].
    cbv beta in H1, V1.
    destruct (scheduleAudio None env audioData s) as [s1 c].
    cbn [fst] in *. destruct c; [|auto].
    destruct (serverContent message) as [sc|]; [|auto]. cbn [fst].
    destruct (handleInterrupted_idle sc s1 H1) as [H2 V2].
    destruct (keepsAnimation_idle _ _ (handleTranscriptions_keeps sc) H2)
      as [H3 V3].
    destruct (keepsAnimation_idle _ _ (handleTurnComplete_keeps sc) H3)
      as [H4 V4].
    split; [exact H4 | congruence].
  - now apply onended_idle.
  - unfold onAnimationFrame.
    destruct Hi as [[Hid Hp] Hs]. rewrite Hp. cbn.
    unfold idleWithPortrait, animationIdle. auto.
  - unfold onerror.
    destruct (keepsAnimation_idle _ s (setStatus_keeps error) Hi) as [H1 V1].
    destruct (keepsAnimation_idle _ _ stopAudioProcessing_keeps H1) as [H2 V2].
    split; [exact H2 | congruence].
  - unfold onclose.
    exact (keepsAnimation_idle _ s stopAudioProcessing_keeps Hi).
Qed.

(** Handlers that touch only what the animator owns. *)
Lemma animateMouth_forget mouth wave (s : State) :
  forgetAnimation (animateMouth mouth wave s) = forgetAnimation s.
Proof.
  unfold animateMouth.
  destruct (analyserNodeRef s), (canvasRef s) as [canvas|], (imageRef s), mouth;
    try (destruct s; reflexivity).
  destruct (hasContext2d canvas); destruct s; reflexivity.
Qed.

Lemma cancelAnimationRef_forget (s : State) :
  forgetAnimation (cancelAnimationRef s) = forgetAnimation s.
Proof.
  unfold cancelAnimationRef.
  destruct (truthyFrameId (animationFrameIdRef s)); [|reflexivity].
  destruct (animationFrameIdRef s); destruct s; reflexivity.
Qed.

Lemma stopAnimation_forget (s : State) :
  forgetAnimation (stopAnimation s) = forgetAnimation s.
Proof.
  unfold stopAnimation. rewrite <- (cancelAnimationRef_forget s).
  generalize (cancelAnimationRef s) as t. intros t.
  destruct (canvasRef t) as [canvas|]; [|reflexivity].
  destruct (imageRef t); [|reflexivity].
  destruct (hasContext2d canvas); destruct t; reflexivity.
Qed.

Lemma startAnimationIfIdle_forget mouth env (s : State) :
  forgetAnimation (startAnimationIfIdle mouth env s) = forgetAnimation s.
Proof.
  unfold startAnimationIfIdle.
  destruct (animationFrameIdRef s), mouth; try reflexivity.
  apply animateMouth_forget.
Qed.

Lemma onAnimationFrame_forget mouth id wave (s : State) :
  forgetAnimation (onAnimationFrame mouth id wave s) = forgetAnimation s.
Proof.
  unfold onAnimationFrame.
  destruct (existsb (N.eqb id) (pendingFrames s)); [|reflexivity].
  rewrite animateMouth_forget. destruct s. reflexivity.
Qed.

(** Two states that agree outside the animator. *)
Ltac same_outside H :=
  unfold forgetAnimation in H; cbn in H; injection H; intros; subst; clear H.

Lemma forget_guards (a b : State) :
  forgetAnimation a = forgetAnimation b ->
  outputAudioContextRef a = outputAudioContextRef b
  /\ analyserNodeRef a = analyserNodeRef b
  /\ playback a = playback b
  /\ transcripts a = transcripts b
  /\ status a = status b.
Proof.
  intros H. destruct a, b. same_outside H. repeat split.
Qed.

Lemma scheduleAudio_forget m1 m2 env audioData (a b : State) :
  forgetAnimation a = forgetAnimation b ->
  forgetAnimation (fst (scheduleAudio m1 env audioData a))
  = forgetAnimation (fst (scheduleAudio m2 env audioData b))
  /\ snd (scheduleAudio m1 env audioData a)
     = snd (scheduleAudio m2 env audioData b).
Proof.
  intros H. destruct (forget_guards a b H) as (Ho & Ha & _).
  unfold scheduleAudio. rewrite Ho, Ha.
  destruct (truthyAudio audioData); [|now split].
  destruct (outputAudioContextRef b); [|now split].
  destruct (analyserNodeRef b); [|now split].
  assert (H1 : forgetAnimation (startAnimationIfIdle m1 env a)
               = forgetAnimation (startAnimationIfIdle m2 env b))
    by now rewrite !startAnimationIfIdle_forget.
  revert H1.
  generalize (startAnimationIfIdle m1 env a) as sa.
  generalize (startAnimationIfIdle m2 env b) as sb.
  intros sb sa H1. destruct sa, sb. same_outside H1.
  destruct (decodeResult env); split; reflexivity.
Qed.

Lemma handleInterrupted_forget sc (a b : State) :
  forgetAnimation a = forgetAnimation b ->
  forgetAnimation (handleInterrupted sc a)
  = forgetAnimation (handleInterrupted sc b).
Proof.
  intros H. unfold handleInterrupted.
  destruct (interrupted sc); [|exact H].
  rewrite !stopAnimation_forget. destruct a, b. same_outside H. reflexivity.
Qed.

Lemma handleTranscriptions_forget sc (a b : State) :
  forgetAnimation a = forgetAnimation b ->
  forgetAnimation (handleTranscriptions sc a)
  = forgetAnimation (handleTranscriptions sc b).
Proof.
  intros H. unfold handleTranscriptions. destruct a, b. same_outside H.
  destruct (inputTranscription sc), (outputTranscription sc); reflexivity.
Qed.

Lemma handleTurnComplete_forget sc (a b : State) :
  forgetAnimation a = forgetAnimation b ->
  forgetAnimation (handleTurnComplete sc a)
  = forgetAnimation (handleTurnComplete sc b).
Proof.
  intros H. unfold handleTurnComplete. destruct a, b. same_outside H.
  destruct (turnComplete sc); reflexivity.
Qed.

Lemma onended_forget id (a b : State) :
  forgetAnimation a = forgetAnimation b ->
  forgetAnimation (onended id a) = forgetAnimation (onended id b).
Proof.
  intros H. unfold onended.
  destruct (forget_guards a b H) as (_ & _ & Hp & _).
  rewrite (playback_sources _ _ Hp).
  set (a1 := set_audioSourcesRef (setDelete id (audioSourcesRef b)) a).
  set (b1 := set_audioSourcesRef (setDelete id (audioSourcesRef b)) b).
  assert (H1 : forgetAnimation a1 = forgetAnimation b1).
  { subst a1 b1. destruct a, b. same_outside H. reflexivity. }
  assert (Hc : activeAudioSources a1 = activeAudioSources b1).
  { apply playback_count. now destruct (forget_guards a1 b1 H1) as (_ & _ & Hq & _). }
  rewrite Hc.
  set (n := Z.max 0 (activeAudioSources b1 - 1)).
  assert (H2 : forgetAnimation (if (n =? 0)%Z then stopAnimation a1 else a1)
               = forgetAnimation (if (n =? 0)%Z then stopAnimation b1 else b1)).
  { destruct (n =? 0)%Z; [|exact H1]. now rewrite !stopAnimation_forget. }
  revert H2.
  generalize (if (n =? 0)%Z then stopAnimation a1 else a1) as a2.
  generalize (if (n =? 0)%Z then stopAnimation b1 else b1) as b2.
  intros b2 a2 H2. destruct a2, b2. same_outside H2. reflexivity.
Qed.

Ltac case_refs :=
  repeat match goal with
  | |- context [match ?x with Some _ => _ | None => _ end] =>
      is_var x; destruct x; cbn
  end.

Lemma stopAudioProcessing_forget (a b : State) :
  forgetAnimation a = forgetAnimation b ->
  forgetAnimation (stopAudioProcessing a)
  = forgetAnimation (stopAudioProcessing b).
Proof.
  intros H. unfold stopAudioProcessing.
  destruct a, b. same_outside H. cbn. case_refs; reflexivity.
Qed.

Lemma setStatus_forget v (a b : State) :
  forgetAnimation a = forgetAnimation b ->
  forgetAnimation (setStatus v a) = forgetAnimation (setStatus v b).
Proof.
  intros H. destruct a, b. same_outside H. reflexivity.
Qed.

Lemma onerror_forget (a b : State) :
  forgetAnimation a = forgetAnimation b ->
  forgetAnimation (onerror a) = forgetAnimation (onerror b).
Proof.
  intros H. unfold onerror.
  now apply stopAudioProcessing_forget, setStatus_forget.
Qed.

Lemma onclose_forget (a b : State) :
  forgetAnimation a = forgetAnimation b ->
  forgetAnimation (onclose a) = forgetAnimation (onclose b).
Proof.
  intros H. unfold onclose. now apply stopAudioProcessing_forget.
Qed.

(** Whether or not there are mouth coordinates, a handler does the same
    to everything outside the animator. *)
Lemma step_forget m1 m2 (e : Event) (a b : State) :
  forgetAnimation a = forgetAnimation b ->
  forgetAnimation (step m1 a e) = forgetAnimation (step m2 b e).
Proof.
  intros H. destruct e as [env message | id | id wave | |]; cbn [step].
  - unfold onmessage.
    destruct (getAudioData message) as [audioData|]; [|exact H].
    destruct (scheduleAudio_forget m1 m2 env audioData a b H) as [H1 H2].
    destruct (scheduleAudio m1 env audioData a) as [a1 ca].
    destruct (scheduleAudio m2 env audioData b) as [b1 cb].
    cbn [fst snd] in *. subst cb. destruct ca; [|exact H1].
    destruct (serverContent message) as [sc|]; [|exact H1]. cbn [fst].
    now apply handleTurnComplete_forget, handleTranscriptions_forget,
      handleInterrupted_forget.
  - now apply onended_forget.
  - now rewrite !onAnimationFrame_forget.
  - now apply onerror_forget.
  - now apply onclose_forget.
Qed.

Lemma run_forget m1 m2 events :
  forall a b : State,
    forgetAnimation a = forgetAnimation b ->
    forgetAnimation (run m1 events a) = forgetAnimation (run m2 events b).
Proof.
  induction events as [|e rest IH]; intros a b H; [exact H|].
  unfold run in *. cbn [fold_left]. apply IH. now apply step_forget.
Qed.

Lemma run_none_idle events :
  forall s : State,
    idleWithPortrait s ->
    idleWithPortrait (run None events s)
    /\ smoothedVolumeRef (run None events s) = smoothedVolumeRef s.
Proof.
  induction events as [|e rest IH]; intros s H; [now split|].
  unfold run in *. cbn [fold_left].
  destruct (step_none_idle s e H) as [H1 V1].
  destruct (IH _ H1) as [H2 V2]. split; [exact H2 | congruence].
Qed.

(** C9: in a session without a mouth region ([mouthCoordinates] is
    [null]) that starts with no animation loop and the portrait on the
    canvas, whatever messages, source completions, frame callbacks, errors
    and closes occur, the animation loop is never started (no frame id is
    held, no callback is pending, no loudness is computed) and the canvas
    keeps showing the static portrait; and the scheduler, the transcript
    and the status evolve exactly as they do in the same session with a
    mouth region. *)
Theorem no_mouth_region_disables_animation_only :
  forall events (s : State),
    animationIdle s ->
    showsPortrait s ->
    let s' := run None events s in
    animationIdle s'
    /\ showsPortrait s'
    /\ smoothedVolumeRef s' = smoothedVolumeRef s
    /\ forall coords,
         playback s' = playback (run (Some coords) events s)
         /\ transcripts s' = transcripts (run (Some coords) events s)
         /\ status s' = status (run (Some coords) events s).
Proof.
  intros events s Hid Hp s'. subst s'.
  destruct (run_none_idle events s (conj Hid Hp)) as [[H1 H2] H3].
  split; [exact H1|]. split; [exact H2|]. split; [exact H3|].
  intros coords.
  pose proof (run_forget None (Some coords) events s s eq_refl) as Hf.
  destruct (forget_guards _ _ Hf) as (_ & _ & Ha & Hb & Hc).
  repeat split; assumption.
Qed.

Lemma no_mouth_region_disables_animation_only_witness :
  let events := [EvMessage (envAt 0 2) chunkMessage; EvFrame 1 fullScale;
                 EvEnded 0] in
  animationFrameIdRef (run None events liveState) = None
  /\ pendingFrames (run None events liveState) = []
  /\ map nodeId (started (run None events liveState)) = [0%nat]
  /\ playback (run None events liveState)
     = playback (run (Some someMouth) events liveState)
  /\ pendingFrames (run (Some someMouth) [EvMessage (envAt 0 2) chunkMessage]
                      liveState) = [1%N].
Proof.
  intros events.
  assert (Hid : animationIdle liveState) by (split; vm_compute; reflexivity).
  assert (Hp : showsPortrait liveState) by (left; evaluate; reflexivity).
  destruct (no_mouth_region_disables_animation_only events liveState Hid Hp)
    as ([H1 H2] & _ & _ & H4).
  destruct (H4 someMouth) as (H5 & _).
  repeat split; try assumption; vm_compute; reflexivity.
Defined.

(** ** Mouth localisation in the App component *)

Lemma falsy_coordinate_rejected fields :
  hasFalsyCoordinate fields = true ->
  App.hasAllCoordinates (App.JObject fields) = Some false.
Proof.
  unfold hasFalsyCoordinate, coordinateKeys, App.hasAllCoordinates. cbn.
  destruct (App.truthy (App.lookupLast "x" fields)); [|reflexivity].
  destruct (App.truthy (App.lookupLast "y" fields)); [|reflexivity].
  destruct (App.truthy (App.lookupLast "width" fields)); [|reflexivity].
  destruct (App.truthy (App.lookupLast "height" fields)); [|reflexivity].
  cbn. discriminate.
Qed.

Lemma detectVoice_mouth reply (a : App.AppState) :
  App.mouthCoordinates (App.detectVoice reply a) = App.mouthCoordinates a.
Proof.
  unfold App.detectVoice.
  repeat match goal with
  | |- context [match ?x with _ => _ end] => destruct x
  end; reflexivity.
Qed.

(** With no region set before, a reply with a falsy coordinate and a
    reply that does not parse leave the same state. *)
Lemma detectMouth_falsy fields (a : App.AppState) :
  App.mouthCoordinates a = None ->
  hasFalsyCoordinate fields = true ->
  App.detectMouth (App.ReplyJson (App.JObject fields)) a = a
  /\ App.detectMouth App.ReplyUnparsable a = a.
Proof.
  intros Hn Hf. unfold App.detectMouth.
  rewrite (falsy_coordinate_rejected fields Hf).
  destruct a. cbn in *. subst. split; reflexivity.
Qed.

(** A reply with a falsy coordinate sets nothing: whatever the journey's
    outcome, the App keeps the mouth coordinates it had. *)
Lemma falsy_coordinate_leaves_region :
  forall env fields (a : App.AppState),
    App.mouthReply env = Some (App.ReplyJson (App.JObject fields)) ->
    hasFalsyCoordinate fields = true ->
    App.mouthCoordinates (App.handleStartJourney env a) = App.mouthCoordinates a.
Proof.
  intros env fields a Hr Hf.
  unfold App.handleStartJourney. rewrite Hr.
  destruct (App.photoObjectUrl env) as [url|]; [|destruct a; reflexivity].
  destruct (App.personaText env) as [prompt|]; [|destruct a; reflexivity].
  unfold App.detectMouth. rewrite (falsy_coordinate_rejected fields Hf).
  destruct (App.hasMediaFile env); [destruct a; reflexivity|].
  destruct (App.genderReply env) as [g|]; [|destruct a; reflexivity].
  change (App.mouthCoordinates
            (App.detectVoice g
               (App.setPersonalityPrompt prompt
                  (App.setPhotoUrl (Some url)
                     (App.setError None (App.setAppState App.generating a)))))
          = App.mouthCoordinates a).
  rewrite detectVoice_mouth. destruct a; reflexivity.
Qed.

(** On an App that holds no region (a fresh one, or one left by
    [handleEndConversation]) a reply with a falsy coordinate ends the
    journey in exactly the state a reply that does not parse ends it in,
    the mouth coordinates being [null]. *)
Lemma falsy_coordinate_on_clean_app :
  forall env fields (a : App.AppState),
    App.mouthCoordinates a = None ->
    App.mouthReply env = Some (App.ReplyJson (App.JObject fields)) ->
    hasFalsyCoordinate fields = true ->
    let a' := App.handleStartJourney env a in
    a' = App.handleStartJourney (withMouthReply App.ReplyUnparsable env) a
    /\ App.mouthCoordinates a' = None.
Proof.
  intros env fields a Hn Hr Hf a'. split.
  - subst a'. unfold App.handleStartJourney, withMouthReply.
    cbn [App.mouthReply App.photoObjectUrl App.personaText App.hasMediaFile
         App.genderReply].
    rewrite Hr.
    destruct (App.photoObjectUrl env) as [url|]; [|reflexivity].
    destruct (App.personaText env) as [prompt|]; [|reflexivity].
    match goal with
    | |- context [App.detectMouth App.ReplyUnparsable ?x] =>
        assert (Hx : App.mouthCoordinates x = None)
          by (destruct a; cbn in *; exact Hn);
        destruct (detectMouth_falsy fields x Hx Hf) as [E1 E2];
        rewrite E1, E2
    end.
    reflexivity.
  - subst a'. rewrite (falsy_coordinate_leaves_region env fields a Hr Hf).
    exact Hn.
Qed.

(** C10: the region is not discarded when the App still holds one.  A
    first journey finds the mouth and then fails at the gender call, so
    the App returns to the upload screen with that region set.  In the
    next journey the mouth is reported with [x = 0]: the App reaches the
    conversation with the region of the first photo, where a reply that
    does not parse would have left [null]; the conversation view is
    rendered with that region, and whatever numbers it reads from it, the
    first audio chunk starts the animation loop, which without a region
    stays off. *)
Theorem falsy_coordinate_keeps_stale_region :
  let a1 := App.handleStartJourney genderFailsJourney App.initialApp in
  let a2 := App.handleStartJourney leftEdgeJourney a1 in
  let a2' :=
    App.handleStartJourney
      (withMouthReply App.ReplyUnparsable leftEdgeJourney) a1 in
  (App.appState a1 = App.upload
   /\ App.mouthCoordinates a1 = Some earlierRegion)
  /\ (App.appState a2 = App.conversation
      /\ App.mouthCoordinates a2 = Some earlierRegion)
  /\ (App.appState a2' = App.conversation
      /\ App.mouthCoordinates a2' = None)
  /\ fst (renderContent a2)
     = RenderConversation "blob:photo" "You are a schoolteacher." "Zephyr"
         (Some earlierRegion)
  /\ (forall coords : MouthCoordinates,
        let s := fst (onmessage (Some coords) (envAt 0 2) chunkMessage liveState) in
        animationFrameIdRef s = Some 1%N /\ pendingFrames s = [1%N])
  /\ animationIdle (fst (onmessage None (envAt 0 2) chunkMessage liveState)).
Proof.
  intros a1 a2 a2'.
  split; [split; vm_compute; reflexivity|].
  split; [split; vm_compute; reflexivity|].
  split; [split; vm_compute; reflexivity|].
  split; [vm_compute; reflexivity|].
  split.
  - intros coords s. subst s. split; vm_compute; reflexivity.
  - split; vm_compute; reflexivity.
Qed.

(** ** Further properties of the teardown routines *)

Lemma closeContext_idempotent (c : option AudioContext) :
  closeContext (closeContext c) = closeContext c.
Proof.
  destruct c as [[rate st]|]; [|reflexivity]. destruct st; reflexivity.
Qed.

Lemma closeContext_released (c : option AudioContext) :
  contextReleased (closeContext c).
Proof.
  destruct c as [[rate st]|]; [|exact I]. destruct st; reflexivity.
Qed.

(** X1: stopping the audio processing twice is the same as stopping it
    once; after it no stream is held and both contexts are absent or
    closed. *)
Theorem stopAudioProcessing_idempotent :
  forall s : State,
    stopAudioProcessing (stopAudioProcessing s) = stopAudioProcessing s
    /\ audioStreamRef (stopAudioProcessing s) = None
    /\ contextReleased (inputAudioContextRef (stopAudioProcessing s))
    /\ contextReleased (outputAudioContextRef (stopAudioProcessing s)).
Proof.
  intros s. unfold stopAudioProcessing. destruct s. cbn.
  destruct scriptProcessorRef0, mediaStreamSourceRef0, audioStreamRef0; cbn;
    rewrite ?closeContext_idempotent;
    (split; [reflexivity|]); (split; [reflexivity|]);
    split; apply closeContext_released.
Qed.

Lemma cancelAnimationRef_falsy (s : State) :
  truthyFrameId (animationFrameIdRef (cancelAnimationRef s)) = false.
Proof.
  unfold cancelAnimationRef.
  destruct (animationFrameIdRef s) as [id|] eqn:E; cbn.
  - destruct (negb (id =? 0)%N) eqn:T.
    + destruct s. reflexivity.
    + rewrite E. exact T.
  - now rewrite E.
Qed.

(** X2: [endConversation], from any state: the status is idle, the
    session is closed and dropped, the microphone stream is stopped and
    dropped, both contexts are absent or closed, every source of the
    active set is stopped and the set is empty, no frame id is held and
    the parent's [onEnd] has run once.  It does not reset the
    active-source count or the next start time, and does not redraw the
    canvas. *)
Theorem endConversation_tears_down :
  forall s : State,
    let s' := endConversation s in
    status s' = idle
    /\ sessionPromiseRef s' = None
    /\ (forall session,
          sessionPromiseRef s = Some session -> In session (closedSessions s'))
    /\ audioStreamRef s' = None
    /\ (forall stream,
          audioStreamRef s = Some stream -> In stream (stoppedStreams s'))
    /\ contextReleased (inputAudioContextRef s')
    /\ contextReleased (outputAudioContextRef s')
    /\ audioSourcesRef s' = []
    /\ (forall node,
          In node (audioSourcesRef s) -> In (nodeId node) (stopped s'))
    /\ truthyFrameId (animationFrameIdRef s') = false
    /\ onEndCalls s' = S (onEndCalls s)
    /\ activeAudioSources s' = activeAudioSources s
    /\ nextStartTimeRef s' = nextStartTimeRef s
    /\ canvasRef s' = canvasRef s.
Proof.
  intros s s'. subst s'. unfold endConversation.
  set (s2 := match sessionPromiseRef (setStatus idle s) with
             | Some _ => set_sessionPromiseRef None (closeSession (setStatus idle s))
             | None => setStatus idle s
             end).
  set (s3 := stopAudioProcessing s2).
  pose proof (cancelAnimationRef_falsy s3) as Hfalsy.
  assert (H2 : status s2 = idle
               /\ sessionPromiseRef s2 = None
               /\ (forall session, sessionPromiseRef s = Some session ->
                                   In session (closedSessions s2))
               /\ audioStreamRef s2 = audioStreamRef s
               /\ stoppedStreams s2 = stoppedStreams s
               /\ playback s2 = playback s
               /\ canvasRef s2 = canvasRef s
               /\ onEndCalls s2 = onEndCalls s).
  { subst s2. unfold closeSession. destruct s. cbn.
    destruct sessionPromiseRef0; cbn; repeat split; try discriminate.
    intros session Hs. injection Hs as ->. apply in_or_app. right. now left. }
  destruct H2 as (A1 & A2 & A3 & A4 & A5 & A6 & A7 & A8).
  assert (H3 : status s3 = idle
               /\ sessionPromiseRef s3 = None
               /\ closedSessions s3 = closedSessions s2
               /\ audioStreamRef s3 = None
               /\ (forall stream, audioStreamRef s = Some stream ->
                                  In stream (stoppedStreams s3))
               /\ contextReleased (inputAudioContextRef s3)
               /\ contextReleased (outputAudioContextRef s3)
               /\ playback s3 = playback s
               /\ canvasRef s3 = canvasRef s
               /\ onEndCalls s3 = onEndCalls s).
  { subst s3. rewrite <- A4, <- A6, <- A7, <- A8. revert A1 A2. clear.
    generalize s2 as t. intros t A1 A2.
    unfold stopAudioProcessing. destruct t. cbn in *. subst.
    destruct scriptProcessorRef0, mediaStreamSourceRef0, audioStreamRef0; cbn;
      repeat split; try apply closeContext_released; try discriminate;
      intros stream Hs; injection Hs as ->; apply in_or_app; right; now left. }
  destruct H3 as (B1 & B2 & B3 & B4 & B5 & B6 & B7 & B8 & B9 & B10).
  revert Hfalsy.
  assert (H4 : status (cancelAnimationRef s3) = status s3
               /\ sessionPromiseRef (cancelAnimationRef s3) = sessionPromiseRef s3
               /\ closedSessions (cancelAnimationRef s3) = closedSessions s3
               /\ audioStreamRef (cancelAnimationRef s3) = audioStreamRef s3
               /\ stoppedStreams (cancelAnimationRef s3) = stoppedStreams s3
               /\ inputAudioContextRef (cancelAnimationRef s3) = inputAudioContextRef s3
               /\ outputAudioContextRef (cancelAnimationRef s3) = outputAudioContextRef s3
               /\ playback (cancelAnimationRef s3) = playback s3
               /\ canvasRef (cancelAnimationRef s3) = canvasRef s3
               /\ onEndCalls (cancelAnimationRef s3) = onEndCalls s3).
  { unfold cancelAnimationRef.
    destruct (truthyFrameId (animationFrameIdRef s3)); [|repeat split].
    destruct (animationFrameIdRef s3); [|repeat split].
    destruct s3; repeat split. }
  destruct H4 as (C1 & C2 & C3 & C4 & C5 & C6 & C7 & C8 & C9 & C10).
  intros Hfalsy.
  set (t := cancelAnimationRef s3) in *.
  set (u := set_onEndCalls _ _).
  assert (H5 : status u = status t
               /\ sessionPromiseRef u = sessionPromiseRef t
               /\ closedSessions u = closedSessions t
               /\ audioStreamRef u = audioStreamRef t
               /\ stoppedStreams u = stoppedStreams t
               /\ inputAudioContextRef u = inputAudioContextRef t
               /\ outputAudioContextRef u = outputAudioContextRef t
               /\ audioSourcesRef u = []
               /\ stopped u = stopped t ++ map nodeId (audioSourcesRef t)
               /\ animationFrameIdRef u = animationFrameIdRef t
               /\ onEndCalls u = S (onEndCalls t)
               /\ activeAudioSources u = activeAudioSources t
               /\ nextStartTimeRef u = nextStartTimeRef t
               /\ canvasRef u = canvasRef t).
  { subst u. destruct t. repeat split. }
  destruct H5 as (D1 & D2 & D3 & D4 & D5 & D6 & D7 & D8 & D9 & D10 & D11
                  & D12 & D13 & D14).
  pose proof (playback_sources _ _ C8) as S1.
  pose proof (playback_sources _ _ B8) as S2.
  pose proof (playback_count _ _ C8) as K1.
  pose proof (playback_count _ _ B8) as K2.
  pose proof (playback_next _ _ C8) as N1.
  pose proof (playback_next _ _ B8) as N2.
  split; [congruence|]. split; [congruence|].
  split. { intros session Hs. rewrite D3, C3, B3. now apply A3. }
  split; [congruence|].
  split. { intros stream Hs. rewrite D5, C5. now apply B5. }
  split. { rewrite D6, C6. exact B6. }
  split. { rewrite D7, C7. exact B7. }
  split; [exact D8|].
  split. { intros node Hin. rewrite D9. apply in_or_app. right.
           apply in_map. rewrite S1, S2. exact Hin. }
  split. { rewrite D10. exact Hfalsy. }
  split; [congruence|]. split; [congruence|]. split; congruence.
Qed.

(** ** A single animation loop *)

Lemma singleLoop_same (s t : State) :
  animationFrameIdRef t = animationFrameIdRef s ->
  pendingFrames t = pendingFrames s ->
  singleLoop s -> singleLoop t.
Proof. unfold singleLoop. intros -> ->. trivial. Qed.

Lemma keepsAnimation_loop f (s : State) :
  keepsAnimation f -> singleLoop s -> singleLoop (f s).
Proof.
  intros Hk. destruct (Hk s) as (H1 & H2 & _). now apply singleLoop_same.
Qed.

Lemma animateMouth_loop mouth wave (s : State) :
  pendingFrames s = [] -> singleLoop (animateMouth mouth wave s).
Proof.
  intros Hp.
  assert (Hr : singleLoop (rescheduleAnimation s)).
  { right. exists (N.succ (rafCounter s)). destruct s. cbn in *. subst.
    repeat split. apply N.neq_succ_0. }
  unfold animateMouth.
  destruct (analyserNodeRef s), (canvasRef s) as [canvas|], (imageRef s), mouth;
    try exact Hr.
  destruct (hasContext2d canvas); [|now left].
  right. exists (N.succ (rafCounter s)). destruct s. cbn in *. subst.
  repeat split. apply N.neq_succ_0.
Qed.

Lemma cancelAnimationRef_loop (s : State) :
  singleLoop s -> pendingFrames (cancelAnimationRef s) = [].
Proof.
  unfold cancelAnimationRef. intros [Hp | (id & Hp & Hr & Hz)].
  - destruct (truthyFrameId (animationFrameIdRef s)); [|exact Hp].
    destruct (animationFrameIdRef s); [|exact Hp].
    destruct s. cbn in *. now subst.
  - rewrite Hr. cbn. apply N.eqb_neq in Hz. rewrite Hz. cbn.
    destruct s. cbn in *. subst. cbn. now rewrite N.eqb_refl.
Qed.

Lemma stopAnimation_loop (s : State) :
  singleLoop s -> pendingFrames (stopAnimation s) = [].
Proof.
  intros H. unfold stopAnimation.
  pose proof (cancelAnimationRef_loop s H) as Hp. revert Hp.
  generalize (cancelAnimationRef s) as t. intros t Hp.
  destruct (canvasRef t) as [canvas|]; [|exact Hp].
  destruct (imageRef t); [|exact Hp].
  destruct (hasContext2d canvas); [|exact Hp].
  destruct t. exact Hp.
Qed.

Lemma startAnimationIfIdle_loop mouth env (s : State) :
  singleLoop s -> singleLoop (startAnimationIfIdle mouth env s).
Proof.
  intros H. unfold startAnimationIfIdle.
  destruct (animationFrameIdRef s) eqn:E; [exact H|].
  destruct mouth; [|exact H].
  apply animateMouth_loop.
  destruct H as [Hp | (id & _ & Hr & _)]; [exact Hp | congruence].
Qed.

Lemma scheduleAudio_loop mouth env audioData (s : State) :
  singleLoop s -> singleLoop (fst (scheduleAudio mouth env audioData s)).
Proof.
  intros H. unfold scheduleAudio.
  destruct (truthyAudio audioData); [|exact H].
  destruct (outputAudioContextRef s); [|exact H].
  destruct (analyserNodeRef s); [|exact H].
  pose proof (startAnimationIfIdle_loop mouth env s H) as H1. revert H1.
  generalize (startAnimationIfIdle mouth env s) as t. intros t H1.
  destruct (decodeResult env); cbn [fst];
    (eapply singleLoop_same; [| |exact H1]); destruct t; reflexivity.
Qed.

Lemma handleInterrupted_loop sc (s : State) :
  singleLoop s -> singleLoop (handleInterrupted sc s).
Proof.
  intros H. unfold handleInterrupted.
  destruct (interrupted sc); [|exact H].
  left. apply stopAnimation_loop.
  eapply singleLoop_same; [| |exact H]; destruct s; reflexivity.
Qed.

Lemma onended_loop id (s : State) :
  singleLoop s -> singleLoop (onended id s).
Proof.
  intros H. unfold onended.
  set (s1 := set_audioSourcesRef (setDelete id (audioSourcesRef s)) s).
  assert (H1 : singleLoop s1).
  { eapply singleLoop_same; [| |exact H]; subst s1; destruct s; reflexivity. }
  set (n := Z.max 0 (activeAudioSources s1 - 1)).
  assert (H2 : singleLoop (if (n =? 0)%Z then stopAnimation s1 else s1)).
  { destruct (n =? 0)%Z; [|exact H1]. left. now apply stopAnimation_loop. }
  revert H2. generalize (if (n =? 0)%Z then stopAnimation s1 else s1) as s2.
  intros s2 H2.
  eapply singleLoop_same; [| |exact H2]; destruct s2; reflexivity.
Qed.

Lemma onAnimationFrame_loop mouth id wave (s : State) :
  singleLoop s -> singleLoop (onAnimationFrame mouth id wave s).
Proof.
  intros H. unfold onAnimationFrame.
  destruct (existsb (N.eqb id) (pendingFrames s)) eqn:E; [|exact H].
  apply animateMouth_loop.
  destruct H as [Hp | (id' & Hp & _ & _)].
  - rewrite Hp in E. discriminate.
  - rewrite Hp in E. cbn in E. rewrite orb_false_r in E.
    apply N.eqb_eq in E. subst id'.
    destruct s. cbn in *. subst. cbn. now rewrite N.eqb_refl.
Qed.

Lemma step_loop mouth (s : State) (e : Event) :
  singleLoop s -> singleLoop (step mouth s e).
Proof.
  intros H. destruct e as [env message | id | id wave | |]; cbn [step].
  - unfold onmessage.
    destruct (getAudioData message) as [audioData|]; [|exact H].
    pose proof (scheduleAudio_loop mouth env audioData s H) as H1.
    destruct (scheduleAudio mouth env audioData s) as [s1 c].
    cbn [fst] in *. destruct c; [|exact H1].
    destruct (serverContent message) as [sc|]; [|exact H1]. cbn [fst].
    apply (keepsAnimation_loop _ _ (handleTurnComplete_keeps sc)).
    apply (keepsAnimation_loop _ _ (handleTranscriptions_keeps sc)).
    now apply handleInterrupted_loop.
  - now apply onended_loop.
  - now apply onAnimationFrame_loop.
  - unfold onerror.
    apply (keepsAnimation_loop _ _ stopAudioProcessing_keeps).
    now apply (keepsAnimation_loop _ _ (setStatus_keeps error)).
  - unfold onclose. now apply (keepsAnimation_loop _ _ stopAudioProcessing_keeps).
Qed.

Lemma startConversation_loop_fields env (s : State) :
  animationFrameIdRef (startConversation env s) = animationFrameIdRef s
  /\ pendingFrames (startConversation env s) = pendingFrames s.
Proof.
  unfold startConversation.
  destruct (getUserMedia env); [|destruct s; split; reflexivity].
  destruct (newAudioContext env INPUT_SAMPLE_RATE);
    [|destruct s; split; reflexivity].
  destruct (newAudioContext env OUTPUT_SAMPLE_RATE);
    [|destruct s; split; reflexivity].
  destruct (newGoogleGenAI env); destruct s; split; reflexivity.
Qed.

Lemma endConversation_pending (s : State) :
  singleLoop s -> pendingFrames (endConversation s) = [].
Proof.
  intros H. unfold endConversation.
  set (s2 := match sessionPromiseRef (setStatus idle s) with
             | Some _ => set_sessionPromiseRef None (closeSession (setStatus idle s))
             | None => setStatus idle s
             end).
  assert (H2 : singleLoop s2).
  { eapply singleLoop_same; [| |exact H]; subst s2; unfold closeSession;
      destruct s; cbn; destruct sessionPromiseRef0; reflexivity. }
  pose proof (keepsAnimation_loop _ _ stopAudioProcessing_keeps H2) as H3.
  pose proof (cancelAnimationRef_loop _ H3) as H4. revert H4.
  generalize (cancelAnimationRef (stopAudioProcessing s2)) as t. intros t H4.
  destruct t. exact H4.
Qed.

Lemma cleanup_pending (s : State) :
  singleLoop s -> pendingFrames (cleanup s) = [].
Proof.
  intros H. unfold cleanup.
  destruct (stopAudioProcessing_keeps (stopAnimation (closeSession s)))
    as (_ & Hp & _).
  rewrite Hp. apply stopAnimation_loop.
  eapply singleLoop_same; [| |exact H]; unfold closeSession;
    destruct s; cbn; destruct sessionPromiseRef0; reflexivity.
Qed.

Lemma act_loop mouth (s : State) (a : Action) :
  singleLoop s -> singleLoop (act mouth s a).
Proof.
  intros H. destruct a as [e | env | source proc | | | img container]; cbn [act].
  - now apply step_loop.
  - destruct (startConversation_loop_fields env s) as [H1 H2].
    now apply (singleLoop_same s).
  - eapply singleLoop_same; [| |exact H]; unfold onopen;
      destruct s; cbn; destruct inputAudioContextRef0; reflexivity.
  - left. now apply endConversation_pending.
  - left. now apply cleanup_pending.
  - eapply singleLoop_same; [| |exact H]; unfold onImageLoad;
      destruct (canvasRef s) as [canvas|]; try reflexivity;
      destruct (hasContext2d canvas); try reflexivity;
      destruct container; destruct s; reflexivity.
Qed.

(** X3: the view never runs two animation loops.  From a state with at
    most one pending animation callback, the one whose id is in
    [animationFrameIdRef], any sequence of starts, opens, messages, source
    completions, frame callbacks, errors, closes, image loads, ends and
    unmounts leads to such a state again; and after an interruption, an
    end or an unmount no callback is pending at all. *)
Theorem animation_loop_is_single :
  forall mouth actions (s : State),
    singleLoop s ->
    let s' := runActions mouth actions s in
    singleLoop s'
    /\ pendingFrames (endConversation s') = []
    /\ pendingFrames (cleanup s') = []
    /\ pendingFrames (stopAnimation s') = [].
Proof.
  intros mouth actions. induction actions as [|a rest IH]; intros s H s'.
  - subst s'. unfold runActions. cbn [fold_left].
    split; [exact H|]. split; [|split].
    + now apply endConversation_pending.
    + now apply cleanup_pending.
    + now apply stopAnimation_loop.
  - subst s'. unfold runActions in *. cbn [fold_left].
    apply IH. now apply act_loop.
Qed.

(** ** The active-source count *)

Lemma countedSources_same (s t : State) :
  playback t = playback s -> countedSources s -> countedSources t.
Proof.
  intros H. unfold countedSources.
  rewrite (playback_count _ _ H), (playback_sources _ _ H),
    (playback_started _ _ H). trivial.
Qed.

Lemma setDelete_length id (l : list AudioBufferSourceNode) :
  NoDup (map nodeId l) ->
  (List.length l <= S (List.length (setDelete id l)))%nat.
Proof.
  unfold setDelete. induction l as [|x rest IH]; intros Hn; [cbn; lia|].
  cbn [map] in Hn. apply NoDup_cons_iff in Hn. destruct Hn as [Hx Hn].
  cbn [filter]. destruct (Nat.eqb_spec (nodeId x) id) as [E | E]; cbn [negb].
  - assert (Hall : filter (fun y => negb (Nat.eqb (nodeId y) id)) rest = rest).
    { clear IH Hn. induction rest as [|y r IHr]; [reflexivity|].
      cbn [filter]. destruct (Nat.eqb_spec (nodeId y) id) as [Ey | Ey].
      - exfalso. apply Hx. cbn. left. congruence.
      - cbn [negb]. f_equal. apply IHr. intros Hin. apply Hx. now right. }
    rewrite Hall. cbn. lia.
  - specialize (IH Hn). cbn [List.length]. lia.
Qed.

Lemma setDelete_incl id (l : list AudioBufferSourceNode) node :
  In node (setDelete id l) -> In node l.
Proof. unfold setDelete. intros H. now apply filter_In in H. Qed.

Lemma setDelete_NoDup id (l : list AudioBufferSourceNode) :
  NoDup (map nodeId l) -> NoDup (map nodeId (setDelete id l)).
Proof.
  unfold setDelete. induction l as [|x rest IH]; intros Hn; [exact Hn|].
  cbn [map] in Hn. apply NoDup_cons_iff in Hn. destruct Hn as [Hx Hn].
  cbn [filter]. destruct (negb (Nat.eqb (nodeId x) id)); [|now apply IH].
  cbn [map]. apply NoDup_cons; [|now apply IH].
  intros Hin. apply Hx. apply in_map_iff in Hin.
  destruct Hin as (y & Hy & Hin). apply in_map_iff. exists y.
  split; [exact Hy|]. now apply filter_In in Hin.
Qed.

Lemma setAdd_fresh node (l : list AudioBufferSourceNode) :
  Forall (fun y => (nodeId y < nodeId node)%nat) l ->
  setAdd node l = l ++ [node].
Proof.
  intros H. unfold setAdd.
  assert (E : existsb (sameNode node) l = false).
  { induction l as [|y r IH]; [reflexivity|].
    apply Forall_cons_iff in H. destruct H as [Hy Hr]. cbn.
    rewrite (IH Hr). unfold sameNode.
    destruct (Nat.eqb_spec (nodeId node) (nodeId y)); [lia | reflexivity]. }
  now rewrite E.
Qed.

Lemma NoDup_snoc (l : list nat) (x : nat) :
  NoDup l -> ~ In x l -> NoDup (l ++ [x]).
Proof.
  induction l as [|y r IH]; intros Hn Hx; cbn.
  - constructor; [intros [] | constructor].
  - apply NoDup_cons_iff in Hn. destruct Hn as [Hy Hn].
    apply NoDup_cons.
    + intros Hin. apply in_app_or in Hin. destruct Hin as [Hin | [E | []]].
      * now apply Hy.
      * apply Hx. left. now symmetry.
    + apply IH; [exact Hn|]. intros Hin. apply Hx. now right.
Qed.

Lemma scheduleAudio_counted mouth env audioData (s : State) :
  countedSources s ->
  countedSources (fst (scheduleAudio mouth env audioData s)).
Proof.
  intros H.
  destruct (truthyAudio audioData) eqn:Ha.
  2:{ unfold scheduleAudio. now rewrite Ha. }
  destruct (outputAudioContextRef s) eqn:Eo.
  2:{ unfold scheduleAudio. now rewrite Ha, Eo. }
  destruct (analyserNodeRef s) eqn:En.
  2:{ unfold scheduleAudio. now rewrite Ha, Eo, En. }
  destruct (decodeResult env) as [d|] eqn:Hd.
  - assert (Ho : outputAudioContextRef s <> None) by congruence.
    assert (Hn : analyserNodeRef s <> None) by congruence.
    destruct (scheduleAudio_decoded mouth env audioData s d Ha Ho Hn Hd)
      as (_ & Hs & _ & Hc & Hset & _).
    cbv zeta in Hs, Hc, Hset.
    destruct H as ((H0 & H1) & H2 & H3).
    set (node := mkSource (List.length (started s))
                   (Rmax (nextStartTimeRef s) (currentTime env)) d) in *.
    assert (Hfresh : setAdd node (audioSourcesRef s) = audioSourcesRef s ++ [node])
      by (apply setAdd_fresh; exact H3).
    rewrite Hfresh in Hset.
    unfold countedSources. rewrite Hs, Hc, Hset.
    rewrite !length_app, map_app. cbn [List.length map nodeId node].
    split; [lia|]. split.
    + apply NoDup_snoc; [exact H2|].
      intros Hin. apply in_map_iff in Hin. destruct Hin as (y & Hy & Hin).
      rewrite Forall_forall in H3. specialize (H3 y Hin). lia.
    + apply Forall_app. split.
      * eapply Forall_impl; [|exact H3]. cbn. intros y Hy. lia.
      * constructor; [cbn; lia | constructor].
  - destruct (scheduleAudio_cases mouth env audioData s) as [Hc | [Hc | Hc]].
    + now rewrite Hc.
    + destruct Hc as (_ & _ & Hs & _ & Hset & Hcount & _).
      unfold countedSources. now rewrite Hs, Hset, Hcount.
    + destruct Hc as (d & Hd' & _). congruence.
Qed.

Lemma handleInterrupted_counted sc (s : State) :
  countedSources s -> countedSources (handleInterrupted sc s).
Proof.
  intros H. destruct (interrupted sc) eqn:E.
  - pose proof (handleInterrupted_on sc s E) as Hp.
    unfold playback in Hp. inversion Hp as [[Hn Hs Hset Hc Hstop]].
    unfold countedSources. rewrite Hset, Hc. cbn.
    split; [lia|]. split; constructor.
  - now rewrite handleInterrupted_off.
Qed.

Lemma onended_counted id (s : State) :
  countedSources s -> countedSources (onended id s).
Proof.
  intros ((H0 & H1) & H2 & H3). unfold onended.
  set (s1 := set_audioSourcesRef (setDelete id (audioSourcesRef s)) s).
  assert (E1 : audioSourcesRef s1 = setDelete id (audioSourcesRef s)
               /\ activeAudioSources s1 = activeAudioSources s
               /\ started s1 = started s).
  { subst s1. destruct s. repeat split. }
  destruct E1 as (Es & Ec & Et).
  set (n := Z.max 0 (activeAudioSources s1 - 1)).
  assert (E2 : playback (if (n =? 0)%Z then stopAnimation s1 else s1)
               = playback s1).
  { destruct (n =? 0)%Z; [apply stopAnimation_playback | reflexivity]. }
  revert E2. generalize (if (n =? 0)%Z then stopAnimation s1 else s1) as s2.
  intros s2 E2.
  assert (E3 : audioSourcesRef (set_activeAudioSources n s2) = audioSourcesRef s2
               /\ activeAudioSources (set_activeAudioSources n s2) = n
               /\ started (set_activeAudioSources n s2) = started s2).
  { destruct s2. repeat split. }
  destruct E3 as (Fs & Fc & Ft).
  unfold countedSources. rewrite Fs, Fc, Ft.
  rewrite (playback_sources _ _ E2), (playback_started _ _ E2), Es, Et.
  pose proof (setDelete_length id (audioSourcesRef s) H2) as Hlen.
  subst n. rewrite Ec.
  split; [lia|]. split.
  - now apply setDelete_NoDup.
  - apply Forall_forall. intros node Hin. rewrite Forall_forall in H3.
    apply H3. now apply setDelete_incl in Hin.
Qed.

Lemma step_counted mouth (s : State) (e : Event) :
  countedSources s -> countedSources (step mouth s e).
Proof.
  intros H. destruct e as [env message | id | id wave | |]; cbn [step].
  - unfold onmessage.
    destruct (getAudioData message) as [audioData|]; [|exact H].
    pose proof (scheduleAudio_counted mouth env audioData s H) as H1.
    destruct (scheduleAudio mouth env audioData s) as [s1 c].
    cbn [fst] in *. destruct c; [|exact H1].
    destruct (serverContent message) as [sc|]; [|exact H1]. cbn [fst].
    apply (countedSources_same (handleInterrupted sc s1)).
    + now rewrite handleTurnComplete_playback, handleTranscriptions_playback.
    + now apply handleInterrupted_counted.
  - now apply onended_counted.
  - apply (countedSources_same s); [|exact H].
    unfold onAnimationFrame.
    destruct (existsb (N.eqb id) (pendingFrames s)); [|reflexivity].
    rewrite animateMouth_playback. destruct s. reflexivity.
  - apply (countedSources_same s); [|exact H]. unfold onerror.
    destruct (stopAudioProcessing_releases (setStatus error s))
      as (_ & _ & _ & _ & _ & Hp & _).
    cbv zeta in Hp. rewrite Hp. destruct s. reflexivity.
  - apply (countedSources_same s); [|exact H]. unfold onclose.
    now destruct (stopAudioProcessing_releases s) as (_ & _ & _ & _ & _ & Hp & _).
Qed.

(** X4: during a session the active-source count never goes below 0,
    never exceeds the number of sources in the active set, and the sources
    of the set are distinct; so whenever the set is empty the count is 0
    and the speaking indicator is off. *)
Theorem active_count_bounded_by_set :
  forall mouth events (s : State),
    countedSources s ->
    let s' := run mouth events s in
    countedSources s'
    /\ (audioSourcesRef s' = [] -> activeAudioSources s' = 0%Z).
Proof.
  intros mouth events. induction events as [|e rest IH]; intros s H s'.
  - subst s'. cbn. split; [exact H|].
    destruct H as ((H0 & H1) & _). intros E. rewrite E in H1. cbn in H1. lia.
  - subst s'. unfold run in *. cbn [fold_left]. apply IH.
    now apply step_counted.
Qed.

(** ** Trimming and the transcript *)

Lemma trimStart_idempotent (s : jsString) :
  trimStart (trimStart s) = trimStart s.
Proof.
  induction s as [|c rest IH]; [reflexivity|].
  cbn. destruct (isWhiteSpace c) eqn:E; [exact IH|].
  cbn. now rewrite E.
Qed.

Lemma trimStart_snoc (l : jsString) (c : N) :
  isWhiteSpace c = false -> trimStart (l ++ [c]) = trimStart l ++ [c].
Proof.
  intros Hc. induction l as [|x rest IH]; cbn.
  - now rewrite Hc.
  - destruct (isWhiteSpace x); [exact IH | reflexivity].
Qed.

Lemma trimEnd_cons (c : N) (rest : jsString) :
  isWhiteSpace c = false -> trimEnd (c :: rest) = c :: trimEnd rest.
Proof.
  intros Hc. unfold trimEnd. cbn [rev].
  rewrite (trimStart_snoc _ _ Hc), rev_app_distr. reflexivity.
Qed.

Lemma trimEnd_idempotent (s : jsString) :
  trimEnd (trimEnd s) = trimEnd s.
Proof.
  unfold trimEnd. now rewrite rev_involutive, trimStart_idempotent.
Qed.

(** The head of a trimmed-at-the-start string is not white space. *)
Lemma trimStart_head (s : jsString) :
  match trimStart s with
  | c :: _ => isWhiteSpace c = false
  | [] => True
  end.
Proof.
  induction s as [|c rest IH]; [exact I|].
  cbn. destruct (isWhiteSpace c) eqn:E; [exact IH | exact E].
Qed.

Lemma trim_idempotent (s : jsString) : trim (trim s) = trim s.
Proof.
  unfold trim. pose proof (trimStart_head s) as H.
  destruct (trimStart s) as [|c rest]; [reflexivity|].
  rewrite (trimEnd_cons _ _ H). cbn [trimStart]. rewrite H.
  rewrite (trimEnd_cons _ _ H). now rewrite trimEnd_idempotent.
Qed.

(** Neither end of a trimmed string is white space. *)
Lemma trim_ends (s : jsString) :
  match trim s with
  | c :: _ => isWhiteSpace c = false
  | [] => True
  end
  /\ match rev (trim s) with
     | c :: _ => isWhiteSpace c = false
     | [] => True
     end.
Proof.
  split.
  - unfold trim. pose proof (trimStart_head s) as H.
    destruct (trimStart s) as [|c rest]; [exact I|].
    now rewrite (trimEnd_cons _ _ H).
  - unfold trim, trimEnd. rewrite rev_involutive. apply trimStart_head.
Qed.

Lemma entryIf_trimmed who (s : jsString) :
  Forall trimmedEntry (entryIf who (trim s)).
Proof.
  unfold entryIf. destruct (trim s) as [|c rest] eqn:E; cbn [truthyString];
    [constructor|].
  constructor; [|constructor]. unfold trimmedEntry. cbn [text].
  split; [discriminate|]. rewrite <- E. apply trim_idempotent.
Qed.

Lemma onmessage_rejected mouth env message (s : State) :
  snd (onmessage mouth env message s) = Rejected ->
  let s' := fst (onmessage mouth env message s) in
  transcripts s' = transcripts s
  /\ started s' = started s
  /\ audioSourcesRef s' = audioSourcesRef s
  /\ activeAudioSources s' = activeAudioSources s
  /\ stopped s' = stopped s
  /\ nextStartTimeRef s <= nextStartTimeRef s'.
Proof.
  unfold onmessage.
  destruct (getAudioData message) as [audioData|].
  2:{ intros _. cbn. repeat split. apply Rle_refl. }
  pose proof (scheduleAudio_transcripts mouth env audioData s) as Ht.
  destruct (scheduleAudio_cases mouth env audioData s) as [Hc | [Hc | Hc]].
  - rewrite Hc. destruct (serverContent message); discriminate.
  - destruct Hc as (Hr & _ & Hs & Hn & Hset & Hcount & Hstop).
    destruct (scheduleAudio mouth env audioData s) as [s1 c].
    cbn [fst snd] in *. subst c. intros _. cbn [fst].
    rewrite Hs, Hn, Hset, Hcount, Hstop. repeat split; try assumption.
    apply Rmax_l.
  - destruct Hc as (d & _ & Hf & _).
    destruct (scheduleAudio mouth env audioData s) as [s1 c].
    cbn [fst snd] in *. subst c.
    destruct (serverContent message); discriminate.
Qed.

Lemma onended_transcripts id (s : State) :
  transcripts (onended id s) = transcripts s.
Proof.
  unfold onended.
  set (s1 := set_audioSourcesRef (setDelete id (audioSourcesRef s)) s).
  assert (E1 : transcripts s1 = transcripts s) by (subst s1; now destruct s).
  rewrite <- E1.
  set (n := Z.max 0 (activeAudioSources s1 - 1)).
  assert (E2 : transcripts (if (n =? 0)%Z then stopAnimation s1 else s1)
               = transcripts s1).
  { destruct (n =? 0)%Z; [apply stopAnimation_transcripts | reflexivity]. }
  rewrite <- E2.
  generalize (if (n =? 0)%Z then stopAnimation s1 else s1) as s2.
  intros s2. now destruct s2.
Qed.

Lemma step_transcript mouth (s : State) (e : Event) :
  exists new,
    transcript (step mouth s e) = transcript s ++ new
    /\ Forall trimmedEntry new.
Proof.
  destruct e as [env message | id | id wave | |]; cbn [step].
  - destruct (snd (onmessage mouth env message s)) eqn:Hc.
    + pose proof (onmessage_transcripts mouth env message s Hc) as Ht.
      cbv zeta in Ht.
      destruct (serverContent message) as [sc|].
      * destruct (turnComplete sc).
        -- apply transcripts_inv in Ht. destruct Ht as (Ht & _).
           eexists. split; [exact Ht|].
           apply Forall_app. split; apply entryIf_trimmed.
        -- apply transcripts_inv in Ht. destruct Ht as (Ht & _).
           exists []. rewrite app_nil_r. split; [exact Ht | constructor].
      * exists []. rewrite app_nil_r. split; [|constructor].
        unfold transcripts in Ht. now inversion Ht.
    + destruct (onmessage_rejected mouth env message s Hc) as (Ht & _).
      exists []. rewrite app_nil_r. split; [|constructor].
      unfold transcripts in Ht. now inversion Ht.
  - exists []. rewrite app_nil_r. split; [|constructor].
    pose proof (onended_transcripts id s) as Ht.
    unfold transcripts in Ht. now inversion Ht.
  - exists []. rewrite app_nil_r. split; [|constructor].
    pose proof (onAnimationFrame_forget mouth id wave s) as Hf.
    destruct (forget_guards _ _ Hf) as (_ & _ & _ & Ht & _).
    unfold transcripts in Ht. now inversion Ht.
  - exists []. rewrite app_nil_r. split; [|constructor].
    unfold onerror, stopAudioProcessing. destruct s. cbn.
    destruct scriptProcessorRef0, mediaStreamSourceRef0, audioStreamRef0;
      reflexivity.
  - exists []. rewrite app_nil_r. split; [|constructor].
    unfold onclose, stopAudioProcessing. destruct s. cbn.
    destruct scriptProcessorRef0, mediaStreamSourceRef0, audioStreamRef0;
      reflexivity.
Qed.

(** X5: during a session the transcript only grows at its end, and every
    entry that is appended has a text that is not empty and has no white
    space at either end. *)
Theorem transcript_is_append_only :
  forall mouth events (s : State),
    exists new,
      transcript (run mouth events s) = transcript s ++ new
      /\ Forall trimmedEntry new
      /\ Forall (fun e => match text e with
                          | c :: _ => isWhiteSpace c = false
                          | [] => False
                          end
                          /\ match rev (text e) with
                             | c :: _ => isWhiteSpace c = false
                             | [] => False
                             end) new.
Proof.
  intros mouth events.
  assert (H : forall s : State,
             exists new,
               transcript (run mouth events s) = transcript s ++ new
               /\ Forall trimmedEntry new).
  { induction events as [|e rest IH]; intros s.
    - exists []. cbn. rewrite app_nil_r. split; [reflexivity | constructor].
    - unfold run in *. cbn [fold_left].
      destruct (step_transcript mouth s e) as (n1 & H1 & F1).
      destruct (IH (step mouth s e)) as (n2 & H2 & F2).
      exists (n1 ++ n2). rewrite H2, H1, <- app_assoc.
      split; [reflexivity | now apply Forall_app]. }
  intros s. destruct (H s) as (new & H1 & H2).
  exists new. split; [exact H1|]. split; [exact H2|].
  eapply Forall_impl; [|exact H2].
  intros e [Hne Ht]. destruct (trim_ends (text e)) as [Ha Hb].
  rewrite Ht in Ha, Hb.
  destruct (text e) as [|c rest] eqn:E; [congruence|].
  split; [exact Ha|].
  destruct (rev (c :: rest)) as [|x r] eqn:Er; [|exact Hb].
  apply (f_equal (@List.length _)) in Er. rewrite length_rev in Er.
  discriminate.
Qed.

(** ** Edge cases of the message handler *)

(** X6: a handler that ends in an exception (the audio payload cannot be
    read or does not decode) appends nothing to the transcript or its
    buffers, schedules, stops and removes no source and leaves the count
    alone; the next start time can only have moved forward. *)
Theorem rejected_handler_leaves_session :
  forall mouth env message (s : State),
    snd (onmessage mouth env message s) = Rejected ->
    let s' := fst (onmessage mouth env message s) in
    transcripts s' = transcripts s
    /\ started s' = started s
    /\ audioSourcesRef s' = audioSourcesRef s
    /\ activeAudioSources s' = activeAudioSources s
    /\ stopped s' = stopped s
    /\ nextStartTimeRef s <= nextStartTimeRef s'.
Proof.
  intros mouth env message s H. now apply onmessage_rejected.
Qed.

Lemma rejected_handler_leaves_session_witness :
  transcripts
    (fst (onmessage (Some someMouth) (envBroken 1) turnCompletedWithAudio
            midTurnState))
  = transcripts midTurnState.
Proof.
  assert (H : snd (onmessage (Some someMouth) (envBroken 1)
                     turnCompletedWithAudio midTurnState) = Rejected)
    by (vm_compute; reflexivity).
  now destruct (rejected_handler_leaves_session (Some someMouth) (envBroken 1)
                  turnCompletedWithAudio midTurnState H) as (Ht & _).
Defined.

Lemma playback_inv (s : State) a b c d e :
  playback s = (a, b, c, d, e) ->
  nextStartTimeRef s = a
  /\ started s = b
  /\ audioSourcesRef s = c
  /\ activeAudioSources s = d
  /\ stopped s = e.
Proof. unfold playback. intros H. inversion H. repeat split. Qed.

Lemma setAdd_In node (l : list AudioBufferSourceNode) :
  exists node', In node' (setAdd node l) /\ nodeId node' = nodeId node.
Proof.
  unfold setAdd. destruct (existsb (sameNode node) l) eqn:E.
  - apply existsb_exists in E. destruct E as (y & Hin & Hy).
    exists y. split; [exact Hin|]. unfold sameNode in Hy.
    apply Nat.eqb_eq in Hy. now symmetry.
  - exists node. split; [|reflexivity]. apply in_or_app. right. now left.
Qed.

(** X7: an audio chunk that arrives in the same message as the
    interruption is still decoded and handed to [start] at
    [max(next, clock)], and then at once stopped and dropped: after the
    message it is in the list of stopped sources, the active set is empty,
    the count is 0 and the next start time is 0. *)
Theorem interrupted_chunk_is_stopped :
  forall mouth env message sc audioData (s : State) d,
    serverContent message = Some sc ->
    interrupted sc = true ->
    getAudioData message = Some audioData ->
    truthyAudio audioData = true ->
    outputAudioContextRef s <> None ->
    analyserNodeRef s <> None ->
    decodeResult env = Decoded d ->
    let s' := fst (onmessage mouth env message s) in
    exists node,
      started s' = started s ++ [node]
      /\ startTime node = Rmax (nextStartTimeRef s) (currentTime env)
      /\ bufferDuration node = d
      /\ In (nodeId node) (stopped s')
      /\ audioSourcesRef s' = []
      /\ activeAudioSources s' = 0%Z
      /\ nextStartTimeRef s' = 0.
Proof.
  intros mouth env message sc audioData s d Hsc Hi Ha Ht Ho Hn Hd s'.
  subst s'. unfold onmessage. rewrite Ha.
  destruct (scheduleAudio_decoded mouth env audioData s d Ht Ho Hn Hd)
    as (Hf & Hs & _ & _ & Hset & _).
  cbv zeta in Hf, Hs, Hset.
  destruct (scheduleAudio mouth env audioData s) as [s1 c].
  cbn [fst snd] in *. subst c. rewrite Hsc. cbn [fst].
  pose proof (handleInterrupted_on sc s1 Hi) as Hp.
  rewrite <- (handleTranscriptions_playback sc) in Hp.
  rewrite <- (handleTurnComplete_playback sc) in Hp.
  apply playback_inv in Hp. destruct Hp as (Pn & Pst & Pset & Pc & Pstop).
  eexists. split; [rewrite Pst, Hs; reflexivity|].
  cbn [startTime bufferDuration nodeId].
  repeat split; try assumption.
  rewrite Pstop. apply in_or_app. right. rewrite Hset.
  destruct (setAdd_In
              (mkSource (List.length (started s))
                 (Rmax (nextStartTimeRef s) (currentTime env)) d)
              (audioSourcesRef s)) as (node' & Hin & Hid).
  cbn [nodeId] in Hid. apply in_map_iff. exists node'. now split.
Qed.

Lemma interrupted_chunk_is_stopped_witness :
  let s' := fst (onmessage (Some someMouth) (envAt 1 3) interruptedWithAudio
                   speakingState) in
  map nodeId (started s') = [0%nat; 1%nat]
  /\ In 1%nat (stopped s')
  /\ audioSourcesRef s' = [].
Proof.
  intros s'.
  destruct (interrupted_chunk_is_stopped (Some someMouth) (envAt 1 3)
              interruptedWithAudio _ (Some (js "UklGRg=")) speakingState 3
              eq_refl eq_refl) as (node & H1 & _ & _ & H4 & H5 & _).
  - vm_compute. reflexivity.
  - reflexivity.
  - vm_compute. discriminate.
  - vm_compute. discriminate.
  - reflexivity.
  - fold s' in H1, H4, H5. split; [vm_compute; reflexivity|].
    split; [|exact H5].
    assert (E : nodeId node = 1%nat).
    { apply (f_equal (map nodeId)) in H1. rewrite map_app in H1.
      assert (E0 : map nodeId (started s') = [0%nat; 1%nat])
        by (vm_compute; reflexivity).
      assert (E1 : map nodeId (started speakingState) = [0%nat])
        by (vm_compute; reflexivity).
      rewrite E0, E1 in H1. cbn in H1. now injection H1. }
    now rewrite <- E.
Defined.

(** ** Range of the loudness and of the displacement *)

Lemma amplitudeOf_range (b : Byte.byte) : 0 <= amplitudeOf b <= 255.
Proof.
  unfold amplitudeOf.
  pose proof (Byte.to_N_bounded b) as H.
  split.
  - apply IZR_le. lia.
  - apply IZR_le. lia.
Qed.

Lemma normSample_square (b : Byte.byte) :
  0 <= normSample (amplitudeOf b) * normSample (amplitudeOf b) <= 1.
Proof.
  pose proof (amplitudeOf_range b) as H. unfold normSample.
  assert (Hx : -1 <= amplitudeOf b / 128 - 1 <= 1) by lra.
  revert Hx. generalize (amplitudeOf b / 128 - 1) as x. intros x Hx.
  split; nra.
Qed.

Lemma sumSquares_range (l : list Byte.byte) :
  0 <= sumSquares l <= INR (List.length l).
Proof.
  unfold sumSquares.
  assert (H : forall acc,
            acc
            <= fold_left
                 (fun acc b =>
                    acc + normSample (amplitudeOf b) * normSample (amplitudeOf b))
                 l acc
            <= acc + INR (List.length l)).
  { induction l as [|b rest IH]; intros acc.
    - cbn. lra.
    - cbn [fold_left].
      change (List.length (b :: rest)) with (S (List.length rest)).
      rewrite S_INR.
      pose proof (normSample_square b) as Hb.
      specialize (IH (acc + normSample (amplitudeOf b) * normSample (amplitudeOf b))).
      lra. }
  specialize (H 0). lra.
Qed.

Lemma rmsOf_range (l : list Byte.byte) :
  l <> [] -> 0 <= rmsOf l <= 1.
Proof.
  intros Hne. unfold rmsOf.
  pose proof (sumSquares_range l) as H.
  assert (Hn : 0 < INR (List.length l)).
  { apply lt_0_INR. destruct l; [congruence | cbn; lia]. }
  split; [apply sqrt_pos|].
  rewrite <- sqrt_1. apply sqrt_le_1_alt.
  apply (Rmult_le_reg_r (INR (List.length l))); [exact Hn|].
  unfold Rdiv. rewrite Rmult_assoc, Rinv_l by lra. lra.
Qed.

Lemma effectiveVolume_range (rms : R) :
  0 <= rms <= 1 -> 0 <= effectiveVolume rms <= 1.
Proof.
  intros H. unfold effectiveVolume.
  destruct (Rlt_dec volumeThreshold rms); lra.
Qed.

Lemma smooth_range (v e : R) :
  0 <= v <= 1 -> 0 <= e <= 1 -> 0 <= smooth v e <= 1.
Proof. unfold smooth, smoothingFactor. intros Hv He. lra. Qed.

Lemma animateMouth_range mouth wave (s : State) :
  loudnessInRange s -> loudnessInRange (animateMouth mouth wave s).
Proof.
  unfold loudnessInRange, animateMouth. intros [Hv Ha].
  destruct (analyserNodeRef s) as [analyser|] eqn:Ea.
  2:{ destruct s. cbn in *. rewrite Ea. now split. }
  destruct (canvasRef s) as [canvas|].
  2:{ destruct s. cbn in *. rewrite Ea. now split. }
  destruct (imageRef s) as [img|].
  2:{ destruct s. cbn in *. rewrite Ea. now split. }
  destruct mouth as [coords|].
  2:{ destruct s. cbn in *. rewrite Ea. now split. }
  destruct (hasContext2d canvas).
  2:{ rewrite Ea. now split. }
  assert (Hr : 0 <= smooth (smoothedVolumeRef s)
                      (effectiveVolume
                         (rmsOf (getByteTimeDomainData analyser wave))) <= 1).
  { apply smooth_range; [exact Hv|]. apply effectiveVolume_range.
    apply rmsOf_range. unfold getByteTimeDomainData.
    destruct (fftSize analyser); [congruence | discriminate]. }
  destruct s. cbn in *. rewrite Ea. split; assumption.
Qed.

Lemma loudnessInRange_same (s t : State) :
  smoothedVolumeRef t = smoothedVolumeRef s ->
  analyserNodeRef t = analyserNodeRef s ->
  loudnessInRange s -> loudnessInRange t.
Proof. unfold loudnessInRange. intros -> ->. trivial. Qed.

Lemma stopAnimation_loudness (s : State) :
  smoothedVolumeRef (stopAnimation s) = smoothedVolumeRef s
  /\ analyserNodeRef (stopAnimation s) = analyserNodeRef s.
Proof.
  unfold stopAnimation, cancelAnimationRef.
  destruct s. cbn.
  destruct (truthyFrameId animationFrameIdRef0), animationFrameIdRef0; cbn;
    destruct canvasRef0 as [canvas|], imageRef0; cbn; try (split; reflexivity);
    destruct (hasContext2d canvas); split; reflexivity.
Qed.

Lemma scheduleAudio_range mouth env audioData (s : State) :
  loudnessInRange s ->
  loudnessInRange (fst (scheduleAudio mouth env audioData s)).
Proof.
  intros H. unfold scheduleAudio.
  destruct (truthyAudio audioData); [|exact H].
  destruct (outputAudioContextRef s); [|exact H].
  destruct (analyserNodeRef s) eqn:Ea; [|exact H].
  assert (H1 : loudnessInRange (startAnimationIfIdle mouth env s)).
  { unfold startAnimationIfIdle.
    destruct (animationFrameIdRef s), mouth; try exact H.
    now apply animateMouth_range. }
  revert H1. generalize (startAnimationIfIdle mouth env s) as t. intros t H1.
  destruct (decodeResult env); cbn [fst];
    (eapply loudnessInRange_same; [| |exact H1]); destruct t; reflexivity.
Qed.

Lemma step_range mouth (s : State) (e : Event) :
  loudnessInRange s -> loudnessInRange (step mouth s e).
Proof.
  intros H. destruct e as [env message | id | id wave | |]; cbn [step].
  - unfold onmessage.
    destruct (getAudioData message) as [audioData|]; [|exact H].
    pose proof (scheduleAudio_range mouth env audioData s H) as H1.
    destruct (scheduleAudio mouth env audioData s) as [s1 c].
    cbn [fst] in *. destruct c; [|exact H1].
    destruct (serverContent message) as [sc|]; [|exact H1]. cbn [fst].
    destruct (handleTurnComplete_keeps sc
                (handleTranscriptions sc (handleInterrupted sc s1)))
      as (_ & _ & _ & _ & V1).
    destruct (handleTranscriptions_keeps sc (handleInterrupted sc s1))
      as (_ & _ & _ & _ & V2).
    assert (A1 : analyserNodeRef
                   (handleTurnComplete sc
                      (handleTranscriptions sc (handleInterrupted sc s1)))
                 = analyserNodeRef (handleInterrupted sc s1)).
    { unfold handleTurnComplete, handleTranscriptions.
      generalize (handleInterrupted sc s1) as t. intros t.
      destruct t, (turnComplete sc), (inputTranscription sc),
        (outputTranscription sc); reflexivity. }
    assert (H2 : loudnessInRange (handleInterrupted sc s1)).
    { unfold handleInterrupted. destruct (interrupted sc); [|exact H1].
      match goal with
      | |- loudnessInRange (stopAnimation ?t) =>
          destruct (stopAnimation_loudness t) as [V A];
          apply (loudnessInRange_same s1); [rewrite V | rewrite A | exact H1]
      end; destruct s1; reflexivity. }
    apply (loudnessInRange_same (handleInterrupted sc s1));
      [congruence | exact A1 | exact H2].
  - unfold onended.
    set (s1 := set_audioSourcesRef (setDelete id (audioSourcesRef s)) s).
    assert (H1 : loudnessInRange s1).
    { apply (loudnessInRange_same s); [| |exact H]; subst s1; now destruct s. }
    set (n := Z.max 0 (activeAudioSources s1 - 1)).
    assert (H2 : loudnessInRange (if (n =? 0)%Z then stopAnimation s1 else s1)).
    { destruct (n =? 0)%Z; [|exact H1].
      destruct (stopAnimation_loudness s1) as [V A].
      now apply (loudnessInRange_same s1). }
    revert H2. generalize (if (n =? 0)%Z then stopAnimation s1 else s1) as s2.
    intros s2 H2.
    apply (loudnessInRange_same s2); [| |exact H2]; now destruct s2.
  - unfold onAnimationFrame.
    destruct (existsb (N.eqb id) (pendingFrames s)); [|exact H].
    apply animateMouth_range.
    apply (loudnessInRange_same s); [| |exact H]; now destruct s.
  - apply (loudnessInRange_same s); [| |exact H];
      unfold onerror, stopAudioProcessing; destruct s; cbn;
      destruct scriptProcessorRef0, mediaStreamSourceRef0, audioStreamRef0;
      reflexivity.
  - apply (loudnessInRange_same s); [| |exact H];
      unfold onclose, stopAudioProcessing; destruct s; cbn;
      destruct scriptProcessorRef0, mediaStreamSourceRef0, audioStreamRef0;
      reflexivity.
Qed.

(** X8: during a session the smoothed loudness stays between 0 and 1
    (the analyser's window being non-empty), so the displacement computed
    from it is the height of the mouth region on the canvas times a
    factor between 0 and 8 x 0.7 = 5.6: it has the sign of that height
    and at most 5.6 times its size.  For a height that is not negative it
    lies between 0 and 5.6 times the height; for a negative height, which
    neither the App nor the view excludes, between 5.6 times the height
    and 0. *)
Theorem loudness_and_displacement_bounded :
  forall mouth events (s : State),
    loudnessInRange s ->
    let s' := run mouth events s in
    loudnessInRange s'
    /\ forall canvas coords,
         let d := mouthOpennessOf canvas coords (smoothedVolumeRef s') in
         let h := dHeightOf canvas coords in
         Rabs d <= 5.6 * Rabs h
         /\ (0 <= h -> 0 <= d <= 5.6 * h)
         /\ (h <= 0 -> 5.6 * h <= d <= 0).
Proof.
  intros mouth events.
  assert (H : forall s : State,
             loudnessInRange s -> loudnessInRange (run mouth events s)).
  { induction events as [|e rest IH]; intros s Hs; [exact Hs|].
    unfold run in *. cbn [fold_left]. apply IH. now apply step_range. }
  intros s Hs s'. split; [now apply H|].
  intros canvas coords d h.
  destruct (H s Hs) as [Hv _]. fold s' in Hv.
  assert (Ed : d = smoothedVolumeRef s' * 5.6 * h).
  { subst d h. unfold mouthOpennessOf, maxOpennessOf. lra. }
  rewrite Ed. clear Ed d.
  revert Hv. generalize (smoothedVolumeRef s') as v. intros v Hv.
  generalize h as x. clear h. intros x.
  split; [|split; intros Hx; split; nra].
  unfold Rabs.
  destruct (Rcase_abs (v * 5.6 * x)); destruct (Rcase_abs x); nra.
Qed.

(** ** The displaced frame *)

(** X9: the frame of an open mouth is four commands: the canvas is
    cleared, the part of the image above the jaw line is drawn at the top,
    the part below it is drawn [d] pixels lower, and a two-pixel strip is
    stretched over the [d] pixels between them.  The two source parts
    split the image height exactly, the three pieces are stacked without
    gap or overlap, both parts keep the scale of the static portrait, and
    the lower part ends [d] pixels below the canvas. *)
Theorem jaw_frame_tiles_canvas :
  forall canvas img coords d,
    exists jawS jawC,
      jawFrame canvas img coords d
      = [ClearRect 0 0 (canvasWidth canvas) (canvasHeight canvas);
         DrawSlice 0 0 (imgWidth img) jawS 0 0 (canvasWidth canvas) jawC;
         DrawSlice 0 jawS (imgWidth img) (imgHeight img - jawS)
                   0 (jawC + d) (canvasWidth canvas) (canvasHeight canvas - jawC);
         DrawSlice 0 (jawS - 1) (imgWidth img) 2
                   0 jawC (canvasWidth canvas) d]
      /\ jawS + (imgHeight img - jawS) = imgHeight img
      /\ jawC * imgHeight img = jawS * canvasHeight canvas
      /\ (canvasHeight canvas - jawC) * imgHeight img
         = (imgHeight img - jawS) * canvasHeight canvas
      /\ (jawC + d) + (canvasHeight canvas - jawC) = canvasHeight canvas + d.
Proof.
  intros canvas img coords d.
  exists (imgHeight img * (mouthY coords / 100)
          + imgHeight img * (mouthHeight coords / 100) / 2),
         (canvasHeight canvas * (mouthY coords / 100)
          + dHeightOf canvas coords / 2).
  split; [reflexivity|]. unfold dHeightOf. repeat split; lra.
Qed.

(** ** Stopping the animation *)

Lemma cancelAnimationRef_fix (t : State) :
  truthyFrameId (animationFrameIdRef t) = false -> cancelAnimationRef t = t.
Proof. intros H. unfold cancelAnimationRef. now rewrite H. Qed.

Lemma stopAnimation_cancel (s : State) :
  stopAnimation s = stopAnimation (cancelAnimationRef s).
Proof.
  unfold stopAnimation.
  now rewrite (cancelAnimationRef_fix _ (cancelAnimationRef_falsy s)).
Qed.

Lemma stopAnimation_at_rest (t : State) :
  truthyFrameId (animationFrameIdRef t) = false ->
  stopAnimation (stopAnimation t) = stopAnimation t
  /\ truthyFrameId (animationFrameIdRef (stopAnimation t)) = false
  /\ (forall canvas img,
        canvasRef t = Some canvas ->
        imageRef t = Some img ->
        hasContext2d canvas = true ->
        canvasRef (stopAnimation t)
        = Some (setDrawn (staticFrame canvas) canvas))
  /\ smoothedVolumeRef (stopAnimation t) = smoothedVolumeRef t.
Proof.
  intros Hf. destruct t. cbn in Hf.
  unfold stopAnimation, cancelAnimationRef. cbn. rewrite Hf. cbn.
  destruct canvasRef0 as [canvas|]; cbn; rewrite ?Hf; cbn.
  2:{ repeat split; try assumption. intros c i Hc'. discriminate. }
  destruct imageRef0 as [img|]; cbn; rewrite ?Hf; cbn.
  2:{ repeat split; try assumption. intros c i _ Hi'. discriminate. }
  destruct (hasContext2d canvas) eqn:Hx; cbn; rewrite ?Hf; cbn; rewrite ?Hx.
  - repeat split; try assumption. intros c i Hc' _ _. now injection Hc' as <-.
  - repeat split; try assumption. intros c i Hc' _ Hh.
    injection Hc' as <-. congruence.
Qed.

(** X10: [stopAnimation], from any state: it holds no frame id
    afterwards, redraws exactly the static frame when the canvas, its 2d
    context and the image are there, and doing it twice is the same as
    doing it once.  It does not reset the smoothed loudness, so the next
    loop resumes from the value the last one ended with. *)
Theorem stopAnimation_restores_portrait :
  forall s : State,
    stopAnimation (stopAnimation s) = stopAnimation s
    /\ truthyFrameId (animationFrameIdRef (stopAnimation s)) = false
    /\ (forall canvas img,
          canvasRef s = Some canvas ->
          imageRef s = Some img ->
          hasContext2d canvas = true ->
          canvasRef (stopAnimation s)
          = Some (setDrawn (staticFrame canvas) canvas))
    /\ smoothedVolumeRef (stopAnimation s) = smoothedVolumeRef s.
Proof.
  intros s.
  pose proof (cancelAnimationRef_falsy s) as Hf.
  assert (Hv : smoothedVolumeRef (cancelAnimationRef s) = smoothedVolumeRef s
               /\ canvasRef (cancelAnimationRef s) = canvasRef s
               /\ imageRef (cancelAnimationRef s) = imageRef s).
  { unfold cancelAnimationRef.
    destruct (truthyFrameId (animationFrameIdRef s)); [|repeat split].
    destruct (animationFrameIdRef s); destruct s; repeat split. }
  destruct Hv as (Hv & Hc & Hi).
  destruct (stopAnimation_at_rest _ Hf) as (H1 & H2 & H3 & H4).
  rewrite (stopAnimation_cancel s).
  split; [exact H1|]. split; [exact H2|]. split.
  - intros canvas img Hc' Hi' Hx. apply (H3 canvas img); congruence.
  - congruence.
Qed.

(** ** Releasing the microphone *)

Lemma stopAudioProcessing_stream (t : State) stream :
  audioStreamRef t = Some stream ->
  In stream (stoppedStreams (stopAudioProcessing t)).
Proof.
  intros H. unfold stopAudioProcessing. destruct t. cbn in *. subst.
  destruct scriptProcessorRef0, mediaStreamSourceRef0; cbn;
    apply in_or_app; right; now left.
Qed.

Lemma stopAudioProcessing_released (t : State) stream :
  audioStreamRef t = Some stream ->
  audioStreamRef (stopAudioProcessing t) = None
  /\ In stream (stoppedStreams (stopAudioProcessing t))
  /\ contextReleased (inputAudioContextRef (stopAudioProcessing t))
  /\ contextReleased (outputAudioContextRef (stopAudioProcessing t)).
Proof.
  intros H.
  destruct (stopAudioProcessing_releases t) as (H1 & H2 & H3 & _).
  cbv zeta in H1, H2, H3. rewrite H1, H2, H3.
  split; [reflexivity|]. split; [now apply stopAudioProcessing_stream|].
  split; apply closeContext_released.
Qed.

(** X11: once [getUserMedia] has granted a stream, whatever happens in
    the rest of [startConversation], each of the unmount cleanup, the
    error callback and the close callback stops that stream, drops it, and
    leaves both audio contexts absent or closed. *)
Theorem callbacks_release_granted_microphone :
  forall env (s : State) stream teardown,
    getUserMedia env = Some stream ->
    In teardown [cleanup; onerror; onclose] ->
    let s' := teardown (startConversation env s) in
    audioStreamRef s' = None
    /\ In stream (stoppedStreams s')
    /\ contextReleased (inputAudioContextRef s')
    /\ contextReleased (outputAudioContextRef s').
Proof.
  intros env s stream teardown Hg Hin s'. subst s'.
  destruct (startConversation_keeps_stream env s stream Hg) as [Hs _].
  cbv zeta in Hs. revert Hs.
  generalize (startConversation env s) as t. intros t Hs.
  cbn in Hin. destruct Hin as [<- | [<- | [<- | []]]].
  - unfold cleanup. apply stopAudioProcessing_released.
    rewrite <- Hs.
    assert (E : audioStreamRef (closeSession t) = audioStreamRef t)
      by (unfold closeSession; destruct t; cbn;
          destruct sessionPromiseRef0; reflexivity).
    rewrite <- E.
    unfold stopAnimation, cancelAnimationRef.
    generalize (closeSession t) as v. intros v. destruct v. cbn.
    destruct (truthyFrameId animationFrameIdRef0), animationFrameIdRef0; cbn;
      destruct canvasRef0 as [canvas|], imageRef0; cbn; try reflexivity;
      destruct (hasContext2d canvas); reflexivity.
  - unfold onerror. apply stopAudioProcessing_released.
    rewrite <- Hs. now destruct t.
  - unfold onclose. now apply stopAudioProcessing_released.
Qed.

(** ** Outcome of a journey *)

Lemma detectMouth_rest reply (a : App.AppState) :
  App.appState (App.detectMouth reply a) = App.appState a
  /\ App.photoUrl (App.detectMouth reply a) = App.photoUrl a
  /\ App.personalityPrompt (App.detectMouth reply a) = App.personalityPrompt a
  /\ App.voiceName (App.detectMouth reply a) = App.voiceName a
  /\ App.appError (App.detectMouth reply a) = App.appError a.
Proof.
  unfold App.detectMouth.
  destruct reply as [| |coords]; try solve [destruct a; repeat split].
  destruct (App.hasAllCoordinates coords) as [[]|]; destruct a; repeat split.
Qed.

Lemma female_match (A : Type) (g : string) (x y : A) :
  match g with
  | "female"%string => x
  | _ => y
  end
  = if String.eqb g "female" then x else y.
Proof.
  repeat match goal with
  | |- context [match ?v with _ => _ end] => destruct v; cbn; try reflexivity
  end.
Qed.

Lemma detectVoice_rest reply (a : App.AppState) :
  App.appState (App.detectVoice reply a) = App.appState a
  /\ App.photoUrl (App.detectVoice reply a) = App.photoUrl a
  /\ App.personalityPrompt (App.detectVoice reply a) = App.personalityPrompt a
  /\ App.appError (App.detectVoice reply a) = App.appError a
  /\ App.voiceName (App.detectVoice reply a)
     = if saysFemale (Some reply) then "Kore"%string else "Zephyr"%string.
Proof.
  unfold App.detectVoice, saysFemale.
  destruct reply as [| |obj]; try solve [destruct a; repeat split].
  destruct (App.getProp "gender" obj) as [[v|]|];
    try solve [destruct a; repeat split].
  destruct v as [|b|q|g|items|fields]; try solve [destruct a; repeat split].
  rewrite female_match.
  destruct (String.eqb g "female"); destruct a; repeat split.
Qed.

(** X12: [handleStartJourney] never ends in the generating state.  It
    ends in the conversation state, with no error, exactly when none of
    its remote calls is rejected - whatever the mouth and gender responses
    contain, even text that does not parse; otherwise it ends in the
    upload state with the fixed error message, and the voice is the one
    held before. *)
Theorem journey_outcome :
  forall env (a : App.AppState),
    let a' := App.handleStartJourney env a in
    if journeyFulfils env
    then App.appState a' = App.conversation /\ App.appError a' = None
    else App.appState a' = App.upload
         /\ App.appError a' = Some journeyError
         /\ App.voiceName a' = App.voiceName a.
Proof.
  intros env a a'. subst a'. unfold journeyFulfils, App.handleStartJourney.
  destruct (App.photoObjectUrl env) as [url|];
    [|destruct a; repeat split].
  destruct (App.personaText env) as [prompt|];
    [|destruct a; repeat split].
  destruct (App.mouthReply env) as [reply|];
    [|destruct a; repeat split].
  match goal with
  | |- context [App.detectMouth reply ?x] =>
      destruct (detectMouth_rest reply x) as (M1 & M2 & M3 & M4 & M5);
      assert (Ex : App.appError x = None /\ App.voiceName x = App.voiceName a)
        by (destruct a; split; reflexivity);
      destruct Ex as [Ex Vx];
      revert M1 M2 M3 M4 M5;
      generalize (App.detectMouth reply x) as a4
  end.
  intros a4 M1 M2 M3 M4 M5.
  destruct (App.hasMediaFile env).
  - destruct a4. cbn in *. split; [reflexivity | congruence].
  - destruct (App.genderReply env) as [g|].
    + destruct (detectVoice_rest g a4) as (V1 & _ & _ & V4 & _).
      revert V4. generalize (App.detectVoice g a4) as a5. intros a5 V4.
      destruct a5. cbn in *. split; [reflexivity | congruence].
    + destruct a4. cbn in *. repeat split. congruence.
Qed.

(** X13: after a journey that reaches the conversation state the voice
    is "Kore" exactly when no media file was given and the gender response
    parsed to an object whose [gender] is the string "female"; in every
    other case it is "Zephyr", whatever voice was held before. *)
Theorem journey_voice :
  forall env (a : App.AppState),
    journeyFulfils env = true ->
    App.voiceName (App.handleStartJourney env a)
    = if negb (App.hasMediaFile env) && saysFemale (App.genderReply env)
      then "Kore"%string else "Zephyr"%string.
Proof.
  intros env a. unfold journeyFulfils, App.handleStartJourney.
  destruct (App.photoObjectUrl env) as [url|]; [|discriminate].
  destruct (App.personaText env) as [prompt|]; [|discriminate].
  destruct (App.mouthReply env) as [reply|]; [|discriminate].
  destruct (App.hasMediaFile env).
  - intros _. cbn [negb andb].
    generalize (App.detectMouth reply
                  (App.setPersonalityPrompt prompt
                     (App.setPhotoUrl (Some url)
                        (App.setError None
                           (App.setAppState App.generating a))))) as a4.
    intros a4. now destruct a4.
  - destruct (App.genderReply env) as [g|]; [|discriminate]. intros _.
    cbn [negb andb].
    match goal with
    | |- context [App.detectVoice g ?x] =>
        destruct (detectVoice_rest g x) as (_ & _ & _ & _ & V);
        revert V; generalize (App.detectVoice g x) as a5
    end.
    intros a5 V. destruct a5. exact V.
Qed.

Lemma journey_voice_witness :
  App.voiceName
    (App.handleStartJourney
       (App.mkJourney (Some "blob:photo"%string)
          (Some (Some "You are a seamstress."%string))
          (Some App.ReplyUnparsable) false
          (Some (App.ReplyJson
                   (App.JObject [("gender"%string, App.JString "female")]))))
       App.initialApp)
  = "Kore"%string.
Proof.
  rewrite journey_voice; reflexivity.
Defined.

Lemma journey_outcome_state env (a : App.AppState) :
  let a' := App.handleStartJourney env a in
  if journeyFulfils env
  then App.appState a' = App.conversation
       /\ App.appError a' = None
       /\ App.photoUrl a' = App.photoObjectUrl env
       /\ App.personalityPrompt a'
          = match App.personaText env with
            | Some prompt => prompt
            | None => None
            end
  else True.
Proof.
  intros a'. subst a'. unfold journeyFulfils, App.handleStartJourney.
  destruct (App.photoObjectUrl env) as [url|]; [|exact I].
  destruct (App.personaText env) as [prompt|]; [|exact I].
  destruct (App.mouthReply env) as [reply|]; [|exact I].
  match goal with
  | |- context [App.detectMouth reply ?x] =>
      destruct (detectMouth_rest reply x) as (M1 & M2 & M3 & M4 & M5);
      assert (Ex : App.appError x = None
                   /\ App.photoUrl x = Some url
                   /\ App.personalityPrompt x = prompt)
        by (destruct a; repeat split);
      destruct Ex as (Ex & Ux & Px);
      revert M1 M2 M3 M4 M5;
      generalize (App.detectMouth reply x) as a4
  end.
  intros a4 M1 M2 M3 M4 M5.
  destruct (App.hasMediaFile env).
  - destruct a4. cbn in *. repeat split; congruence.
  - destruct (App.genderReply env) as [g|]; [|exact I].
    destruct (detectVoice_rest g a4) as (V1 & V2 & V3 & V4 & _).
    revert V2 V3 V4. generalize (App.detectVoice g a4) as a5.
    intros a5 V2 V3 V4.
    destruct a5. cbn in *. repeat split; congruence.
Qed.

(** X14: a journey that reaches the conversation state renders the
    conversation view only when the persona response carried a text that
    is not empty (the photo URL being non-empty).  Otherwise rendering
    shows nothing and puts the app back in the upload state with no error
    message. *)
Theorem journey_without_persona_falls_back :
  forall env (a : App.AppState) url,
    journeyFulfils env = true ->
    App.photoObjectUrl env = Some url ->
    url <> ""%string ->
    let a' := App.handleStartJourney env a in
    match App.personaText env with
    | Some (Some prompt) =>
        if String.eqb prompt ""
        then renderContent a' = (RenderNothing, App.setAppState App.upload a')
             /\ App.appError (snd (renderContent a')) = None
        else renderContent a'
             = (RenderConversation url prompt (App.voiceName a')
                  (App.mouthCoordinates a'), a')
    | _ =>
        renderContent a' = (RenderNothing, App.setAppState App.upload a')
        /\ App.appError (snd (renderContent a')) = None
    end.
Proof.
  intros env a url Hf Hu Hne a'.
  pose proof (journey_outcome_state env a) as Ho.
  cbv zeta in Ho. rewrite Hf in Ho. destruct Ho as (Hs & He & Hp & Hq).
  fold a' in Hs, He, Hp, Hq. rewrite Hu in Hp.
  unfold renderContent. rewrite Hs, Hp, Hq.
  assert (Et : truthyText (Some url) = Some url).
  { cbn. destruct (String.eqb_spec url ""); [congruence | reflexivity]. }
  rewrite Et.
  destruct (App.personaText env) as [[prompt|]|]; cbn.
  - destruct (String.eqb prompt ""); [|reflexivity].
    split; [reflexivity|]. destruct a'. exact He.
  - split; [reflexivity|]. destruct a'. exact He.
  - split; [reflexivity|]. destruct a'. exact He.
Qed.

Lemma journey_without_persona_falls_back_witness :
  renderContent (App.handleStartJourney noPersonaJourney App.initialApp)
  = (RenderNothing,
     App.setAppState App.upload
       (App.handleStartJourney noPersonaJourney App.initialApp)).
Proof.
  assert (Hne : "blob:photo"%string <> ""%string) by discriminate.
  exact (proj1 (journey_without_persona_falls_back noPersonaJourney
                  App.initialApp "blob:photo" eq_refl eq_refl Hne)).
Defined.

(** X15: when the mouth region was found and the gender call is then
    rejected, the journey ends in the upload state with the region, the
    photo URL and the persona of the failed attempt still set; only
    [handleEndConversation] clears them. *)
Theorem failed_journey_keeps_region :
  forall env (a : App.AppState) url prompt coords,
    App.photoObjectUrl env = Some url ->
    App.personaText env = Some prompt ->
    App.mouthReply env = Some (App.ReplyJson coords) ->
    App.hasAllCoordinates coords = Some true ->
    App.hasMediaFile env = false ->
    App.genderReply env = None ->
    let a' := App.handleStartJourney env a in
    App.appState a' = App.upload
    /\ App.mouthCoordinates a' = Some coords
    /\ App.photoUrl a' = Some url
    /\ App.personalityPrompt a' = prompt
    /\ App.mouthCoordinates (App.handleEndConversation a') = None
    /\ App.photoUrl (App.handleEndConversation a') = None
    /\ App.personalityPrompt (App.handleEndConversation a') = None.
Proof.
  intros env a url prompt coords Hu Hp Hm Hc Hf Hg a'. subst a'.
  unfold App.handleStartJourney. rewrite Hu, Hp, Hm, Hf, Hg.
  unfold App.detectMouth. rewrite Hc. destruct a. repeat split.
Qed.

Lemma failed_journey_keeps_region_witness :
  let a' := App.handleStartJourney genderFailsJourney App.initialApp in
  App.appState a' = App.upload
  /\ App.mouthCoordinates a' = Some earlierRegion.
Proof.
  intros a'.
  destruct (failed_journey_keeps_region genderFailsJourney App.initialApp
              "blob:first" (Some "You are a sailor."%string) earlierRegion
              eq_refl eq_refl eq_refl eq_refl eq_refl eq_refl)
    as (H1 & H2 & _).
  split; assumption.
Defined.

(** ** The landing page *)

Lemma landingStep_sync url (st : LandingState) (e : LandingEvent) :
  uploadInSync (photoUpload st) (photoFile st) ->
  uploadInSync (mediaUpload st) (mediaFile st) ->
  uploadInSync (photoUpload (landingStep url st e))
    (photoFile (landingStep url st e))
  /\ uploadInSync (mediaUpload (landingStep url st e))
       (mediaFile (landingStep url st e)).
Proof.
  unfold uploadInSync. intros [Hp1 Hp2] [Hm1 Hm2].
  destruct e as [[f|] | | [f|] |]; cbn; repeat split;
    try assumption; try apply Hp2; try apply Hm2; try discriminate;
    try reflexivity.
Qed.

(** X16: on the landing page, whatever files are chosen, dialogs
    cancelled and widgets cleared, each upload widget shows exactly the
    file the page holds, with a preview exactly when there is a file;
    cancelling a dialog changes nothing; and a click on the button starts
    the journey exactly when a photo is held and nothing is loading, with
    the photo and the media file the widgets show. *)
Theorem landing_page_submits_what_is_shown :
  forall url events isLoading,
    let st := runLanding url events initialLanding in
    uploadInSync (photoUpload st) (photoFile st)
    /\ uploadInSync (mediaUpload st) (mediaFile st)
    /\ landingStep url st (PhotoChosen None) = st
    /\ landingStep url st (MediaChosen None) = st
    /\ clickBegin isLoading st
       = match file (photoUpload st) with
         | Some photo =>
             if isLoading then None else Some (photo, file (mediaUpload st))
         | None => None
         end.
Proof.
  intros url events isLoading.
  assert (H : forall st0,
             uploadInSync (photoUpload st0) (photoFile st0) ->
             uploadInSync (mediaUpload st0) (mediaFile st0) ->
             uploadInSync (photoUpload (runLanding url events st0))
               (photoFile (runLanding url events st0))
             /\ uploadInSync (mediaUpload (runLanding url events st0))
                  (mediaFile (runLanding url events st0))).
  { induction events as [|e rest IH]; intros st0 Hp Hm; [now split|].
    unfold runLanding in *. cbn [fold_left].
    destruct (landingStep_sync url st0 e Hp Hm) as [Hp' Hm'].
    now apply IH. }
  intros st.
  destruct (H initialLanding) as [Hp Hm];
    [split; [reflexivity | split; reflexivity]
    |split; [reflexivity | split; reflexivity]|].
  fold st in Hp, Hm.
  split; [exact Hp|]. split; [exact Hm|].
  split; [destruct st; reflexivity|]. split; [destruct st; reflexivity|].
  destruct Hp as [Hp _]. destruct Hm as [Hm _].
  unfold clickBegin, handleSubmit. rewrite Hp, Hm.
  destruct (photoFile st); [|reflexivity]. destruct isLoading; reflexivity.
Qed.

(** ** Reading the photo as base64 *)

Lemma splitOn_nonempty sep (s : jsString) : splitOn sep s <> [].
Proof.
  induction s as [|c rest IH]; cbn; [discriminate|].
  destruct (c =? sep)%N; [discriminate|].
  destruct (splitOn sep rest); [congruence | discriminate].
Qed.

Lemma splitOn_no_separator sep (s : jsString) :
  ~ In sep s -> splitOn sep s = [s].
Proof.
  induction s as [|c rest IH]; intros Hn; [reflexivity|].
  cbn. destruct (N.eqb_spec c sep) as [E | E].
  - exfalso. apply Hn. now left.
  - rewrite IH; [reflexivity|]. intros Hin. apply Hn. now right.
Qed.

Lemma splitOn_first sep (h rest : jsString) :
  ~ In sep h -> splitOn sep (h ++ sep :: rest) = h :: splitOn sep rest.
Proof.
  induction h as [|c h' IH]; intros Hn.
  - cbn. now rewrite N.eqb_refl.
  - cbn. destruct (N.eqb_spec c sep) as [E | E].
    + exfalso. apply Hn. now left.
    + rewrite IH; [reflexivity|]. intros Hin. apply Hn. now right.
Qed.

Lemma splitOn_segments sep (s : jsString) :
  Forall (fun seg => ~ In sep seg) (splitOn sep s).
Proof.
  induction s as [|c rest IH]; cbn.
  - constructor; [intros [] | constructor].
  - destruct (N.eqb_spec c sep) as [E | E].
    + constructor; [intros [] | exact IH].
    + destruct (splitOn sep rest) as [|seg segs].
      * constructor; [|constructor]. intros [Hc | []]. congruence.
      * apply Forall_cons_iff in IH. destruct IH as [Hs Hr].
        constructor; [|exact Hr]. intros [Hc | Hin]; [congruence | now apply Hs].
Qed.

(** X17: [blobToBase64] resolves with exactly the payload of a data URL
    whose header has no comma (the payload, being base64, has none); it
    rejects when the payload is empty, as for an empty file, when the
    result has no comma, and when the read fails.  Whatever it resolves
    with is not empty and contains no comma. *)
Theorem blobToBase64_returns_payload :
  (forall header payload,
      ~ In comma header ->
      ~ In comma payload ->
      payload <> [] ->
      blobToBase64 (ReadDone (header ++ comma :: payload)) = Some payload)
  /\ (forall header,
        ~ In comma header ->
        blobToBase64 (ReadDone (header ++ [comma])) = None)
  /\ (forall result,
        ~ In comma result -> blobToBase64 (ReadDone result) = None)
  /\ (forall result base64String,
        blobToBase64 (ReadDone result) = Some base64String ->
        base64String <> [] /\ ~ In comma base64String)
  /\ blobToBase64 ReadFailed = None.
Proof.
  split; [|split; [|split; [|split]]].
  - intros header payload Hh Hp Hne. unfold blobToBase64.
    rewrite (splitOn_first _ _ _ Hh), (splitOn_no_separator _ _ Hp). cbn.
    destruct payload; [congruence | reflexivity].
  - intros header Hh. unfold blobToBase64.
    rewrite (splitOn_first _ _ _ Hh). reflexivity.
  - intros result Hr. unfold blobToBase64.
    now rewrite (splitOn_no_separator _ _ Hr).
  - intros result b. unfold blobToBase64.
    destruct (nth_error (splitOn comma result) 1) as [seg|] eqn:E;
      [|discriminate].
    destruct seg as [|c rest]; [discriminate|]. cbn. intros Hb.
    injection Hb as <-. split; [discriminate|].
    apply nth_error_In in E.
    pose proof (splitOn_segments comma result) as Hs.
    rewrite Forall_forall in Hs. now apply Hs.
  - reflexivity.
Qed.

Lemma blobToBase64_returns_payload_witness :
  blobToBase64 (ReadDone (js "data:image/png;base64,iVBORw0KGgo="))
  = Some (js "iVBORw0KGgo=").
Proof.
  destruct blobToBase64_returns_payload as (H & _).
  apply (H (js "data:image/png;base64") (js "iVBORw0KGgo=")).
  - vm_compute. intuition discriminate.
  - vm_compute. intuition discriminate.
  - discriminate.
Defined.

(** ** The statements at work on the concrete session *)

Lemma animation_loop_is_single_witness :
  pendingFrames (runActions (Some someMouth) shortLife liveState) = []
  /\ pendingFrames
       (runActions (Some someMouth)
          [ActEvent (EvMessage (envAt 0 2) chunkMessage)] liveState) = [1%N]
  /\ singleLoop
       (runActions (Some someMouth)
          [ActEvent (EvMessage (envAt 0 2) chunkMessage)] liveState).
Proof.
  assert (H : singleLoop liveState) by (left; vm_compute; reflexivity).
  split; [vm_compute; reflexivity|]. split; [vm_compute; reflexivity|].
  exact (proj1 (animation_loop_is_single (Some someMouth)
                  [ActEvent (EvMessage (envAt 0 2) chunkMessage)] liveState H)).
Defined.

Lemma active_count_bounded_by_set_witness :
  countedSources (run (Some someMouth) oneChunk liveState)
  /\ activeAudioSources (run (Some someMouth) oneChunk liveState) = 0%Z.
Proof.
  assert (H : countedSources liveState).
  { unfold countedSources.
    assert (E1 : activeAudioSources liveState = 0%Z) by (vm_compute; reflexivity).
    assert (E2 : audioSourcesRef liveState = []) by (vm_compute; reflexivity).
    rewrite E1, E2. cbn. split; [lia|]. split; constructor. }
  destruct (active_count_bounded_by_set (Some someMouth) oneChunk liveState H)
    as [H1 H2].
  split; [exact H1|]. apply H2. vm_compute. reflexivity.
Defined.

Lemma loudness_and_displacement_bounded_witness :
  let v := smoothedVolumeRef (run (Some someMouth) oneChunk liveState) in
  let upsideDown := mkMouth 40 60 20 (-10) in
  0 <= v <= 1
  /\ 0 <= mouthOpennessOf (canvasShowing []) someMouth v
       <= 5.6 * dHeightOf (canvasShowing []) someMouth
  /\ 5.6 * dHeightOf (canvasShowing []) upsideDown
       <= mouthOpennessOf (canvasShowing []) upsideDown v <= 0.
Proof.
  intros v upsideDown.
  assert (H : loudnessInRange liveState).
  { unfold loudnessInRange.
    assert (E1 : smoothedVolumeRef liveState = 0) by (evaluate; reflexivity).
    assert (E2 : analyserNodeRef liveState = Some (mkAnalyser ANALYSER_FFT_SIZE))
      by (evaluate; reflexivity).
    rewrite E1, E2. split; [lra | discriminate]. }
  destruct (loudness_and_displacement_bounded (Some someMouth) oneChunk
              liveState H) as [[H1 _] H2].
  split; [exact H1|]. split.
  - destruct (H2 (canvasShowing []) someMouth) as (_ & Hpos & _).
    apply Hpos. unfold dHeightOf, canvasShowing, someMouth. cbn. lra.
  - destruct (H2 (canvasShowing []) upsideDown) as (_ & _ & Hneg).
    apply Hneg. unfold dHeightOf, canvasShowing, upsideDown. cbn. lra.
Defined.

Lemma callbacks_release_granted_microphone_witness :
  audioStreamRef (onerror (startConversation noContextEnv mountedState)) = None
  /\ In 7%nat
       (stoppedStreams (onerror (startConversation noContextEnv mountedState))).
Proof.
  destruct (callbacks_release_granted_microphone noContextEnv mountedState
              7%nat onerror eq_refl) as (H1 & H2 & _).
  - cbn. right. now left.
  - split; assumption.
Defined.

(** ** When the handler throws, and what an interruption leaves alone *)

(** X18: the message handler ends in an exception in exactly two cases:
    the message has a [modelTurn] without a [parts] array, or the audio
    branch is entered (non-empty payload, output context and analyser
    present) and the payload does not decode.  A message without audio is
    always handled to completion. *)
Theorem handler_rejects_exactly_when :
  forall mouth env message (s : State),
    snd (onmessage mouth env message s) = Rejected
    <-> (getAudioData message = None
         \/ (audioBranchTaken message s = true
             /\ decodeResult env = DecodeError)).
Proof.
  intros mouth env message s. unfold onmessage, audioBranchTaken.
  destruct (getAudioData message) as [audioData|].
  2:{ cbn. split; [now left | reflexivity]. }
  unfold scheduleAudio.
  destruct (truthyAudio audioData).
  2:{ destruct (outputAudioContextRef s), (analyserNodeRef s),
        (serverContent message); cbn;
        (split; [discriminate | intros [H | [H _]]; discriminate]). }
  destruct (outputAudioContextRef s).
  2:{ destruct (serverContent message); cbn;
        (split; [discriminate | intros [H | [H _]]; discriminate]). }
  destruct (analyserNodeRef s).
  2:{ destruct (serverContent message); cbn;
        (split; [discriminate | intros [H | [H _]]; discriminate]). }
  destruct (decodeResult env).
  - destruct (serverContent message); cbn;
      (split; [discriminate | intros [H | [_ H]]; discriminate]).
  - cbn. split; [intros _; right; now split | reflexivity].
Qed.

Lemma getAudioData_withoutInterruption message :
  getAudioData (withoutInterruption message) = getAudioData message.
Proof.
  unfold withoutInterruption, getAudioData.
  destruct (serverContent message) as [sc|] eqn:E; cbn; [|now rewrite E].
  reflexivity.
Qed.

(** X19: an interruption does not touch the transcript accumulator: a
    message handled to completion leaves the transcript and the two
    pending buffers exactly as the same message without the [interrupted]
    flag does, so text received before and with an interruption is kept
    for the next [turnComplete]. *)
Theorem interruption_keeps_transcription :
  forall mouth env message (s : State),
    snd (onmessage mouth env message s) = Fulfilled ->
    snd (onmessage mouth env (withoutInterruption message) s) = Fulfilled
    /\ transcripts (fst (onmessage mouth env message s))
       = transcripts (fst (onmessage mouth env (withoutInterruption message) s)).
Proof.
  intros mouth env message s Hf.
  assert (Hf' : snd (onmessage mouth env (withoutInterruption message) s)
                = Fulfilled).
  { revert Hf. unfold onmessage. rewrite getAudioData_withoutInterruption.
    destruct (getAudioData message) as [audioData|]; [|discriminate].
    destruct (scheduleAudio mouth env audioData s) as [s1 c].
    destruct c; [|discriminate]. intros _.
    destruct (serverContent (withoutInterruption message)); reflexivity. }
  split; [exact Hf'|].
  pose proof (onmessage_transcripts mouth env message s Hf) as H1.
  pose proof (onmessage_transcripts mouth env (withoutInterruption message) s Hf')
    as H2.
  cbv zeta in H1, H2.
  unfold withoutInterruption, inputFragment, outputFragment in *.
  destruct (serverContent message) as [sc|] eqn:E; cbn in *.
  - destruct (turnComplete sc); congruence.
  - rewrite E in H2. congruence.
Qed.

Lemma interruption_keeps_transcription_witness :
  currentOutputTranscriptionRef
    (fst (onmessage (Some someMouth) (envAt 1 0) interruption midTurnState))
  = js " Good".
Proof.
  assert (Hf : snd (onmessage (Some someMouth) (envAt 1 0) interruption
                      midTurnState) = Fulfilled) by (vm_compute; reflexivity).
  destruct (interruption_keeps_transcription (Some someMouth) (envAt 1 0)
              interruption midTurnState Hf) as (_ & Ht).
  apply (f_equal snd) in Ht. cbn [transcripts snd] in Ht.
  rewrite Ht. vm_compute. reflexivity.
Defined.

Lemma endConversation_tears_down_witness :
  audioSourcesRef speakingState <> []
  /\ audioSourcesRef (endConversation speakingState) = []
  /\ In 0%nat (stopped (endConversation speakingState))
  /\ In 7%nat (stoppedStreams (endConversation speakingState))
  /\ activeAudioSources (endConversation speakingState) = 1%Z.
Proof.
  destruct (endConversation_tears_down speakingState)
    as (_ & _ & _ & _ & H5 & _ & _ & H8 & H9 & _ & _ & H12 & _).
  split; [vm_compute; discriminate|]. split; [exact H8|]. split.
  - apply (H9 (mkSource 0 (Rmax 0 0) 2)). vm_compute. now left.
  - split; [apply H5; vm_compute; reflexivity|].
    rewrite H12. vm_compute. reflexivity.
Defined.

Lemma stopAnimation_restores_portrait_witness :
  canvasRef (stopAnimation loudFrame)
  = Some (canvasShowing (staticFrame (canvasShowing [])))
  /\ smoothedVolumeRef (stopAnimation loudFrame) = 0.25.
Proof.
  destruct (stopAnimation_restores_portrait loudFrame) as (_ & _ & H3 & H4).
  destruct loudFrame_guards as (_ & Hi & _).
  split.
  - rewrite (H3 _ _ loudFrame_canvas Hi eq_refl). reflexivity.
  - rewrite H4. apply loudFrame_smoothed.
Defined.

Lemma handler_rejects_exactly_when_witness :
  snd (onmessage (Some someMouth) (envBroken 1) interruptedWithAudio
         speakingState) = Rejected
  /\ snd (onmessage (Some someMouth) (envBroken 1) interruption
            speakingState) <> Rejected.
Proof.
  split.
  - apply (proj2 (handler_rejects_exactly_when (Some someMouth) (envBroken 1)
                    interruptedWithAudio speakingState)).
    right. split; [vm_compute; reflexivity | reflexivity].
  - intros H.
    apply (proj1 (handler_rejects_exactly_when (Some someMouth) (envBroken 1)
                    interruption speakingState)) in H.
    destruct H as [H | [H _]]; vm_compute in H; discriminate.
Defined.
